(** * ApsGo Railway Worker: scheduling and job-dispatch engine

    A shallow embedding of [worker.js]: the state client with its
    SDK/REST fallback, the watering executor, the schedule evaluator,
    the threshold evaluator and the check of the actuator node,
    together with the properties the specification states about them
    and further properties read off the code.

    Conventions of the embedding.
    - JavaScript numbers that the worker handles (pot numbers, bounds,
      durations, counters, epoch milliseconds) are integers, [Z].
    - JavaScript objects used as maps ([updates], [lastWateringTime],
      [lastScheduleCheck], the sensor snapshot) are [gmap string _].
    - The module-level variables of [worker.js] and the remote nodes it
      writes are the fields of one [world]; every [async] function is a
      computation in the monad [M] (state and exceptions).
    - What the outside answers (does the SDK call succeed, does the REST
      call succeed, how long does it take, what does it return) is an
      explicit argument of each call, a [reply].
    - [Date.now()] is the field [clock] of the world; it advances at
      every [await] by the latency of the awaited call, so it never
      goes backwards.
    - The queue is the list of the jobs whose [add] call succeeded, in
      that order; what the queue library itself does with a job id that
      it already holds is not modelled, so a statement about the queue is
      a statement about the [add] calls of the worker.
    - In [run], each handler (one job, one schedule check, one sensor
      check) runs to completion before the next one starts.  Sensor
      checks that overlap, one being called while another waits at an
      [await], are modelled apart, as threads that a schedule resumes
      in turn.
    - Console output is not modelled, except for the exception that
      building a line of the detail log of a schedule check can throw. *)

From Stdlib Require Import Ascii String ZArith.
From Equations Require Import Equations.
From stdpp Require Import gmap strings list fin_maps pretty.

Local Open Scope string_scope.
Local Open Scope list_scope.
Local Open Scope Z_scope.
#[local] Set Warnings "-clear-no-such-hyp,-register-all".

(** ** JavaScript helpers *)

(** [s.startsWith(p)] *)
Definition startsWith (s p : string) : bool := String.prefix p s.

(** [s.includes(sub)] *)
Fixpoint includes (s sub : string) : bool :=
  String.prefix sub s ||
  match s with
  | EmptyString => false
  | String _ s' => includes s' sub
  end.

(** [s.replace(a, b)] for one-character [a] and [b]: only the first
    occurrence is replaced. *)
Fixpoint replace (s : string) (a b : ascii) : string :=
  match s with
  | EmptyString => EmptyString
  | String c s' => if Ascii.eqb c a then String b s' else String c (replace s' a b)
  end.

(** [s.padStart(2, '0')] *)
Definition padStart2 (s : string) : string :=
  match String.length s with
  | O => "00"
  | S O => "0" +:+ s
  | _ => s
  end.

(** [n.toString()] and [`${n}`] for an integer [n]. *)
Definition toString (n : Z) : string := pretty n.

(** White space skipped by [parseInt]. *)
Definition is_ws (c : ascii) : bool :=
  let n := nat_of_ascii c in
  (n =? 32)%nat || ((9 <=? n)%nat && (n <=? 13)%nat).

Fixpoint skip_ws (s : string) : string :=
  match s with
  | String c s' => if is_ws c then skip_ws s' else s
  | EmptyString => EmptyString
  end.

Definition digit_of (c : ascii) : option Z :=
  let n := Z.of_nat (nat_of_ascii c) in
  if (48 <=? n) && (n <=? 57) then Some (n - 48) else None.

Definition hexdigit_of (c : ascii) : option Z :=
  let n := Z.of_nat (nat_of_ascii c) in
  if (48 <=? n) && (n <=? 57) then Some (n - 48)
  else if (97 <=? n) && (n <=? 102) then Some (n - 87)
  else if (65 <=? n) && (n <=? 70) then Some (n - 55)
  else None.

(** The longest prefix of digits, read in the given radix; [None] when
    there is no digit at all. *)
Fixpoint digits (dig : ascii → option Z) (radix : Z) (s : string) (acc : option Z)
  : option Z :=
  match s with
  | String c s' =>
      match dig c with
      | Some d => digits dig radix s' (Some (radix * default 0 acc + d))
      | None => acc
      end
  | EmptyString => acc
  end.

(** [parseInt(s)] of a string; [None] is [NaN]. *)
Definition parseInt_string (s : string) : option Z :=
  let s := skip_ws s in
  let '(sign, s) :=
    match s with
    | String "-"%char s' => (-1, s')
    | String "+"%char s' => (1, s')
    | _ => (1, s)
    end in
  match s with
  | String "0"%char (String "x"%char s') | String "0"%char (String "X"%char s') =>
      Z.mul sign <$> digits hexdigit_of 16 s' None
  | _ => Z.mul sign <$> digits digit_of 10 s None
  end.

(** ** Data model *)

(** A raw value found under [data/soil_N]; a missing key is [None] at
    lookup. *)
Inductive reading :=
| RNum (z : Z)
| RStr (s : string)
| RBool (b : bool)
| RNull.

(** [parseInt(v)]: the argument is first converted to a string, so
    [undefined], [null] and booleans give [NaN]. *)
Definition parseInt (v : option reading) : option Z :=
  match v with
  | Some (RNum z) => Some z
  | Some (RStr s) => parseInt_string s
  | Some (RBool _) | Some RNull | None => None
  end.

(** [parseInt(v) || 0] *)
Definition parseIntOr0 (v : option reading) : Z :=
  match parseInt v with
  | Some z => if z =? 0 then 0 else z
  | None => 0
  end.

(** [x || d] for a number that may be absent: [undefined] and [0] are
    falsy. *)
Definition orElse (x : option Z) (d : Z) : Z :=
  match x with
  | Some z => if z =? 0 then d else z
  | None => d
  end.

(** What is found under [pot_aktif]: nothing (the field is absent, [null]
    or another falsy value), an array of pot numbers, or a value that is
    truthy but neither an array nor iterable: a number, [true], or an
    object, which is what the store returns for a list kept with gaps. *)
Inductive potsValue :=
| NoPots
| PotArray (l : list Z)
| NotAnArray.

(** [v || []] *)
Definition orEmpty (v : potsValue) : potsValue :=
  match v with
  | NoPots => PotArray []
  | _ => v
  end.

(** [Array.isArray(v)] *)
Definition isArray (v : potsValue) : bool :=
  match v with
  | PotArray _ => true
  | _ => false
  end.

(** The elements of [v || []] when that is an array. *)
Definition potsOf (v : potsValue) : list Z :=
  match v with
  | PotArray l => l
  | _ => []
  end.

(** A node [jadwal_*] or [threshold_*] of the kontrol document. Every
    field may be absent. *)
Record entry := mkEntry {
  aktif : option bool;
  waktu : option string;
  durasi : option Z;
  pot_aktif : potsValue;
  pompa_air : option bool;
  pompa_pupuk : option bool;
  batas_bawah : option Z;
  batas_atas : option Z;
  smart_mode : option bool;
}.

(** The kontrol document: the mode flags, the legacy slots, and the
    remaining keys in their order, each holding an object ([Some]) or
    something that is not an object ([None]). *)
Record kontrol := mkKontrol {
  k_waktu : bool;
  k_otomatis : bool;
  k_waktu_1 : option string;
  k_waktu_2 : option string;
  k_durasi_1 : option Z;
  k_durasi_2 : option Z;
  k_nodes : list (string * option entry);
}.

(** [Object.keys(kontrolConfig)] restricted to the nodes. *)
Definition keys (k : kontrol) : list string := (k_nodes k).*1.

(** [kontrolConfig[key]] *)
Fixpoint node_lookup (nodes : list (string * option entry)) (key : string)
  : option entry :=
  match nodes with
  | [] => None
  | (k, v) :: rest => if String.eqb k key then v else node_lookup rest key
  end.

(** [job.data.sensorData] *)
Record sensorInfo := mkSensorInfo {
  batasBawah : Z;
  batasAtas : Z;
  mode : string;
  potValues : list (Z * Z);
}.

(** [job.data] *)
Record jobData := mkJobData {
  type : string;
  potNumbers : list Z;
  pompaAir : bool;
  pompaPupuk : bool;
  duration : Z;
  scheduleId : string;
  thresholdId : option string;
  smartMode : bool;
  sensorData : option sensorInfo;
}.

(** A job as accepted by the queue; [timestamp] is the time of the
    [add] call. *)
Record job := mkJob {
  name : string;
  data : jobData;
  jobId : string;
  priority : option Z;
  timestamp : Z;
}.

Inductive transport := SDK | REST.

(** ** The world *)

Record world := mkWorld {
  clock : Z;
  consecutiveFirebaseErrors : Z;
  sdkSuccessCount : Z;
  restFallbackCount : Z;
  lastWateringTime : gmap string Z;
  lastScheduleCheck : gmap string bool;
  (** the remote node [aktuator] *)
  aktuator : gmap string bool;
  (** the jobs the queue accepted, oldest first *)
  queue : list job;
  (** ghost: every transport attempt with its outcome, oldest first *)
  attempts : list (transport * bool);
  (** ghost: every [updateFirebaseSmart] call, oldest first *)
  requests : list (string * gmap string bool);
  (** the number of schedule checks started so far *)
  checkCounter : Z;
}.

Definition upd_clock (f : Z → Z) (w : world) : world :=
  mkWorld (f (clock w)) (consecutiveFirebaseErrors w) (sdkSuccessCount w)
    (restFallbackCount w) (lastWateringTime w) (lastScheduleCheck w)
    (aktuator w) (queue w) (attempts w) (requests w) (checkCounter w).
Definition upd_consecutiveFirebaseErrors (f : Z → Z) (w : world) : world :=
  mkWorld (clock w) (f (consecutiveFirebaseErrors w)) (sdkSuccessCount w)
    (restFallbackCount w) (lastWateringTime w) (lastScheduleCheck w)
    (aktuator w) (queue w) (attempts w) (requests w) (checkCounter w).
Definition upd_sdkSuccessCount (f : Z → Z) (w : world) : world :=
  mkWorld (clock w) (consecutiveFirebaseErrors w) (f (sdkSuccessCount w))
    (restFallbackCount w) (lastWateringTime w) (lastScheduleCheck w)
    (aktuator w) (queue w) (attempts w) (requests w) (checkCounter w).
Definition upd_restFallbackCount (f : Z → Z) (w : world) : world :=
  mkWorld (clock w) (consecutiveFirebaseErrors w) (sdkSuccessCount w)
    (f (restFallbackCount w)) (lastWateringTime w) (lastScheduleCheck w)
    (aktuator w) (queue w) (attempts w) (requests w) (checkCounter w).
Definition upd_lastWateringTime (f : gmap string Z → gmap string Z) (w : world) : world :=
  mkWorld (clock w) (consecutiveFirebaseErrors w) (sdkSuccessCount w)
    (restFallbackCount w) (f (lastWateringTime w)) (lastScheduleCheck w)
    (aktuator w) (queue w) (attempts w) (requests w) (checkCounter w).
Definition upd_lastScheduleCheck (f : gmap string bool → gmap string bool) (w : world) : world :=
  mkWorld (clock w) (consecutiveFirebaseErrors w) (sdkSuccessCount w)
    (restFallbackCount w) (lastWateringTime w) (f (lastScheduleCheck w))
    (aktuator w) (queue w) (attempts w) (requests w) (checkCounter w).
Definition upd_aktuator (f : gmap string bool → gmap string bool) (w : world) : world :=
  mkWorld (clock w) (consecutiveFirebaseErrors w) (sdkSuccessCount w)
    (restFallbackCount w) (lastWateringTime w) (lastScheduleCheck w)
    (f (aktuator w)) (queue w) (attempts w) (requests w) (checkCounter w).
Definition upd_queue (f : list job → list job) (w : world) : world :=
  mkWorld (clock w) (consecutiveFirebaseErrors w) (sdkSuccessCount w)
    (restFallbackCount w) (lastWateringTime w) (lastScheduleCheck w)
    (aktuator w) (f (queue w)) (attempts w) (requests w) (checkCounter w).
Definition upd_attempts (f : list (transport * bool) → list (transport * bool)) (w : world) : world :=
  mkWorld (clock w) (consecutiveFirebaseErrors w) (sdkSuccessCount w)
    (restFallbackCount w) (lastWateringTime w) (lastScheduleCheck w)
    (aktuator w) (queue w) (f (attempts w)) (requests w) (checkCounter w).
Definition upd_requests
  (f : list (string * gmap string bool) → list (string * gmap string bool)) (w : world) : world :=
  mkWorld (clock w) (consecutiveFirebaseErrors w) (sdkSuccessCount w)
    (restFallbackCount w) (lastWateringTime w) (lastScheduleCheck w)
    (aktuator w) (queue w) (attempts w) (f (requests w)) (checkCounter w).

Definition upd_checkCounter (f : Z → Z) (w : world) : world :=
  mkWorld (clock w) (consecutiveFirebaseErrors w) (sdkSuccessCount w)
    (restFallbackCount w) (lastWateringTime w) (lastScheduleCheck w)
    (aktuator w) (queue w) (attempts w) (requests w) (f (checkCounter w)).

(** ** The monad of handlers: state and exceptions *)

Inductive result (A : Type) :=
| Ok (a : A)
| Throw (message : string).
Arguments Ok {A} a.
Arguments Throw {A} message.

Definition M (A : Type) : Type := world → result A * world.

Definition throw {A} (message : string) : M A := λ w, (Throw message, w).
#[global] Instance M_ret : MRet M := λ A a w, (Ok a, w).
#[global] Instance M_bind : MBind M := λ A B k m w,
  match m w with
  | (Ok a, w') => k a w'
  | (Throw e, w') => (Throw e, w')
  end.
(** [try { body } catch (error) { handler }] *)
Definition try_catch {A} (body : M A) (handler : string → M A) : M A :=
  λ w, match body w with
       | (Ok a, w') => (Ok a, w')
       | (Throw e, w') => handler e w'
       end.
Definition gets {A} (f : world → A) : M A := λ w, (Ok (f w), w).
Definition modify (f : world → world) : M unit := λ w, (Ok tt, f w).

(** [for (const x of l) { body }] *)
Fixpoint for_of {A} (l : list A) (body : A → M unit) : M unit :=
  match l with
  | [] => mret tt
  | x :: l' => body x ;; for_of l' body
  end.

(** [Date.now()] *)
Definition Date_now : M Z := gets clock.

(** Time passing while a call is awaited. *)
Definition await (latency : N) : M unit :=
  modify (upd_clock (λ t, t + Z.of_N latency)).

(** ** State client *)

(** What the outside answers to one store call. *)
Record reply (A : Type) := mkReply {
  sdk_ok : bool;
  rest_ok : bool;
  latency : N;
  payload : A;
}.
Arguments mkReply {A}.
Arguments sdk_ok {A}.
Arguments rest_ok {A}.
Arguments latency {A}.
Arguments payload {A}.

Definition SKIP_SDK_THRESHOLD : Z := 3.
Definition RESET_THRESHOLD_AFTER : Z := 50.

(** One attempt over one transport: recorded, then it returns the
    payload or throws. *)
Definition attempt {A} (t : transport) (ok : bool) (v : A) (message : string) : M A :=
  modify (upd_attempts (λ l, l ++ [(t, ok)]));;
  if ok then mret v else throw message.

Definition fetchWithTimeout {A} (r : reply A) : M A :=
  attempt SDK (sdk_ok r) (payload r) "Firebase fetch timeout".

Definition fetchKontrolViaREST (r : reply (option kontrol)) : M (option kontrol) :=
  attempt REST (rest_ok r) (payload r) "REST API failed".

Definition fetchKontrolSmart (r : reply (option kontrol)) : M (option kontrol) :=
  ce ← gets consecutiveFirebaseErrors;
  let shouldSkipSDK := SKIP_SDK_THRESHOLD <=? ce in
  await (latency r);;
  if shouldSkipSDK then
    try_catch
      (data ← fetchKontrolViaREST r;
       modify (upd_restFallbackCount (λ n, n + 1));;
       rf ← gets restFallbackCount;
       (if RESET_THRESHOLD_AFTER <=? rf then
          modify (upd_consecutiveFirebaseErrors (λ _, 0));;
          modify (upd_restFallbackCount (λ _, 0))
        else mret tt);;
       mret data)
      (λ restError, throw "REST API failed")
  else
    try_catch
      (snapshot ← fetchWithTimeout r;
       modify (upd_consecutiveFirebaseErrors (λ _, 0));;
       modify (upd_restFallbackCount (λ _, 0));;
       modify (upd_sdkSuccessCount (λ n, n + 1));;
       mret snapshot)
      (λ sdkError,
         modify (upd_consecutiveFirebaseErrors (λ n, n + 1));;
         try_catch
           (data ← fetchKontrolViaREST r;
            modify (upd_restFallbackCount (λ n, n + 1));;
            mret data)
           (λ restError, throw "Both SDK and REST API failed")).

(** A merge update that reached the store. Only the node [aktuator] is
    kept in the world. *)
Definition store_update (path : string) (updates : gmap string bool) : M unit :=
  if String.eqb path "aktuator"
  then modify (upd_aktuator (λ a, updates ∪ a))
  else mret tt.

Definition updateFirebaseViaREST (path : string) (updates : gmap string bool)
  (r : reply unit) : M unit :=
  attempt REST (rest_ok r) tt "REST PATCH failed";;
  store_update path updates.

Definition updateWithTimeout (path : string) (updates : gmap string bool)
  (r : reply unit) : M unit :=
  attempt SDK (sdk_ok r) tt "Firebase update timeout";;
  store_update path updates.

Definition updateFirebaseSmart (path : string) (updates : gmap string bool)
  (r : reply unit) : M bool :=
  modify (upd_requests (λ l, l ++ [(path, updates)]));;
  ce ← gets consecutiveFirebaseErrors;
  let shouldSkipSDK := SKIP_SDK_THRESHOLD <=? ce in
  await (latency r);;
  if shouldSkipSDK then
    try_catch
      (updateFirebaseViaREST path updates r;; mret true)
      (λ restError, throw "REST update failed")
  else
    try_catch
      (updateWithTimeout path updates r;; mret true)
      (λ sdkError,
         try_catch
           (updateFirebaseViaREST path updates r;; mret true)
           (λ restError, throw "Both SDK and REST update failed")).

(** [setFirebaseSmart]: the written document (a history record) is not
    kept in the world. *)
Definition setFirebaseSmart (path : string) (r : reply unit) : M bool :=
  ce ← gets consecutiveFirebaseErrors;
  let shouldSkipSDK := SKIP_SDK_THRESHOLD <=? ce in
  await (latency r);;
  if shouldSkipSDK then
    try_catch
      (attempt REST (rest_ok r) tt "REST PUT failed" ;; mret true)
      (λ restError, throw "REST set failed")
  else
    try_catch
      (attempt SDK (sdk_ok r) tt "Firebase set timeout" ;; mret true)
      (λ sdkError,
         try_catch
           (attempt REST (rest_ok r) tt "REST PUT failed" ;; mret true)
           (λ restError, throw "Both SDK and REST set failed")).

Definition readFirebaseSmart {A} (path : string) (r : reply A) : M A :=
  ce ← gets consecutiveFirebaseErrors;
  let shouldSkipSDK := SKIP_SDK_THRESHOLD <=? ce in
  await (latency r);;
  if shouldSkipSDK then
    attempt REST (rest_ok r) (payload r) "REST GET failed"
  else
    try_catch
      (fetchWithTimeout r)
      (λ sdkError, attempt REST (rest_ok r) (payload r) "REST GET failed").

(** ** Watering executor *)

(** What the outside does during one turn of a wait loop: the answer to
    the sensor read, if one is made, and by how much the one-second
    sleep overshoots. *)
Record iterEnv := mkIterEnv {
  it_read : reply (option (gmap string reading));
  it_oversleep : N;
}.

Record jobEnv := mkJobEnv {
  on_reply : reply unit;
  iteration : nat → iterEnv;
  off_reply : reply unit;
  history_read : reply (option (gmap string reading));
  history_set : reply unit;
  safety_reply : reply unit;
}.

(** [sleep(ms)]: the timer fires after [ms] milliseconds or later. *)
Definition sleep (ms : Z) (oversleep : N) : M unit :=
  await (Z.to_N ms + oversleep).

(** [`mosvet_${n}`] *)
Definition mosvet (n : Z) : string := "mosvet_" +:+ toString n.

(** The object [updates] built at the start of a job. *)
Definition onUpdates (d : jobData) : gmap string bool :=
  let updates : gmap string bool := ∅ in
  let updates := if pompaAir d then <["mosvet_1" := true]> updates else updates in
  let updates := if pompaPupuk d then <["mosvet_2" := true]> updates else updates in
  foldl (λ updates pot,
           if (1 <=? pot) && (pot <=? 5)
           then <[mosvet (pot + 2) := true]> updates
           else updates)
        updates (potNumbers d).

(** [for (const key in updates) offUpdates[key] = false] *)
Definition offUpdates (updates : gmap string bool) : gmap string bool :=
  (λ _, false) <$> updates.

(** The literal of the safety write. *)
Definition allOff : gmap string bool :=
  <["mosvet_1" := false]> (<["mosvet_2" := false]> (<["mosvet_3" := false]>
  (<["mosvet_4" := false]> (<["mosvet_5" := false]> (<["mosvet_6" := false]>
  (<["mosvet_7" := false]> (<["mosvet_8" := false]> ∅))))))).

(** The inner loop over the pots of a smart job: have all of them
    reached the target? *)
Definition allReached (currentSensorData : gmap string reading) (targetSoil : Z)
  (potNumbers : list Z) : bool :=
  forallb (λ pot, targetSoil <=? parseIntOr0 (currentSensorData !! ("soil_" +:+ toString pot)))
          potNumbers.

(** The body of the monitoring loop up to the sleep: [true] is the
    [break]. A failed sensor read is caught inside. *)
Definition smartCheck (targetSoil : Z) (potNumbers : list Z) (startTime : Z)
  (e : iterEnv) : M bool :=
  t ← Date_now;
  let elapsed := (t - startTime) `div` 1000 in
  if elapsed `rem` 5 =? 0 then
    try_catch
      (currentSensorData ← readFirebaseSmart "data" (it_read e);
       match currentSensorData with
       | Some d => mret (allReached d targetSoil potNumbers)
       | None => mret false
       end)
      (λ sensorError, mret false)
  else mret false.

(** A value together with the equation that it is the value of the
    inspected term. *)
Definition inspect {A : Type} (x : A) : { y : A | x = y } := exist _ x eq_refl.

(** [while (Date.now() - startTime < maxDuration && !allPotsReachedTarget)]:
    the result is the final value of [allPotsReachedTarget]. *)
Equations? smartLoop (its : nat → iterEnv) (targetSoil : Z) (potNumbers : list Z)
  (startTime maxDuration : Z) (i : nat) (w : world) : result bool * world
  by wf (Z.to_nat (startTime + maxDuration - clock w)) lt :=
smartLoop its targetSoil potNumbers startTime maxDuration i w
  with Z_lt_dec (clock w - startTime) maxDuration := {
  | right _ => (Ok false, w)
  | left _ with inspect (smartCheck targetSoil potNumbers startTime (its i) w) := {
      | exist _ (Ok true, w1) _ => (Ok true, w1)
      | exist _ (Ok false, w1) Hcheck =>
          smartLoop its targetSoil potNumbers startTime maxDuration (S i)
            (snd (sleep 1000 (it_oversleep (its i)) w1))
      | exist _ (Throw e, w1) _ => (Throw e, w1) } }.
Proof.
  assert (clock w ≤ clock w1).
  { revert Hcheck. unfold smartCheck, Date_now, gets, readFirebaseSmart,
      fetchWithTimeout, attempt, await, modify, try_catch, throw.
    cbv [mbind M_bind mret M_ret].
    repeat (case_match; simplify_eq/=); intros; simplify_eq/=; lia. }
  cbn. lia.
Qed.

(** [while (Date.now() < endTime) { ...; await sleep(1000) }] *)
Equations? fixedLoop (its : nat → iterEnv) (endTime : Z) (i : nat) (w : world)
  : result unit * world by wf (Z.to_nat (endTime - clock w)) lt :=
fixedLoop its endTime i w with Z_lt_dec (clock w) endTime := {
  | left _ =>
      fixedLoop its endTime (S i)
        (snd (sleep 1000 (it_oversleep (its i)) w))
  | right _ => (Ok tt, w) }.
Proof. cbn. lia. Qed.

(** [logHistory]: its own [try]/[catch] swallows every error. *)
Definition logHistory (type : string) (potNumbers : list Z) (duration : Z)
  (rd : reply (option (gmap string reading))) (st : reply unit) : M unit :=
  try_catch
    (sensorData ← readFirebaseSmart "data" rd;
     setFirebaseSmart "history" st;;
     mret tt)
    (λ error, mret tt).

(** [sensorData && sensorData.batasAtas] *)
Definition target_of (s : option sensorInfo) : option Z :=
  match s with
  | Some s => if batasAtas s =? 0 then None else Some (batasAtas s)
  | None => None
  end.

(** The return value of a successful job. *)
Record jobResult := mkJobResult {
  success : bool;
  res_duration : Z;
  pots : list Z;
}.

(** The processor of the queue worker. *)
Definition wateringWorker (jb : job) (e : jobEnv) : M jobResult :=
  let d := data jb in
  try_catch
    (let updates := onUpdates d in
     updateFirebaseSmart "aktuator" updates (on_reply e);;
     match (if smartMode d then target_of (sensorData d) else None) with
     | Some targetSoil =>
         let maxDuration := duration d * 1000 in
         startTime ← Date_now;
         (smartLoop (iteration e) targetSoil (potNumbers d) startTime maxDuration 0 : M bool);;
         mret tt
     | None =>
         startTime ← Date_now;
         let endTime := startTime + duration d * 1000 in
         (fixedLoop (iteration e) endTime 0 : M unit)
     end;;
     updateFirebaseSmart "aktuator" (offUpdates updates) (off_reply e);;
     logHistory (type d) (potNumbers d) (duration d) (history_read e) (history_set e);;
     for_of (potNumbers d)
       (λ pot, t ← Date_now;
               modify (upd_lastWateringTime (<["pot_" +:+ toString pot := t]>)));;
     mret (mkJobResult true (duration d) (potNumbers d)))
    (λ error,
       try_catch
         (updateFirebaseSmart "aktuator" allOff (safety_reply e);; mret tt)
         (λ safetyError, mret tt);;
       throw error).

(** ** Job queue *)

(** What the queue answers to one [add]. *)
Record addReply := mkAddReply {
  add_ok : bool;
  add_latency : N;
}.

(** [await wateringQueue.add(name, data, { jobId, priority })] *)
Definition wateringQueue_add (name : string) (d : jobData) (jobId : string)
  (priority : option Z) (r : addReply) : M unit :=
  t ← Date_now;
  await (add_latency r);;
  if add_ok r
  then modify (upd_queue (λ q, q ++ [mkJob name d jobId priority t]))
  else throw "queue add failed".

(** ** Schedule evaluator *)

(** The fields of [new Date()] that the evaluator reads. *)
Record Date := mkDate {
  getFullYear : Z;
  getMonth : Z;
  getDate : Z;
  getHours : Z;
  getMinutes : Z;
}.

Record schedEnv := mkSchedEnv {
  kontrol_reply : reply (option kontrol);
  now : Date;
  (** the answer of the queue to an [add] with the given job id; one
      check tries a job id at most once, the keys of the configuration
      being distinct *)
  add_reply : string → addReply;
}.

Definition currentTimeOf (now : Date) : string :=
  padStart2 (toString (getHours now)) +:+ ":" +:+ padStart2 (toString (getMinutes now)).

Definition dateKeyOf (now : Date) : string :=
  toString (getFullYear now) +:+ "-" +:+ padStart2 (toString (getMonth now + 1))
  +:+ "-" +:+ padStart2 (toString (getDate now)).

(** [x !== false] *)
Definition notFalse (x : option bool) : bool :=
  match x with Some false => false | _ => true end.

(** [x === true] *)
Definition isTrue (x : option bool) : bool :=
  match x with Some true => true | _ => false end.

(** [`${key}_${dateKey}_${currentTime.replace(':', '_')}`] *)
Definition jobKeyOf (key dateKey currentTime : string) : string :=
  key +:+ "_" +:+ dateKey +:+ "_" +:+ replace currentTime ":" "_".

(** [!lastScheduleCheck[jobKey]] *)
Definition notFired (ledger : gmap string bool) (jobKey : string) : bool :=
  negb (default false (ledger !! jobKey)).

(** The body of the loop over [allSchedules]. *)
Definition checkSchedule (e : schedEnv) (kontrolConfig : kontrol)
  (currentTime dateKey scheduleKey : string) : M unit :=
  match node_lookup (k_nodes kontrolConfig) scheduleKey with
  | None => mret tt
  | Some schedule =>
      let isActive := notFalse (aktif schedule) in
      if negb isActive then mret tt else
      let scheduleWaktu := default "" (waktu schedule) in
      if String.eqb scheduleWaktu "" || negb (String.eqb scheduleWaktu currentTime)
      then mret tt else
      let potAktif := orEmpty (pot_aktif schedule) in
      let durasi := orElse (durasi schedule) 60 in
      let pompaAir := notFalse (pompa_air schedule) in
      let pompaPupuk := default false (pompa_pupuk schedule) in
      if negb (isArray potAktif) || (length (potsOf potAktif) =? 0)%nat
      then mret tt else
      let jobKey := jobKeyOf scheduleKey dateKey currentTime in
      ledger ← gets lastScheduleCheck;
      if notFired ledger jobKey then
        try_catch
          (wateringQueue_add scheduleKey
             {| type := "waktu_" +:+ scheduleKey;
                potNumbers := potsOf potAktif;
                pompaAir := pompaAir;
                pompaPupuk := pompaPupuk;
                duration := durasi;
                scheduleId := jobKey;
                thresholdId := None;
                smartMode := false;
                sensorData := None |}
             jobKey None (add_reply e jobKey);;
           modify (upd_lastScheduleCheck (<[jobKey := true]>)))
          (λ queueError, mret tt)
      else mret tt
  end.

(** The two legacy slots [waktu_1] and [waktu_2], which the source
    writes out twice; [n] is ["1"] or ["2"]. *)
Definition checkLegacy (e : schedEnv) (n : string) (waktu_n : option string)
  (durasi_n : option Z) (currentTime dateKey : string) : M unit :=
  let waktu_n := default "" waktu_n in
  if negb (String.eqb waktu_n "") && String.eqb waktu_n currentTime then
    let scheduleKey := jobKeyOf ("legacy_jadwal_" +:+ n) dateKey currentTime in
    ledger ← gets lastScheduleCheck;
    if notFired ledger scheduleKey then
      try_catch
        (wateringQueue_add ("schedule-" +:+ n)
           {| type := "waktu_jadwal_" +:+ n;
              potNumbers := [1; 2; 3; 4; 5];
              pompaAir := true;
              pompaPupuk := true;
              duration := orElse durasi_n 60;
              scheduleId := scheduleKey;
              thresholdId := None;
              smartMode := false;
              sensorData := None |}
           scheduleKey None (add_reply e scheduleKey);;
         modify (upd_lastScheduleCheck (<[scheduleKey := true]>)))
        (λ queueError, mret tt)
    else mret tt
  else mret tt.

(** [for (const key in lastScheduleCheck) { if (key.includes(dateKey)) continue; delete ... }] *)
Definition cleanupLedger (dateKey : string) (ledger : gmap string bool) : gmap string bool :=
  filter (λ kv, includes kv.1 dateKey = true) ledger.

(** What [checkScheduledWatering] does with the configuration after the
    detail log: the early return, the loop over the schedules, the
    legacy slots and the cleanup of the ledger. *)
Definition matchSchedules (e : schedEnv) (kontrolConfig : option kontrol) : M unit :=
  let currentTime := currentTimeOf (now e) in
  let dateKey := dateKeyOf (now e) in
  match kontrolConfig with
  | None => mret tt
  | Some k =>
      if negb (k_waktu k) then mret tt else
      let allSchedules := List.filter (λ key, startsWith key "jadwal_") (keys k) in
      for_of allSchedules (checkSchedule e k currentTime dateKey);;
      checkLegacy e "1" (k_waktu_1 k) (k_durasi_1 k) currentTime dateKey;;
      checkLegacy e "2" (k_waktu_2 k) (k_durasi_2 k) currentTime dateKey;;
      modify (upd_lastScheduleCheck (cleanupLedger dateKey))
  end.

(** The detail log is written on every third check and in every
    minute that is a multiple of five:
    [checkCounter % 3 === 0 || now.getMinutes() % 5 === 0]. *)
Definition detailTick (checkCounter : Z) (now : Date) : bool :=
  (checkCounter `rem` 3 =? 0) || (getMinutes now `rem` 5 =? 0).

(** One line of the detail log, for an entry that is an object:
    [potAktif.join(', ')] calls a method that only an array has. *)
Definition logSchedule (kontrolConfig : kontrol) (scheduleKey : string) : M unit :=
  match node_lookup (k_nodes kontrolConfig) scheduleKey with
  | None => mret tt
  | Some schedule =>
      let potAktif := orEmpty (pot_aktif schedule) in
      if isArray potAktif then mret tt else throw "potAktif.join is not a function"
  end.

(** The detail log of a check.  What it prints is not modelled, the
    exception that building a line can throw is. *)
Definition logDetails (e : schedEnv) (kontrolConfig : option kontrol) : M unit :=
  checkCounter ← gets checkCounter;
  if detailTick checkCounter (now e) then
    match kontrolConfig with
    | None => mret tt
    | Some k =>
        let allSchedules := List.filter (λ key, startsWith key "jadwal_") (keys k) in
        if k_waktu k && (0 <? length allSchedules)%nat
        then for_of allSchedules (logSchedule k)
        else mret tt
    end
  else mret tt.

Definition checkScheduledWatering (e : schedEnv) : M unit :=
  modify (upd_checkCounter (λ n, n + 1));;
  try_catch
    (kontrolConfig ← fetchKontrolSmart (kontrol_reply e);
     logDetails e kontrolConfig;;
     matchSchedules e kontrolConfig)
    (λ error, mret tt).

(** ** Threshold evaluator *)

Record sensorEnv := mkSensorEnv {
  data_reply : reply (option (gmap string reading));
  config_reply : reply (option kontrol);
  (** the answer of the queue to an [add] with the given job id *)
  queue_reply : string → addReply;
}.

(** [config.worker.sensorDebounce] *)
Definition sensorDebounce : Z := 120000.

(** [lastTime && Date.now() - lastTime < config.worker.sensorDebounce] *)
Definition coolingDown (lastTime : option Z) (t : Z) : bool :=
  match lastTime with
  | Some lastTime => negb (lastTime =? 0) && (t - lastTime <? sensorDebounce)
  | None => false
  end.

(** The loop over [potAktif]: the list [potDetails] of the pots that
    need watering with their readings, at time [t]. *)
Fixpoint potDetailsOf (sensorData : gmap string reading) (lastWateringTime : gmap string Z)
  (t batasBawah batasAtas : Z) (potAktif : list Z) : list (Z * Z) :=
  match potAktif with
  | [] => []
  | potNumber :: rest =>
      let others := potDetailsOf sensorData lastWateringTime t batasBawah batasAtas rest in
      if (potNumber <? 1) || (5 <? potNumber) then others else
      let soilValue := parseIntOr0 (sensorData !! ("soil_" +:+ toString potNumber)) in
      if batasAtas <=? soilValue then others else
      if soilValue <? batasBawah then
        if coolingDown (lastWateringTime !! ("pot_" +:+ toString potNumber)) t
        then others
        else (potNumber, soilValue) :: others
      else others
  end.

(** The job data built for a threshold entry. *)
Definition thresholdJobData (thresholdKey jobId : string) (threshold : entry)
  (potDetails : list (Z * Z)) : jobData :=
  let batasBawah := orElse (batas_bawah threshold) 30 in
  let batasAtas := orElse (batas_atas threshold) 70 in
  let smartMode := isTrue (smart_mode threshold) in
  {| type := "sensor_threshold";
     potNumbers := potDetails.*1;
     pompaAir := isTrue (pompa_air threshold);
     pompaPupuk := isTrue (pompa_pupuk threshold);
     duration := orElse (durasi threshold) 600;
     scheduleId := jobId;
     thresholdId := Some thresholdKey;
     smartMode := smartMode;
     sensorData := Some {| batasBawah := batasBawah;
                           batasAtas := batasAtas;
                           mode := if smartMode then "smart" else "fixed";
                           potValues := potDetails |} |}.

(** The body of the loop over [allThresholds]. *)
Definition checkThreshold (e : sensorEnv) (sensorData : gmap string reading)
  (kontrolConfig : kontrol) (thresholdKey : string) : M unit :=
  match node_lookup (k_nodes kontrolConfig) thresholdKey with
  | None => mret tt
  | Some threshold =>
      if negb (default false (aktif threshold)) then mret tt else
      let batasBawah := orElse (batas_bawah threshold) 30 in
      let batasAtas := orElse (batas_atas threshold) 70 in
      let potAktif := orEmpty (pot_aktif threshold) in
      if negb (isArray potAktif) then throw "potAktif is not iterable" else
      lastWateringTime ← gets lastWateringTime;
      t ← Date_now;
      let potDetails :=
        potDetailsOf sensorData lastWateringTime t batasBawah batasAtas (potsOf potAktif) in
      let potsNeedWatering := potDetails.*1 in
      if (0 <? length potsNeedWatering)%nat then
        t ← Date_now;
        let jobId := thresholdKey +:+ "-" +:+ toString t in
        wateringQueue_add thresholdKey
          (thresholdJobData thresholdKey jobId threshold potDetails)
          jobId (Some 1) (queue_reply e jobId);;
        for_of potsNeedWatering
          (λ potNumber,
             t ← Date_now;
             modify (upd_lastWateringTime (<["pot_" +:+ toString potNumber := t]>)))
      else mret tt
  end.

Definition checkSensorThresholds (e : sensorEnv) : M unit :=
  try_catch
    (sensorData ← readFirebaseSmart "data" (data_reply e);
     match sensorData with
     | None => mret tt
     | Some sensorData =>
         kontrolConfig ← fetchKontrolSmart (config_reply e);
         match kontrolConfig with
         | None => mret tt
         | Some k =>
             if negb (k_otomatis k) then mret tt else
             let allThresholds := List.filter (λ key, startsWith key "threshold_") (keys k) in
             if (length allThresholds =? 0)%nat then mret tt else
             for_of allThresholds (checkThreshold e sensorData k)
         end
     end)
    (λ error, mret tt).

(** ** The worker as a whole *)




(** The world when the process starts, at time [t]. *)
Definition initial (t : Z) : world :=
  mkWorld t 0 0 0 ∅ ∅ ∅ [] [] [] 0.

(** Successive configuration fetches, one reply each. *)
Definition fetches (w : world) (rs : list (reply (option kontrol))) : world :=
  foldl (λ w r, (fetchKontrolSmart r w).2) w rs.

(** The counters of the state client as they can be while the process
    runs. *)
Definition client_ok (w : world) : Prop :=
  0 ≤ consecutiveFirebaseErrors w ≤ 3 ∧ 0 ≤ restFallbackCount w < 50 ∧
  (consecutiveFirebaseErrors w < 3 → restFallbackCount w ≤ consecutiveFirebaseErrors w).

(** Does a write or a read issued in world [w] get through?  Over REST
    alone while the SDK is skipped, over either transport otherwise. *)
Definition landed {A} (w : world) (r : reply A) : bool :=
  if SKIP_SDK_THRESHOLD <=? consecutiveFirebaseErrors w
  then rest_ok r
  else sdk_ok r || rest_ok r.

(** Time passes and transports are tried, nothing else changes. *)
Definition only_time_passes (w w' : world) : Prop :=
  clock w ≤ clock w' ∧
  consecutiveFirebaseErrors w' = consecutiveFirebaseErrors w ∧
  restFallbackCount w' = restFallbackCount w ∧
  lastWateringTime w' = lastWateringTime w ∧
  lastScheduleCheck w' = lastScheduleCheck w ∧
  aktuator w' = aktuator w ∧
  queue w' = queue w ∧
  requests w' = requests w.

(** A reply of a store where the SDK call fails and the REST call
    succeeds. *)
Definition sdk_down {A} (a : A) : reply A := mkReply false true 0 a.

(** A reply of a store that works, and of one that is unreachable. *)
Definition store_up {A} (a : A) : reply A := mkReply true true 0 a.
Definition store_down {A} (a : A) : reply A := mkReply false false 0 a.

(** [lastWateringTime[`pot_${pot}`] = t] for every pot of the list. *)
Definition stamp (t : Z) (pots : list Z) (m : gmap string Z) : gmap string Z :=
  foldl (λ m pot, <["pot_" +:+ toString pot := t]> m) m pots.

(** The job and the outside of the scenario in which the store becomes
    unreachable after the actuators were switched on: the water pump and
    the valves of pots 1 and 2 for one second. *)
Definition job_pots_1_2 : job :=
  mkJob "threshold_1"
    (mkJobData "sensor_threshold" [1; 2] true false 1 "threshold_1-5"
       (Some "threshold_1") false None)
    "threshold_1-5" (Some 1) 5.

(** The same job when only the off-update is lost. *)
Definition off_write_lost : jobEnv :=
  mkJobEnv (store_up tt) (λ _, mkIterEnv (store_up None) 0)
    (store_down tt) (store_up None) (store_up tt) (store_up tt).

Definition store_lost_after_on : jobEnv :=
  mkJobEnv (store_up tt) (λ _, mkIterEnv (store_down None) 0)
    (store_down tt) (store_down None) (store_down tt) (store_down tt).

(** The longest one turn of the monitoring loop can take: the sensor
    read, then the sleep of one second with its overshoot. *)
Definition turn_time (e : iterEnv) : Z :=
  Z.of_N (latency (it_read e)) + 1000 + Z.of_N (it_oversleep e).

(** A sensor that answers after 300 ms and always reports pot 1 at 20%. *)
Definition slow_dry_sensor : nat → iterEnv :=
  λ _, mkIterEnv (mkReply true true 300 (Some {["soil_1" := RNum 20]})) 0.

(** Successive schedule checks, one environment each. *)
Definition scheduleChecks (w : world) (es : list schedEnv) : world :=
  foldl (λ w e, (checkScheduledWatering e w).2) w es.

(** The ledger and the queue on the day [dateKey]: every job of the
    queue was enqueued under an id of that day, no id occurs twice, and
    every id is marked as fired. *)
Definition ledger_covers_queue (dateKey : string) (w : world) : Prop :=
  NoDup (jobId <$> queue w) ∧
  ∀ j, j ∈ queue w →
       lastScheduleCheck w !! jobId j = Some true ∧
       ∃ key currentTime,
         jobId j = jobKeyOf key dateKey currentTime ∧
         (key = name j ∨ ∃ n, key = "legacy_jadwal_" +:+ n).

(** One possible enqueue of the scheduler at [currentTime] on [dateKey]:
    nothing happens, or one job goes to the queue under a job key of
    that minute that was not in the ledger, and the key is marked. *)
Definition schedule_step (dateKey currentTime : string) (w w' : world) : Prop :=
  clock w ≤ clock w' ∧
  lastWateringTime w' = lastWateringTime w ∧
  aktuator w' = aktuator w ∧
  ((queue w' = queue w ∧ lastScheduleCheck w' = lastScheduleCheck w) ∨
   ∃ key jb,
     jobId jb = jobKeyOf key dateKey currentTime ∧
     (key = name jb ∨ ∃ n, key = "legacy_jadwal_" +:+ n) ∧
     thresholdId (data jb) = None ∧
     notFired (lastScheduleCheck w) (jobId jb) = true ∧
     queue w' = queue w ++ [jb] ∧
     lastScheduleCheck w' = <[jobId jb := true]> (lastScheduleCheck w)).

(** The scenario of the specification: time mode on, [jadwal_1] at
    08:00 for 60 seconds on pots 1, 2 and 3; the clock shows 08:00 on
    5 January 2026; the store and the queue work. *)
Definition jadwal_0800 : kontrol :=
  mkKontrol true false None None None None
    [("jadwal_1",
      Some (mkEntry (Some true) (Some "08:00") (Some 60) (PotArray [1; 2; 3])
              None None None None None))].

Definition at_0800 : Date := mkDate 2026 0 5 8 0.

Definition tick_0800 : schedEnv :=
  mkSchedEnv (store_up (Some jadwal_0800)) at_0800 (λ _, mkAddReply true 0).

(** The same minute with the store unreachable. *)
Definition tick_0800_store_down : schedEnv :=
  mkSchedEnv (store_down (Some jadwal_0800)) at_0800 (λ _, mkAddReply true 0).


(** The world after a threshold entry fired: time has passed while the
    job was added, the job is in the queue, and the pots are stamped with
    the time at which [add] returned. *)
Definition after_threshold_job (jb : job) (add_latency : N) (w : world) : world :=
  upd_lastWateringTime
    (stamp (clock w + Z.of_N add_latency) (potNumbers (data jb)))
    (upd_queue (λ q, q ++ [jb]) (upd_clock (λ t, t + Z.of_N add_latency) w)).




(** A computation that maintains a property of the world. *)
Definition keeps {A} (I : world → Prop) (m : M A) : Prop :=
  ∀ w, I w → I (m w).2.

(** The jobs that were added to the queue between [w] and [w']. *)
Definition newJobs (w w' : world) : list job := drop (length (queue w)) (queue w').

(** The scenario of the specification: [threshold_1] with bounds 30
    and 70 in smart mode on pots 1 and 2, pot 1 at 20%, pot 2 at 50%. *)
Definition threshold_30_70 : entry :=
  mkEntry (Some true) None None (PotArray [1; 2]) None None (Some 30) (Some 70) (Some true).

Definition kontrol_threshold : kontrol :=
  mkKontrol false true None None None None [("threshold_1", Some threshold_30_70)].

Definition pot1_dry : gmap string reading :=
  <["soil_1" := RNum 20]> {["soil_2" := RNum 50]}.

(** Pot 1 at 20% and pot 2 at 80%, above the upper bound. *)
Definition pot2_wet : gmap string reading :=
  <["soil_1" := RNum 20]> {["soil_2" := RNum 80]}.

(** The same entry when the sensor of pot 1 reports nothing usable. *)
Definition pot1_unreadable : gmap string reading :=
  <["soil_1" := RStr "nan"]> {["soil_2" := RNum 50]}.

Definition sensor_tick (sd : gmap string reading) : sensorEnv :=
  mkSensorEnv (store_up (Some sd)) (store_up (Some kontrol_threshold))
    (λ _, mkAddReply true 0).


(** An entry is due at [currentTime]: it is not switched off, its time
    is set and equal to the current time, and it has pots. *)
Definition scheduleDue (schedule : entry) (currentTime : string) : bool :=
  notFalse (aktif schedule) &&
  negb (String.eqb (default "" (waktu schedule)) "") &&
  String.eqb (default "" (waktu schedule)) currentTime &&
  negb (length (potsOf (pot_aktif schedule)) =? 0)%nat.

(** The job data built for a schedule entry. *)
Definition scheduleJobData (scheduleKey jobKey : string) (schedule : entry) : jobData :=
  {| type := "waktu_" +:+ scheduleKey;
     potNumbers := potsOf (pot_aktif schedule);
     pompaAir := notFalse (pompa_air schedule);
     pompaPupuk := default false (pompa_pupuk schedule);
     duration := orElse (durasi schedule) 60;
     scheduleId := jobKey;
     thresholdId := None;
     smartMode := false;
     sensorData := None |}.

(** The job data built for a legacy slot. *)
Definition legacyJobData (n scheduleKey : string) (durasi_n : option Z) : jobData :=
  {| type := "waktu_jadwal_" +:+ n;
     potNumbers := [1; 2; 3; 4; 5];
     pompaAir := true;
     pompaPupuk := true;
     duration := orElse durasi_n 60;
     scheduleId := scheduleKey;
     thresholdId := None;
     smartMode := false;
     sensorData := None |}.

(** The world after the scheduler enqueued a job: time has passed while
    the job was added, the job is in the queue, its id is in the ledger. *)
Definition after_schedule_job (jb : job) (add_latency : N) (w : world) : world :=
  upd_lastScheduleCheck (<[jobId jb := true]>)
    (upd_queue (λ q, q ++ [jb]) (upd_clock (λ t, t + Z.of_N add_latency) w)).

(** A job during which the store answers every call. *)
Definition store_always_up : jobEnv :=
  mkJobEnv (store_up tt) (λ _, mkIterEnv (store_up None) 0)
    (store_up tt) (store_up None) (store_up tt) (store_up tt).

(** The minute of [tick_0800] with the queue refusing every job. *)
Definition tick_0800_queue_down : schedEnv :=
  mkSchedEnv (store_up (Some jadwal_0800)) at_0800 (λ _, mkAddReply false 0).

(** The time mode is on in the configuration that a schedule check gets
    to see: the fetch succeeds, the document exists and [waktu] is set. *)
Definition timeModeOn (e : schedEnv) (w : world) : bool :=
  landed w (kontrol_reply e) &&
  match payload (kontrol_reply e) with
  | Some k => k_waktu k
  | None => false
  end.

(** ** Check of the actuator node at startup *)

Record nodeEnv := mkNodeEnv {
  node_read : reply (option (gmap string bool));
  node_set : reply unit;
  node_update : reply unit;
}.

Definition required : list string :=
  ["mosvet_1"; "mosvet_2"; "mosvet_3"; "mosvet_4";
   "mosvet_5"; "mosvet_6"; "mosvet_7"; "mosvet_8"].

(** [required.filter(key => !(key in aktuatorData))] *)
Definition missingOf (aktuatorData : gmap string bool) : list string :=
  List.filter (λ key, negb (bool_decide (key ∈ dom aktuatorData))) required.

(** [missing.forEach(key => updates[key] = false)] *)
Definition falseAt (missing : list string) : gmap string bool :=
  foldl (λ updates key, <[key := false]> updates) ∅ missing.

(** A [set] on the actuator node that gets through replaces the node. *)
Definition checkAktuatorNode (e : nodeEnv) : M unit :=
  try_catch
    (aktuatorData ← readFirebaseSmart "aktuator" (node_read e);
     match aktuatorData with
     | None =>
         setFirebaseSmart "aktuator" (node_set e);;
         modify (upd_aktuator (λ _, allOff))
     | Some aktuatorData =>
         let missing := missingOf aktuatorData in
         if (0 <? length missing)%nat then
           updateFirebaseSmart "aktuator" (falseAt missing) (node_update e);;
           mret tt
         else mret tt
     end)
    (λ error, mret tt).

(** What a read of the actuator node returns when the store answers
    with what it holds: [null] for a node without children. *)
Definition nodeValue (w : world) : option (gmap string bool) :=
  if decide (aktuator w = ∅) then None else Some (aktuator w).

(** The queue and the record of watering times are as in [w0]. *)
Definition untouched (w0 w : world) : Prop :=
  queue w = queue w0 ∧ lastWateringTime w = lastWateringTime w0.

(** A sensor check during which the queue refuses every job. *)
Definition sensor_tick_queue_down (sd : gmap string reading) : sensorEnv :=
  mkSensorEnv (store_up (Some sd)) (store_up (Some kontrol_threshold))
    (λ _, mkAddReply false 0).

(** A store that holds the pump channel only, switched on. *)
Definition pump_on_only : world :=
  upd_aktuator (λ _, {["mosvet_1" := true]}) (initial 5).

Definition node_up (w : world) : nodeEnv :=
  mkNodeEnv (store_up (nodeValue w)) (store_up tt) (store_up tt).

(** A sensor that answers at once and reports pot 1 at 75%. *)
Definition wet_sensor : nat → iterEnv :=
  λ _, mkIterEnv (store_up (Some {["soil_1" := RNum 75]})) 0.

(** What a schedule check leaves alone: the actuator node, the writes
    asked for, and the record of watering times are as in [w0]. *)
Definition schedule_frame (w0 w : world) : Prop :=
  aktuator w = aktuator w0 ∧ requests w = requests w0 ∧
  lastWateringTime w = lastWateringTime w0.

(** What a sensor check leaves alone: the actuator node, the writes
    asked for, and the ledger of fired schedules are as in [w0]. *)
Definition sensor_frame (w0 w : world) : Prop :=
  aktuator w = aktuator w0 ∧ requests w = requests w0 ∧
  lastScheduleCheck w = lastScheduleCheck w0.

(** An entry whose line of the detail log cannot be built. *)
Definition unprintable (k : kontrol) (scheduleKey : string) : bool :=
  match node_lookup (k_nodes k) scheduleKey with
  | Some schedule => negb (isArray (orEmpty (pot_aktif schedule)))
  | None => false
  end.

(** The detail log of the check with number [checkCounter] throws: it
    is written in this check, the time mode is on, and some schedule
    entry has a [pot_aktif] that is no array. *)
Definition detailLogThrows (e : schedEnv) (kontrolConfig : option kontrol)
  (checkCounter : Z) : bool :=
  detailTick checkCounter (now e) &&
  match kontrolConfig with
  | None => false
  | Some k =>
      k_waktu k &&
      existsb (unprintable k) (List.filter (λ key, startsWith key "jadwal_") (keys k))
  end.

(** A configuration whose second entry has a [pot_aktif] that came back
    from the store as an object, not as an array. *)
Definition jadwal_with_gap : kontrol :=
  mkKontrol true false None None None None
    [("jadwal_1",
      Some (mkEntry (Some true) (Some "08:00") (Some 60) (PotArray [1; 2; 3])
              None None None None None));
     ("jadwal_2",
      Some (mkEntry (Some true) (Some "09:00") (Some 60) NotAnArray
              None None None None None))].

Definition tick_0800_gap : schedEnv :=
  mkSchedEnv (store_up (Some jadwal_with_gap)) at_0800 (λ _, mkAddReply true 0).

(** From [w] to [w'] the queue has only been appended to and no mark
    has been taken out of the ledger. *)
Definition grows (w w' : world) : Prop :=
  (∃ l, queue w' = queue w ++ l) ∧
  ∀ id, lastScheduleCheck w !! id = Some true → lastScheduleCheck w' !! id = Some true.

(** The world after a first check at 08:00 that found the store
    unreachable. *)
Definition after_failed_read : world :=
  (checkScheduledWatering tick_0800_store_down (initial 0)).2.

(** A schedule check gets as far as matching the schedules: the time
    mode is on in the configuration it fetched and its detail log does
    not throw. *)
Definition reachesMatching (e : schedEnv) (w : world) : bool :=
  timeModeOn e w &&
  negb (detailLogThrows e (payload (kontrol_reply e)) (checkCounter w + 1)).

(** ** Sensor checks that overlap

    [checkSensorThresholds] is started by the poll every 30 seconds and
    by the listener on [data], so a call can start while another one
    waits at an [await].  A [thread] is a call of the handler stopped at
    such a point: [Suspended resume] holds what the call does when it is
    resumed, up to its next [await] or its end.  The store calls
    ([readFirebaseSmart], [fetchKontrolSmart]) are taken as one step
    each; the call is split where the handler itself awaits. *)
Inductive thread :=
| Finished
| Suspended (resume : world → result thread * world).

(** What [await wateringQueue.add(...)] does once the call, made at time
    [t], has returned. *)
Definition add_settles (t : Z) (name : string) (d : jobData) (jobId : string)
  (priority : option Z) (r : addReply) : M unit :=
  await (add_latency r);;
  if add_ok r
  then modify (upd_queue (λ q, q ++ [mkJob name d jobId priority t]))
  else throw "queue add failed".

(** The body of the loop over [allThresholds] up to the call of
    [wateringQueue.add]: the time of the call, the job id and the job
    data, if a job is to be added. *)
Definition evalThreshold (sensorData : gmap string reading) (kontrolConfig : kontrol)
  (thresholdKey : string) : M (option (Z * string * jobData)) :=
  match node_lookup (k_nodes kontrolConfig) thresholdKey with
  | None => mret None
  | Some threshold =>
      if negb (default false (aktif threshold)) then mret None else
      let batasBawah := orElse (batas_bawah threshold) 30 in
      let batasAtas := orElse (batas_atas threshold) 70 in
      let potAktif := orEmpty (pot_aktif threshold) in
      if negb (isArray potAktif) then throw "potAktif is not iterable" else
      lastWateringTime ← gets lastWateringTime;
      t ← Date_now;
      let potDetails :=
        potDetailsOf sensorData lastWateringTime t batasBawah batasAtas (potsOf potAktif) in
      let potsNeedWatering := potDetails.*1 in
      if (0 <? length potsNeedWatering)%nat then
        t ← Date_now;
        let jobId := thresholdKey +:+ "-" +:+ toString t in
        t ← Date_now;
        mret (Some (t, jobId, thresholdJobData thresholdKey jobId threshold potDetails))
      else mret None
  end.

(** The rest of the body, once [add] has returned: the job is in the
    queue or the error is thrown, then the pots are stamped. *)
Definition finishThreshold (e : sensorEnv) (thresholdKey : string)
  (pending : Z * string * jobData) : M unit :=
  let '(t, jobId, d) := pending in
  add_settles t thresholdKey d jobId (Some 1) (queue_reply e jobId);;
  for_of (potNumbers d)
    (λ potNumber,
       t ← Date_now;
       modify (upd_lastWateringTime (<["pot_" +:+ toString potNumber := t]>))).

(** The loop over [allThresholds], run up to its next [await]. *)
Fixpoint thresholds_thread (e : sensorEnv) (sensorData : gmap string reading)
  (kontrolConfig : kontrol) (allThresholds : list string) : M thread :=
  match allThresholds with
  | [] => mret Finished
  | thresholdKey :: rest =>
      pending ← evalThreshold sensorData kontrolConfig thresholdKey;
      match pending with
      | None => thresholds_thread e sensorData kontrolConfig rest
      | Some pending =>
          mret (Suspended
                  (finishThreshold e thresholdKey pending;;
                   thresholds_thread e sensorData kontrolConfig rest))
      end
  end.

(** A call of [checkSensorThresholds] that has just been started. *)
Definition sensorCheck_thread (e : sensorEnv) : thread :=
  Suspended
    (sensorData ← readFirebaseSmart "data" (data_reply e);
     match sensorData with
     | None => mret Finished
     | Some sensorData =>
         mret (Suspended
                 (kontrolConfig ← fetchKontrolSmart (config_reply e);
                  match kontrolConfig with
                  | None => mret Finished
                  | Some k =>
                      if negb (k_otomatis k) then mret Finished else
                      let allThresholds :=
                        List.filter (λ key, startsWith key "threshold_") (keys k) in
                      if (length allThresholds =? 0)%nat then mret Finished else
                      thresholds_thread e sensorData k allThresholds
                  end))
     end).

(** A thread is resumed and runs to its next [await].  The handler is
    one [try] block whose [catch] only logs: an exception ends the call. *)
Definition resume (t : thread) (w : world) : thread * world :=
  match t with
  | Finished => (Finished, w)
  | Suspended m =>
      match m w with
      | (Ok t', w') => (t', w')
      | (Throw _, w') => (Finished, w')
      end
  end.

(** The threads [ts] resumed in the order [schedule], one step each
    time. *)
Fixpoint interleave (schedule : list nat) (ts : list thread) (w : world)
  : list thread * world :=
  match schedule with
  | [] => (ts, w)
  | i :: schedule =>
      match ts !! i with
      | None => interleave schedule ts w
      | Some t =>
          let '(t', w') := resume t w in
          interleave schedule (<[i := t']> ts) w'
      end
  end.

(** One thread, resumed [n] times with nothing in between. *)
Definition alone (n : nat) (t : thread) (w : world) : list thread * world :=
  interleave (replicate n 0%nat) [t] w.




(** An entry for pot 1 with a lower bound of 0. *)
Definition threshold_0_70 : entry :=
  mkEntry (Some true) None None (PotArray [1]) None None (Some 0) (Some 70) (Some true).

Definition kontrol_zero_bound : kontrol :=
  mkKontrol false true None None None None [("threshold_1", Some threshold_0_70)].

(** Pot 1 at 10%. *)
Definition pot1_at_10 : gmap string reading := {["soil_1" := RNum 10]}.

(** Pot 1 at 20% and pot 2 at 10%, both below the lower bound of 30. *)
Definition both_dry : gmap string reading :=
  <["soil_1" := RNum 20]> {["soil_2" := RNum 10]}.

(** * Proofs *)

(** ** Running the monad *)

Ltac unfold_M :=
  cbv [mbind M_bind mret M_ret try_catch gets modify throw attempt await
       Date_now sleep store_update
       fetchKontrolViaREST fetchWithTimeout updateFirebaseViaREST
       updateWithTimeout SKIP_SDK_THRESHOLD RESET_THRESHOLD_AFTER].

Ltac split_if :=
  match goal with
  | |- context [if ?c then _ else _] => destruct c eqn:?
  end.

Ltac simpl_world :=
  cbn [clock consecutiveFirebaseErrors sdkSuccessCount restFallbackCount
       lastWateringTime lastScheduleCheck aktuator queue attempts requests
       checkCounter
       upd_clock upd_consecutiveFirebaseErrors upd_sdkSuccessCount
       upd_restFallbackCount upd_lastWateringTime upd_lastScheduleCheck
       upd_aktuator upd_queue upd_attempts upd_requests upd_checkCounter fst snd].

Ltac simpl_world_in H :=
  cbn [clock consecutiveFirebaseErrors sdkSuccessCount restFallbackCount
       lastWateringTime lastScheduleCheck aktuator queue attempts requests
       checkCounter
       upd_clock upd_consecutiveFirebaseErrors upd_sdkSuccessCount
       upd_restFallbackCount upd_lastWateringTime upd_lastScheduleCheck
       upd_aktuator upd_queue upd_attempts upd_requests upd_checkCounter fst snd] in H.

Ltac run_M := unfold_M; simpl_world; repeat (split_if; simpl_world).

(** ** State client *)

Section StateClient.
Implicit Types (w : world).

Lemma fetchKontrolSmart_counters r w :
  let w' := (fetchKontrolSmart r w).2 in
  if SKIP_SDK_THRESHOLD <=? consecutiveFirebaseErrors w then
    attempts w' = attempts w ++ [(REST, rest_ok r)] ∧
    if rest_ok r then
      if RESET_THRESHOLD_AFTER <=? restFallbackCount w + 1 then
        consecutiveFirebaseErrors w' = 0 ∧ restFallbackCount w' = 0
      else
        consecutiveFirebaseErrors w' = consecutiveFirebaseErrors w ∧
        restFallbackCount w' = restFallbackCount w + 1
    else
      consecutiveFirebaseErrors w' = consecutiveFirebaseErrors w ∧
      restFallbackCount w' = restFallbackCount w
  else if sdk_ok r then
    attempts w' = attempts w ++ [(SDK, true)] ∧
    consecutiveFirebaseErrors w' = 0 ∧ restFallbackCount w' = 0
  else
    attempts w' = attempts w ++ [(SDK, false); (REST, rest_ok r)] ∧
    consecutiveFirebaseErrors w' = consecutiveFirebaseErrors w + 1 ∧
    restFallbackCount w' = restFallbackCount w + (if rest_ok r then 1 else 0).
Proof.
  unfold fetchKontrolSmart. run_M; rewrite <- ?app_assoc; auto with lia.
Qed.

Lemma fetchKontrolSmart_result r w :
  (fetchKontrolSmart r w).1 =
  if SKIP_SDK_THRESHOLD <=? consecutiveFirebaseErrors w then
    if rest_ok r then Ok (payload r) else Throw "REST API failed"
  else if sdk_ok r then Ok (payload r)
  else if rest_ok r then Ok (payload r)
  else Throw "Both SDK and REST API failed".
Proof. unfold fetchKontrolSmart. run_M; reflexivity. Qed.

Lemma fetchKontrolSmart_landed r w :
  (fetchKontrolSmart r w).1 =
  if landed w r then Ok (payload r)
  else Throw (if SKIP_SDK_THRESHOLD <=? consecutiveFirebaseErrors w
              then "REST API failed" else "Both SDK and REST API failed").
Proof.
  rewrite fetchKontrolSmart_result. unfold landed.
  destruct (SKIP_SDK_THRESHOLD <=? _); [done|].
  by destruct (sdk_ok r), (rest_ok r).
Qed.

(** A configuration fetch touches the clock, the counters and the
    record of attempts, nothing else. *)
Lemma fetchKontrolSmart_frame r w :
  let w' := (fetchKontrolSmart r w).2 in
  clock w' = clock w + Z.of_N (latency r) ∧
  lastWateringTime w' = lastWateringTime w ∧
  lastScheduleCheck w' = lastScheduleCheck w ∧
  aktuator w' = aktuator w ∧ queue w' = queue w ∧ requests w' = requests w.
Proof. unfold fetchKontrolSmart. run_M; auto 10. Qed.

Lemma fetchKontrolSmart_client_ok r w :
  client_ok w → client_ok (fetchKontrolSmart r w).2.
Proof.
  unfold client_ok. intros (Hce & Hrf & Hle).
  pose proof (fetchKontrolSmart_counters r w) as H. cbv zeta in H.
  unfold SKIP_SDK_THRESHOLD, RESET_THRESHOLD_AFTER in H.
  repeat case_match; destruct_and?; lia.
Qed.

Lemma fetches_client_ok rs w : client_ok w → client_ok (fetches w rs).
Proof.
  revert w. induction rs as [|r rs IH]; intros w Hw; [done|].
  apply IH, fetchKontrolSmart_client_ok, Hw.
Qed.

Lemma updateFirebaseSmart_attempts path updates r w :
  attempts (updateFirebaseSmart path updates r w).2 =
  attempts w ++
    if SKIP_SDK_THRESHOLD <=? consecutiveFirebaseErrors w then [(REST, rest_ok r)]
    else if sdk_ok r then [(SDK, true)] else [(SDK, false); (REST, rest_ok r)].
Proof.
  unfold updateFirebaseSmart. run_M; rewrite <- ?app_assoc; reflexivity.
Qed.

Lemma setFirebaseSmart_attempts path r w :
  attempts (setFirebaseSmart path r w).2 =
  attempts w ++
    if SKIP_SDK_THRESHOLD <=? consecutiveFirebaseErrors w then [(REST, rest_ok r)]
    else if sdk_ok r then [(SDK, true)] else [(SDK, false); (REST, rest_ok r)].
Proof.
  unfold setFirebaseSmart. run_M; rewrite <- ?app_assoc; reflexivity.
Qed.

Lemma readFirebaseSmart_attempts {A} path (r : reply A) w :
  attempts (readFirebaseSmart path r w).2 =
  attempts w ++
    if SKIP_SDK_THRESHOLD <=? consecutiveFirebaseErrors w then [(REST, rest_ok r)]
    else if sdk_ok r then [(SDK, true)] else [(SDK, false); (REST, rest_ok r)].
Proof.
  unfold readFirebaseSmart. run_M; rewrite <- ?app_assoc; reflexivity.
Qed.

(** Writes and reads leave the counters of the client alone. *)
Lemma updateFirebaseSmart_counters path updates r w :
  let w' := (updateFirebaseSmart path updates r w).2 in
  consecutiveFirebaseErrors w' = consecutiveFirebaseErrors w ∧
  restFallbackCount w' = restFallbackCount w.
Proof. unfold updateFirebaseSmart. run_M; auto. Qed.

Lemma setFirebaseSmart_counters path r w :
  let w' := (setFirebaseSmart path r w).2 in
  consecutiveFirebaseErrors w' = consecutiveFirebaseErrors w ∧
  restFallbackCount w' = restFallbackCount w.
Proof. unfold setFirebaseSmart. run_M; auto. Qed.

Lemma readFirebaseSmart_counters {A} path (r : reply A) w :
  let w' := (readFirebaseSmart path r w).2 in
  consecutiveFirebaseErrors w' = consecutiveFirebaseErrors w ∧
  restFallbackCount w' = restFallbackCount w.
Proof. unfold readFirebaseSmart. run_M; auto. Qed.

(** While the SDK is skipped, successful direct fetches bring the
    fallback counter to the reset threshold. *)
Lemma fetches_direct_until_reset rs w :
  SKIP_SDK_THRESHOLD ≤ consecutiveFirebaseErrors w →
  0 ≤ restFallbackCount w < RESET_THRESHOLD_AFTER →
  Forall (λ r, rest_ok r = true) rs →
  Z.of_nat (length rs) = RESET_THRESHOLD_AFTER - restFallbackCount w →
  let w' := fetches w rs in
  consecutiveFirebaseErrors w' = 0 ∧ restFallbackCount w' = 0 ∧
  attempts w' = attempts w ++ replicate (length rs) (REST, true).
Proof.
  revert w. induction rs as [|r rs IH]; intros w Hce Hrf Hok Hlen.
  { cbn in Hlen. lia. }
  apply Forall_cons in Hok as [Hr Hok].
  pose proof (fetchKontrolSmart_counters r w) as H. cbv zeta in H.
  destruct (Z.leb_spec SKIP_SDK_THRESHOLD (consecutiveFirebaseErrors w)); [|lia].
  rewrite Hr in H. destruct H as [Hatt H].
  cbn [fetches foldl length] in *. fold (fetches (fetchKontrolSmart r w).2 rs).
  destruct (Z.leb_spec RESET_THRESHOLD_AFTER (restFallbackCount w + 1)).
  - destruct rs as [|r' rs]; [|cbn [length] in Hlen; lia].
    cbn. rewrite Hatt. tauto.
  - destruct H as [Hce' Hrf'].
    destruct (IH (fetchKontrolSmart r w).2) as (? & ? & Hatt');
      [lia | lia | done | cbn [length] in Hlen; lia |].
    cbv zeta. split_and!; [done..|].
    rewrite Hatt', Hatt, <- app_assoc. reflexivity.
Qed.
End StateClient.

(** C7, as the code has it.  The failure streak is counted by the
    configuration fetch [fetchKontrolSmart] alone: a fetch whose SDK call
    fails adds one to [consecutiveFirebaseErrors], a fetch whose SDK call
    succeeds puts it back to zero, so three such failures in a row bring
    it to [SKIP_SDK_THRESHOLD].  From then on every store operation
    (fetch, read, update, set) goes over REST directly, without trying
    the SDK.  While the SDK is skipped, some number [n] of successful
    direct fetches, at most [RESET_THRESHOLD_AFTER] = 50, resets both
    counters, after which the SDK is tried again.  Reads, updates and
    sets never change the counters. *)
Theorem adaptive_fallback_policy (w : world) :
  client_ok w →
  (∀ r, consecutiveFirebaseErrors w < SKIP_SDK_THRESHOLD → sdk_ok r = false →
     consecutiveFirebaseErrors (fetchKontrolSmart r w).2 = consecutiveFirebaseErrors w + 1) ∧
  (∀ r1 r2 r3,
     consecutiveFirebaseErrors w = 0 →
     sdk_ok r1 = false → sdk_ok r2 = false → sdk_ok r3 = false →
     consecutiveFirebaseErrors (fetches w [r1; r2; r3]) = SKIP_SDK_THRESHOLD) ∧
  (∀ r, consecutiveFirebaseErrors w < SKIP_SDK_THRESHOLD → sdk_ok r = true →
     attempts (fetchKontrolSmart r w).2 = attempts w ++ [(SDK, true)] ∧
     consecutiveFirebaseErrors (fetchKontrolSmart r w).2 = 0) ∧
  (SKIP_SDK_THRESHOLD ≤ consecutiveFirebaseErrors w →
     (∀ r, attempts (fetchKontrolSmart r w).2 = attempts w ++ [(REST, rest_ok r)]) ∧
     (∀ A path (r : reply A),
        attempts (readFirebaseSmart path r w).2 = attempts w ++ [(REST, rest_ok r)]) ∧
     (∀ path updates r,
        attempts (updateFirebaseSmart path updates r w).2 = attempts w ++ [(REST, rest_ok r)]) ∧
     (∀ path r,
        attempts (setFirebaseSmart path r w).2 = attempts w ++ [(REST, rest_ok r)]) ∧
     ∃ n : nat, (0 < n ≤ 50)%nat ∧
       ∀ rs, length rs = n → Forall (λ r, rest_ok r = true) rs →
         attempts (fetches w rs) = attempts w ++ replicate n (REST, true) ∧
         consecutiveFirebaseErrors (fetches w rs) = 0 ∧
         restFallbackCount (fetches w rs) = 0) ∧
  (∀ A path (r : reply A),
     consecutiveFirebaseErrors (readFirebaseSmart path r w).2 = consecutiveFirebaseErrors w ∧
     restFallbackCount (readFirebaseSmart path r w).2 = restFallbackCount w) ∧
  (∀ path updates r,
     consecutiveFirebaseErrors (updateFirebaseSmart path updates r w).2
       = consecutiveFirebaseErrors w ∧
     restFallbackCount (updateFirebaseSmart path updates r w).2 = restFallbackCount w) ∧
  (∀ path r,
     consecutiveFirebaseErrors (setFirebaseSmart path r w).2 = consecutiveFirebaseErrors w ∧
     restFallbackCount (setFirebaseSmart path r w).2 = restFallbackCount w).
Proof.
  intros (Hce & Hrf & Hle).
  assert (Hstep : ∀ r w, consecutiveFirebaseErrors w < SKIP_SDK_THRESHOLD →
            sdk_ok r = false →
            consecutiveFirebaseErrors (fetchKontrolSmart r w).2
            = consecutiveFirebaseErrors w + 1).
  { intros r w0 Hlt Hr. pose proof (fetchKontrolSmart_counters r w0) as H.
    cbv zeta in H. rewrite Hr in H.
    destruct (Z.leb_spec SKIP_SDK_THRESHOLD (consecutiveFirebaseErrors w0)); [lia|].
    tauto. }
  split_and!.
  - intros r. apply Hstep.
  - intros r1 r2 r3 H0 H1 H2 H3. cbn [fetches foldl].
    unfold SKIP_SDK_THRESHOLD in *.
    pose proof (Hstep r1 w ltac:(lia) H1) as E1.
    pose proof (Hstep r2 (fetchKontrolSmart r1 w).2 ltac:(lia) H2) as E2.
    pose proof (Hstep r3 (fetchKontrolSmart r2 (fetchKontrolSmart r1 w).2).2 ltac:(lia) H3) as E3.
    lia.
  - intros r Hlt Hr. pose proof (fetchKontrolSmart_counters r w) as H.
    cbv zeta in H. rewrite Hr in H.
    destruct (Z.leb_spec SKIP_SDK_THRESHOLD (consecutiveFirebaseErrors w)); [lia|].
    tauto.
  - intros Hskip.
    assert (Hb : (SKIP_SDK_THRESHOLD <=? consecutiveFirebaseErrors w) = true)
      by (apply Z.leb_le, Hskip).
    split_and!.
    + intros r. pose proof (fetchKontrolSmart_counters r w) as H.
      cbv zeta in H. rewrite Hb in H. tauto.
    + intros A path r. rewrite readFirebaseSmart_attempts, Hb. reflexivity.
    + intros path updates r. rewrite updateFirebaseSmart_attempts, Hb. reflexivity.
    + intros path r. rewrite setFirebaseSmart_attempts, Hb. reflexivity.
    + exists (Z.to_nat (RESET_THRESHOLD_AFTER - restFallbackCount w)).
      unfold RESET_THRESHOLD_AFTER. split; [lia|].
      intros rs Hlen Hok.
      destruct (fetches_direct_until_reset rs w) as (? & ? & Hatt);
        unfold RESET_THRESHOLD_AFTER; [done | lia | done | lia |].
      rewrite Hatt, Hlen. done.
  - intros A path r. apply readFirebaseSmart_counters.
  - intros path updates r. apply updateFirebaseSmart_counters.
  - intros path r. apply setFirebaseSmart_counters.
Qed.

Lemma adaptive_fallback_policy_witness :
  client_ok (initial 0) ∧
  consecutiveFirebaseErrors
    (fetches (initial 0) [sdk_down None; sdk_down None; sdk_down None])
  = SKIP_SDK_THRESHOLD.
Proof.
  assert (H : client_ok (initial 0)) by (unfold client_ok; cbn; lia).
  split; [exact H|].
  apply (proj1 (proj2 (adaptive_fallback_policy (initial 0) H))); reflexivity.
Defined.

(** C7 as stated fails for store operations other than the configuration
    fetch: after three updates in a row whose SDK call failed, the fourth
    update still tries the SDK first. *)
Lemma sdk_failures_of_updates_are_not_counted :
  let w3 := (updateFirebaseSmart "aktuator" ∅ (sdk_down tt)
              (updateFirebaseSmart "aktuator" ∅ (sdk_down tt)
                (updateFirebaseSmart "aktuator" ∅ (sdk_down tt) (initial 0)).2).2).2 in
  attempts w3 = [(SDK, false); (REST, true); (SDK, false); (REST, true);
                 (SDK, false); (REST, true)] ∧
  consecutiveFirebaseErrors w3 = 0 ∧
  attempts (updateFirebaseSmart "aktuator" ∅ (sdk_down tt) w3).2
    = attempts w3 ++ [(SDK, false); (REST, true)] ∧
  attempts (updateFirebaseSmart "aktuator" ∅ (sdk_down tt) w3).2
    ≠ attempts w3 ++ [(REST, true)].
Proof. cbv zeta. split_and!; [reflexivity..|discriminate]. Qed.

(** The reset comes after 47 direct fetches, not 50, when the REST
    fallback worked during the failure streak: the three fallback calls
    of the streak are counted in [restFallbackCount] too. *)
Lemma reset_after_47_direct_fetches :
  let w3 := fetches (initial 0) (replicate 3 (sdk_down None)) in
  let w50 := fetches w3 (replicate 47 (sdk_down None)) in
  consecutiveFirebaseErrors w3 = 3 ∧ restFallbackCount w3 = 3 ∧
  attempts w50 = attempts w3 ++ replicate 47 (REST, true) ∧
  consecutiveFirebaseErrors w50 = 0 ∧
  attempts (fetchKontrolSmart (sdk_down None) w50).2
    = attempts w50 ++ [(SDK, false); (REST, true)].
Proof. cbv zeta. split_and!; vm_compute; reflexivity. Qed.

(** ** Watering executor *)

Section Executor.
Implicit Types (w : world).

Lemma only_time_passes_refl w : only_time_passes w w.
Proof. unfold only_time_passes. split_and!; (done || lia). Qed.

Lemma only_time_passes_trans w1 w2 w3 :
  only_time_passes w1 w2 → only_time_passes w2 w3 → only_time_passes w1 w3.
Proof.
  unfold only_time_passes. intros H1 H2. destruct_and!.
  split_and!; (lia || congruence).
Qed.

Lemma readFirebaseSmart_spec {A} path (r : reply A) w :
  (readFirebaseSmart path r w).1
    = (if landed w r then Ok (payload r) else Throw "REST GET failed") ∧
  only_time_passes w (readFirebaseSmart path r w).2.
Proof.
  unfold readFirebaseSmart, landed, only_time_passes.
  run_M; split_and!; (done || lia).
Qed.

Lemma setFirebaseSmart_spec path r w :
  only_time_passes w (setFirebaseSmart path r w).2.
Proof.
  unfold setFirebaseSmart, only_time_passes.
  run_M; split_and!; (done || lia).
Qed.

Lemma sleep_spec ms oversleep w :
  (sleep ms oversleep w).1 = Ok tt ∧
  clock (sleep ms oversleep w).2 = clock w + Z.of_N (Z.to_N ms + oversleep) ∧
  only_time_passes w (sleep ms oversleep w).2.
Proof. unfold only_time_passes. run_M. split_and!; (done || lia). Qed.

Lemma smartCheck_spec targetSoil potNumbers startTime e w :
  (∃ b, (smartCheck targetSoil potNumbers startTime e w).1 = Ok b) ∧
  only_time_passes w (smartCheck targetSoil potNumbers startTime e w).2.
Proof.
  unfold smartCheck.
  pose proof (readFirebaseSmart_spec "data" (it_read e) w) as [Hres Hw].
  unfold_M. simpl_world.
  destruct (_ =? 0); [|split; [by eexists | apply only_time_passes_refl]].
  destruct (readFirebaseSmart "data" (it_read e) w) as [[[d|]|msg] w'];
    cbn in *; (split; [by eexists | done]).
Qed.

Lemma smartLoop_spec its targetSoil potNumbers startTime maxDuration i w :
  let out := smartLoop its targetSoil potNumbers startTime maxDuration i w in
  (∃ b, out.1 = Ok b ∧ (b = false → maxDuration ≤ clock out.2 - startTime)) ∧
  only_time_passes w out.2.
Proof.
  funelim (smartLoop its targetSoil potNumbers startTime maxDuration i w);
    cbv zeta; cbn [fst snd];
    try match goal with
        | Hc : smartCheck ?t ?p ?s ?e ?w = _ |- _ =>
            pose proof (smartCheck_spec t p s e w) as [[b Hb] Hw];
            rewrite Hc in Hb, Hw; cbn [fst snd] in Hb, Hw
        end.
  - split; [exists false; split; [done | lia] | apply only_time_passes_refl].
  - split; [by exists true | done].
  - match goal with
    | IH : _ ∧ only_time_passes _ _ |- _ => destruct IH as [IHb IHw]
    end.
    split; [exact IHb|].
    eapply only_time_passes_trans; [exact Hw|].
    eapply only_time_passes_trans; [apply sleep_spec | exact IHw].
  - discriminate.
Qed.

Lemma fixedLoop_spec its endTime i w :
  let out := fixedLoop its endTime i w in
  out.1 = Ok tt ∧ endTime ≤ clock out.2 ∧ only_time_passes w out.2.
Proof.
  funelim (fixedLoop its endTime i w); cbv zeta; cbn [fst snd].
  - match goal with
    | IH : _ ∧ _ ∧ only_time_passes _ _ |- _ => destruct IH as (? & ? & IHw)
    end.
    split_and!; [done..|].
    eapply only_time_passes_trans; [apply sleep_spec | exact IHw].
  - split_and!; [done | lia | apply only_time_passes_refl].
Qed.
Lemma updateFirebaseSmart_spec path updates r w :
  let out := updateFirebaseSmart path updates r w in
  (if landed w r then out.1 = Ok true else ∃ message, out.1 = Throw message) ∧
  requests out.2 = requests w ++ [(path, updates)] ∧
  aktuator out.2
    = (if landed w r && String.eqb path "aktuator"
       then updates ∪ aktuator w else aktuator w) ∧
  clock w ≤ clock out.2 ∧
  consecutiveFirebaseErrors out.2 = consecutiveFirebaseErrors w ∧
  restFallbackCount out.2 = restFallbackCount w ∧
  lastWateringTime out.2 = lastWateringTime w ∧
  lastScheduleCheck out.2 = lastScheduleCheck w ∧
  queue out.2 = queue w.
Proof.
  unfold updateFirebaseSmart, landed.
  run_M; split_and!; (done || lia || by eexists).
Qed.

Lemma logHistory_spec type potNumbers duration rd st w :
  (logHistory type potNumbers duration rd st w).1 = Ok tt ∧
  only_time_passes w (logHistory type potNumbers duration rd st w).2.
Proof.
  unfold logHistory. cbv [mbind M_bind mret M_ret try_catch].
  pose proof (readFirebaseSmart_spec "data" rd w) as [_ Hr].
  destruct (readFirebaseSmart "data" rd w) as [[d|message] w1]; [|done].
  pose proof (setFirebaseSmart_spec "history" st w1) as Hs.
  destruct (setFirebaseSmart "history" st w1) as [[b|message] w2];
    (split; [done | eauto using only_time_passes_trans]).
Qed.

Lemma for_of_stamp pots (body : Z → M unit) w :
  (∀ pot w, body pot w
            = (Ok tt, upd_lastWateringTime (<["pot_" +:+ toString pot := clock w]>) w)) →
  for_of pots body w = (Ok tt, upd_lastWateringTime (stamp (clock w) pots) w).
Proof.
  intros Hbody. revert w. induction pots as [|pot pots IH]; intros w.
  - by destruct w.
  - cbn [for_of]. cbv [mbind M_bind]. rewrite Hbody, IH. by destruct w.
Qed.

(** One job, step by step: what comes back, which writes were asked
    for, and what the actuator node holds afterwards. *)
Lemma wateringWorker_spec jb e w :
  let d := data jb in
  let updates := onUpdates d in
  let on := landed w (on_reply e) in
  let off := landed w (off_reply e) in
  let safety := landed w (safety_reply e) in
  let out := wateringWorker jb e w in
  if on && off then
    out.1 = Ok (mkJobResult true (duration d) (potNumbers d)) ∧
    requests out.2
      = requests w ++ [("aktuator", updates); ("aktuator", offUpdates updates)] ∧
    aktuator out.2 = offUpdates updates ∪ (updates ∪ aktuator w)
  else
    (∃ message, out.1 = Throw message) ∧
    requests out.2
      = requests w ++
        (if on
         then [("aktuator", updates); ("aktuator", offUpdates updates); ("aktuator", allOff)]
         else [("aktuator", updates); ("aktuator", allOff)]) ∧
    aktuator out.2
      = let before := if on then updates ∪ aktuator w else aktuator w in
        if safety then allOff ∪ before else before.
Proof.
  cbv zeta. unfold wateringWorker.
  cbv [mbind M_bind mret M_ret try_catch throw Date_now gets].
  pose proof (updateFirebaseSmart_spec "aktuator" (onUpdates (data jb)) (on_reply e) w)
    as (Hr1 & Hq1 & Ha1 & _ & Hce1 & _).
  cbv zeta in Hr1, Hq1, Ha1, Hce1.
  destruct (updateFirebaseSmart "aktuator" (onUpdates (data jb)) (on_reply e) w)
    as [r1 w1]; cbn [fst snd] in *.
  set (wait := match (if smartMode (data jb) then _ else None) with
               | Some _ => _
               | None => _
               end).
  assert (Hwait : ∃ w2, wait w1 = (Ok tt, w2) ∧ only_time_passes w1 w2).
  { subst wait. destruct (if smartMode (data jb) then _ else _) as [targetSoil|].
    - pose proof (smartLoop_spec (iteration e) targetSoil (potNumbers (data jb))
                    (clock w1) (duration (data jb) * 1000) 0 w1) as [(b & Hb & _) Hw].
      cbv zeta in Hb, Hw.
      destruct (smartLoop _ _ _ _ _ _ _) as [rr w2]; cbn [fst snd] in *.
      subst rr. by exists w2.
    - pose proof (fixedLoop_spec (iteration e)
                    (clock w1 + duration (data jb) * 1000) 0 w1) as (Hb & _ & Hw).
      cbv zeta in Hb, Hw.
      destruct (fixedLoop _ _ _ _) as [rr w2]; cbn [fst snd] in *.
      subst rr. by exists w2. }
  destruct Hwait as (w2 & Hwait & Hw2).
  destruct Hw2 as (_ & Hce2 & _ & _ & _ & Hak2 & _ & Hq2).
  assert (Hsafety : ∀ w3,
    consecutiveFirebaseErrors w3 = consecutiveFirebaseErrors w →
    let out := updateFirebaseSmart "aktuator" allOff (safety_reply e) w3 in
    requests out.2 = requests w3 ++ [("aktuator", allOff)] ∧
    aktuator out.2
      = if landed w (safety_reply e) then allOff ∪ aktuator w3 else aktuator w3).
  { intros w3 Hce3.
    pose proof (updateFirebaseSmart_spec "aktuator" allOff (safety_reply e) w3)
      as (_ & Hq & Ha & _).
    cbv zeta in *.
    replace (landed w3 (safety_reply e)) with (landed w (safety_reply e)) in Ha
      by (unfold landed; by rewrite Hce3).
    rewrite andb_true_r in Ha. done. }
  rewrite andb_true_r in Ha1.
  destruct (landed w (on_reply e)); cbn [andb].
  - subst r1. rewrite Hwait.
    pose proof (updateFirebaseSmart_spec "aktuator" (offUpdates (onUpdates (data jb)))
                  (off_reply e) w2) as (Hr3 & Hq3 & Ha3 & _ & Hce3 & _).
    cbv zeta in Hr3, Hq3, Ha3, Hce3.
    replace (landed w2 (off_reply e)) with (landed w (off_reply e)) in Hr3, Ha3
      by (unfold landed; by rewrite Hce2, Hce1).
    rewrite andb_true_r in Ha3.
    destruct (updateFirebaseSmart "aktuator" (offUpdates (onUpdates (data jb)))
                (off_reply e) w2) as [r3 w3]; cbn [fst snd] in *.
    destruct (landed w (off_reply e)).
    + subst r3.
      pose proof (logHistory_spec (type (data jb)) (potNumbers (data jb))
                    (duration (data jb)) (history_read e) (history_set e) w3)
        as [Hr4 Hw4].
      destruct (logHistory _ _ _ _ _ w3) as [r4 w4]; cbn [fst snd] in *.
      subst r4. rewrite for_of_stamp by done. simpl_world.
      destruct Hw4 as (_ & _ & _ & _ & _ & Hak4 & _ & Hq4).
      split_and!; [done | |].
      * rewrite Hq4, Hq3, Hq2, Hq1, <- app_assoc. done.
      * rewrite Hak4, Ha3, Hak2, Ha1. done.
    + destruct Hr3 as [message ->].
      destruct (Hsafety w3) as (Hq4 & Ha4); [congruence|].
      destruct (updateFirebaseSmart "aktuator" allOff (safety_reply e) w3)
        as [[b|m] w4]; cbn [fst snd] in *.
      all: split_and!; [by eexists | |].
      all: try (rewrite Hq4, Hq3, Hq2, Hq1, <- !app_assoc; done).
      all: rewrite Ha4, Ha3, Hak2, Ha1; done.
  - destruct Hr1 as [message ->].
    destruct (Hsafety w1) as (Hq4 & Ha4); [congruence|].
    destruct (updateFirebaseSmart "aktuator" allOff (safety_reply e) w1)
      as [[b|m] w4]; cbn [fst snd] in *.
    all: split_and!; [by eexists | |].
    all: try (rewrite Hq4, Hq1, <- !app_assoc; done).
    all: rewrite Ha4, Ha1; done.
Qed.

(** *** The channel maps *)

Lemma mosvet_of_pot pot :
  1 ≤ pot ≤ 5 →
  mosvet (pot + 2) ∈ ["mosvet_3"; "mosvet_4"; "mosvet_5"; "mosvet_6"; "mosvet_7"].
Proof.
  intros Hr.
  assert (pot = 1 ∨ pot = 2 ∨ pot = 3 ∨ pot = 4 ∨ pot = 5) as Hpot by lia.
  clear Hr. destruct Hpot as [->|[->|[->|[->| ->]]]]; vm_compute; set_solver.
Qed.

Lemma dom_allOff :
  dom allOff = list_to_set (C := gset string)
    ["mosvet_1"; "mosvet_2"; "mosvet_3"; "mosvet_4";
     "mosvet_5"; "mosvet_6"; "mosvet_7"; "mosvet_8"].
Proof. unfold allOff. rewrite !dom_insert_L, dom_empty_L. set_solver. Qed.

Lemma allOff_lookup k : k ∈ dom allOff → allOff !! k = Some false.
Proof.
  rewrite dom_allOff. cbn [list_to_set]. rewrite !elem_of_union, !elem_of_singleton.
  intros Hk. destruct_or!; try set_solver; subst k; reflexivity.
Qed.

Lemma dom_offUpdates updates : dom (offUpdates updates) = dom updates.
Proof. apply dom_fmap_L. Qed.

Lemma offUpdates_lookup updates k :
  k ∈ dom updates → offUpdates updates !! k = Some false.
Proof.
  intros [b Hb]%elem_of_dom. unfold offUpdates. by rewrite lookup_fmap, Hb.
Qed.

Lemma valve_key_dec (pots : list Z) k :
  (∃ pot, pot ∈ pots ∧ 1 ≤ pot ≤ 5 ∧ k = mosvet (pot + 2)) ∨
  ¬ (∃ pot, pot ∈ pots ∧ 1 ≤ pot ≤ 5 ∧ k = mosvet (pot + 2)).
Proof.
  destruct (decide (Exists (λ pot, 1 ≤ pot ≤ 5 ∧ k = mosvet (pot + 2)) pots))
    as [H|H]; rewrite Exists_exists in H; auto.
Qed.

Lemma valves_lookup (pots : list Z) (u : gmap string bool) k :
  let valves :=
    foldl (λ updates pot,
             if (1 <=? pot) && (pot <=? 5)
             then <[mosvet (pot + 2) := true]> updates else updates) u pots in
  ((∃ pot, pot ∈ pots ∧ 1 ≤ pot ≤ 5 ∧ k = mosvet (pot + 2)) → valves !! k = Some true) ∧
  (¬ (∃ pot, pot ∈ pots ∧ 1 ≤ pot ≤ 5 ∧ k = mosvet (pot + 2)) → valves !! k = u !! k).
Proof.
  cbv zeta. revert u. induction pots as [|pot pots IH]; intros u; cbn [foldl].
  { split; [intros (? & []%elem_of_nil & _) | done]. }
  destruct (IH (if (1 <=? pot) && (pot <=? 5)
                then <[mosvet (pot + 2) := true]> u else u)) as [IHin IHout].
  destruct (valve_key_dec pots k) as [Hin|Hnin].
  { split; [intros _; auto|].
    intros Hn. destruct Hn. destruct Hin as (p & ? & ?).
    exists p. rewrite elem_of_cons. tauto. }
  rewrite (IHout Hnin). clear IH IHin IHout. split.
  - intros (p & Hp & Hr & ->).
    apply elem_of_cons in Hp as [->|Hp]; [|destruct Hnin; eauto].
    destruct (Z.leb_spec 1 pot), (Z.leb_spec pot 5); try lia.
    cbn [andb]. by rewrite lookup_insert_eq.
  - intros Hn. destruct (Z.leb_spec 1 pot), (Z.leb_spec pot 5); cbn [andb]; [|done..].
    rewrite lookup_insert_ne; [done|]. intros <-. apply Hn.
    exists pot. rewrite elem_of_cons. auto.
Qed.

Lemma channel_dec d k :
  let P := (k = "mosvet_1" ∧ pompaAir d = true) ∨
           (k = "mosvet_2" ∧ pompaPupuk d = true) ∨
           ∃ pot, pot ∈ potNumbers d ∧ 1 ≤ pot ≤ 5 ∧ k = mosvet (pot + 2) in
  P ∨ ¬ P.
Proof.
  cbv zeta.
  destruct (valve_key_dec (potNumbers d) k) as [?|Hn]; [auto|].
  destruct (decide (k = "mosvet_1" ∧ pompaAir d = true)); [auto|].
  destruct (decide (k = "mosvet_2" ∧ pompaPupuk d = true)); [auto|].
  right. intros [?|[?|?]]; done.
Qed.

(** The keys of the on-update, and its values. *)
Lemma onUpdates_lookup d k :
  let P := (k = "mosvet_1" ∧ pompaAir d = true) ∨
           (k = "mosvet_2" ∧ pompaPupuk d = true) ∨
           ∃ pot, pot ∈ potNumbers d ∧ 1 ≤ pot ≤ 5 ∧ k = mosvet (pot + 2) in
  (P → onUpdates d !! k = Some true) ∧ (¬ P → onUpdates d !! k = None).
Proof.
  cbv zeta. unfold onUpdates. cbv zeta.
  match goal with
  | |- context [foldl ?f ?u ?l] =>
      destruct (valves_lookup l u k) as [Hin Hout]; cbv zeta in Hin, Hout
  end.
  destruct (valve_key_dec (potNumbers d) k) as [Hv|Hv].
  { rewrite (Hin Hv). split; [done|]. intros Hn. destruct Hn. auto. }
  rewrite (Hout Hv). clear Hin Hout.
  destruct (pompaAir d), (pompaPupuk d);
    repeat match goal with
           | |- context [<[?i := _]> _ !! k] =>
               destruct (decide (k = i)) as [->|?];
               [rewrite lookup_insert_eq | rewrite lookup_insert_ne by done]
           end;
    rewrite ?lookup_empty;
    (split; [done | intros Hn; destruct Hn; auto]) ||
    (split; [intros [[? ?]|[[? ?]|?]]; done | done]).
Qed.

Lemma elem_of_dom_onUpdates d k :
  k ∈ dom (onUpdates d) ↔
  (k = "mosvet_1" ∧ pompaAir d = true) ∨
  (k = "mosvet_2" ∧ pompaPupuk d = true) ∨
  ∃ pot, pot ∈ potNumbers d ∧ 1 ≤ pot ≤ 5 ∧ k = mosvet (pot + 2).
Proof.
  rewrite elem_of_dom.
  destruct (onUpdates_lookup d k) as [Hin Hout]. cbv zeta in Hin, Hout.
  destruct (channel_dec d k) as [H|H]; cbv zeta in H.
  - rewrite (Hin H). split; [done | by eexists].
  - rewrite (Hout H). split; [intros [? [=]] | done].
Qed.

Lemma onUpdates_true d k : k ∈ dom (onUpdates d) → onUpdates d !! k = Some true.
Proof.
  intros H%elem_of_dom_onUpdates. by apply onUpdates_lookup.
Qed.

Lemma dom_onUpdates_allOff d : dom (onUpdates d) ⊆ dom allOff.
Proof.
  intros k [[-> _]|[[-> _]|(pot & _ & Hpot & ->)]]%elem_of_dom_onUpdates;
    rewrite dom_allOff; [set_solver..|].
  pose proof (mosvet_of_pot pot Hpot). set_solver.
Qed.
End Executor.

(** C9.  A job that completes asks for exactly two writes of the
    actuator node, the on-update and then the off-update.  The
    on-update holds [true] under [mosvet_1] when [pompaAir] is set, under
    [mosvet_2] when [pompaPupuk] is set, and under [mosvet_(N+2)] for each
    pot [N] of the job between 1 and 5, and has no other key.  The
    off-update has precisely the keys of the on-update, all [false].
    Afterwards those channels are off in the store and every other
    channel is as it was before the job. *)
Theorem off_write_targets_on_channels (jb : job) (e : jobEnv) (w : world) (res : jobResult) :
  (wateringWorker jb e w).1 = Ok res →
  let d := data jb in
  let w' := (wateringWorker jb e w).2 in
  ∃ on off,
    requests w' = requests w ++ [("aktuator", on); ("aktuator", off)] ∧
    (∀ k, k ∈ dom on ↔
          (k = "mosvet_1" ∧ pompaAir d = true) ∨
          (k = "mosvet_2" ∧ pompaPupuk d = true) ∨
          ∃ N, N ∈ potNumbers d ∧ 1 ≤ N ≤ 5 ∧ k = "mosvet_" +:+ toString (N + 2)) ∧
    dom off = dom on ∧
    (∀ k, k ∈ dom on → on !! k = Some true ∧ off !! k = Some false) ∧
    (∀ k, k ∈ dom on → aktuator w' !! k = Some false) ∧
    (∀ k, k ∉ dom on → aktuator w' !! k = aktuator w !! k).
Proof.
  intros Hres. cbv zeta.
  pose proof (wateringWorker_spec jb e w) as H. cbv zeta in H.
  destruct (landed w (on_reply e) && landed w (off_reply e)).
  2: { destruct H as ([message Hm] & _). congruence. }
  destruct H as (_ & Hq & Ha).
  exists (onUpdates (data jb)), (offUpdates (onUpdates (data jb))).
  split_and!.
  - exact Hq.
  - intros k. apply elem_of_dom_onUpdates.
  - apply dom_offUpdates.
  - intros k Hk. split; [by apply onUpdates_true | by apply offUpdates_lookup].
  - intros k Hk. rewrite Ha.
    apply lookup_union_Some_l. by apply offUpdates_lookup.
  - intros k Hk. rewrite Ha.
    rewrite !lookup_union_r; [done | |].
    + by apply not_elem_of_dom.
    + apply not_elem_of_dom. by rewrite dom_offUpdates.
Qed.

Lemma off_write_targets_on_channels_witness :
  ∃ on off,
    requests (wateringWorker job_pots_1_2
                (mkJobEnv (store_up tt) (λ _, mkIterEnv (store_up None) 0)
                   (store_up tt) (store_up None) (store_up tt) (store_up tt))
                (initial 5)).2
    = [] ++ [("aktuator", on); ("aktuator", off)] ∧ dom off = dom on.
Proof.
  edestruct (off_write_targets_on_channels job_pots_1_2
               (mkJobEnv (store_up tt) (λ _, mkIterEnv (store_up None) 0)
                  (store_up tt) (store_up None) (store_up tt) (store_up tt))
               (initial 5)) as (on & off & Hq & _ & Hd & _).
  - vm_compute. reflexivity.
  - exists on, off. split; [exact Hq | exact Hd].
Defined.

(** C1, as the code has it.  A job that completes has asked for the
    on-update and then for an off-update with exactly the same keys, all
    [false], and every channel it switched on is off in the store.  A
    job that fails has asked, as its last write before the error is
    thrown again, for [false] on all of [mosvet_1] .. [mosvet_8], which
    cover every channel a job can switch on; when that safety write gets
    through, all eight channels are off in the store.  Nothing is
    promised when the safety write fails too: its error is caught and
    only logged. *)
Theorem actuators_off_after_job (jb : job) (e : jobEnv) (w : world) :
  let updates := onUpdates (data jb) in
  let out := wateringWorker jb e w in
  (∀ res, out.1 = Ok res →
     requests out.2
       = requests w ++ [("aktuator", updates); ("aktuator", offUpdates updates)] ∧
     dom (offUpdates updates) = dom updates ∧
     ∀ k, k ∈ dom updates →
          offUpdates updates !! k = Some false ∧ aktuator out.2 !! k = Some false) ∧
  (∀ message, out.1 = Throw message →
     last (requests out.2) = Some ("aktuator", allOff) ∧
     dom allOff = list_to_set ["mosvet_1"; "mosvet_2"; "mosvet_3"; "mosvet_4";
                               "mosvet_5"; "mosvet_6"; "mosvet_7"; "mosvet_8"] ∧
     dom updates ⊆ dom allOff ∧
     (∀ k, k ∈ dom allOff → allOff !! k = Some false) ∧
     (landed w (safety_reply e) = true →
      ∀ k, k ∈ dom allOff → aktuator out.2 !! k = Some false)).
Proof.
  cbv zeta.
  pose proof (wateringWorker_spec jb e w) as H. cbv zeta in H.
  destruct (landed w (on_reply e) && landed w (off_reply e)).
  - destruct H as (Hr & Hq & Ha). split; [|intros message Hm; congruence].
    intros res _. split_and!; [exact Hq | apply dom_offUpdates |].
    intros k Hk. split; [by apply offUpdates_lookup|].
    rewrite Ha. apply lookup_union_Some_l. by apply offUpdates_lookup.
  - destruct H as ([m Hm] & Hq & Ha). split; [intros res Hr; congruence|].
    intros message _. split_and!.
    + rewrite Hq, last_app. by destruct (landed w (on_reply e)).
    + apply dom_allOff.
    + apply dom_onUpdates_allOff.
    + apply allOff_lookup.
    + intros Hs k Hk. rewrite Ha, Hs.
      apply lookup_union_Some_l. by apply allOff_lookup.
Qed.

Lemma actuators_off_after_job_witness :
  (wateringWorker job_pots_1_2 off_write_lost (initial 5)).1
    = Throw "Both SDK and REST update failed" ∧
  landed (initial 5) (safety_reply off_write_lost) = true ∧
  aktuator (wateringWorker job_pots_1_2 off_write_lost (initial 5)).2 !! "mosvet_3"
    = Some false.
Proof.
  split; [vm_compute; reflexivity|]. split; [reflexivity|].
  eapply (proj2 (actuators_off_after_job job_pots_1_2 off_write_lost (initial 5))).
  - vm_compute. reflexivity.
  - reflexivity.
  - apply elem_of_dom. exists false. reflexivity.
Defined.

(** C1 as stated fails when the store stays unreachable: the on-update
    got through, the off-update did not, the safety write did not
    either.  The job fails and the pump and both valves stay on. *)
Lemma channels_left_on_when_store_is_lost :
  let out := wateringWorker job_pots_1_2 store_lost_after_on (initial 5) in
  out.1 = Throw "Both SDK and REST update failed" ∧
  requests out.2
    = [("aktuator", onUpdates (data job_pots_1_2));
       ("aktuator", offUpdates (onUpdates (data job_pots_1_2)));
       ("aktuator", allOff)] ∧
  onUpdates (data job_pots_1_2) !! "mosvet_1" = Some true ∧
  aktuator out.2 !! "mosvet_1" = Some true ∧
  aktuator out.2 !! "mosvet_3" = Some true ∧
  aktuator out.2 !! "mosvet_4" = Some true.
Proof. cbv zeta. split_and!; vm_compute; reflexivity. Qed.

(** ** The monitoring loop of a smart job *)

Lemma smartCheck_clock targetSoil potNumbers startTime e w :
  let w1 := (smartCheck targetSoil potNumbers startTime e w).2 in
  clock w ≤ clock w1 ≤ clock w + Z.of_N (latency (it_read e)).
Proof.
  unfold smartCheck, readFirebaseSmart. run_M; try lia.
  all: repeat case_match; simplify_eq/=; lia.
Qed.

Lemma smartCheck_true targetSoil potNumbers startTime e w w1 :
  smartCheck targetSoil potNumbers startTime e w = (Ok true, w1) →
  ((clock w - startTime) `div` 1000) `rem` 5 = 0 ∧
  landed w (it_read e) = true ∧
  ∃ d, payload (it_read e) = Some d ∧ allReached d targetSoil potNumbers = true.
Proof.
  unfold smartCheck, readFirebaseSmart, landed.
  run_M; intros; repeat case_match; simplify_eq/=; split_and!; eauto with lia.
Qed.

Lemma smartLoop_deadline its targetSoil potNumbers startTime maxDuration i w :
  let out := smartLoop its targetSoil potNumbers startTime maxDuration i w in
  (maxDuration ≤ clock w - startTime → out = (Ok false, w)) ∧
  (clock w - startTime < maxDuration →
   ∀ L, (∀ j, turn_time (its j) ≤ L) → clock out.2 - startTime < maxDuration + L).
Proof.
  funelim (smartLoop its targetSoil potNumbers startTime maxDuration i w);
    cbv zeta; cbn [fst snd];
    try match goal with
        | Hc : smartCheck ?t ?p ?s ?e ?w = _ |- _ =>
            pose proof (smartCheck_clock t p s e w) as Hclock;
            cbv zeta in Hclock; rewrite Hc in Hclock; cbn [fst snd] in Hclock
        end.
  - split; [done | lia].
  - split; [lia|]. intros _ L HL. specialize (HL i). unfold turn_time in HL. lia.
  - match goal with
    | IH : (_ → smartLoop _ _ _ _ _ _ _ = _) ∧ _ |- _ => destruct IH as [IHdone IHrun]
    end.
    split; [lia|]. intros _ L HL.
    pose proof (sleep_spec 1000 (it_oversleep (its i)) w1) as (_ & Hs & _).
    pose proof (HL i) as Hi. unfold turn_time in Hi.
    destruct (Z.le_gt_cases maxDuration
                (clock (sleep 1000 (it_oversleep (its i)) w1).2 - startTime)) as [Hge|Hlt].
    + rewrite (IHdone Hge). cbn [snd]. lia.
    + apply IHrun; [lia | done].
  - split; [lia|]. intros _ L HL. specialize (HL i). unfold turn_time in HL. lia.
Qed.

(** With instantaneous reads and exact sleeps the loop stops exactly at
    the deadline, when the deadline is a whole number of seconds away. *)
Lemma smartLoop_exact its targetSoil potNumbers startTime maxDuration i w :
  (∀ j, turn_time (its j) = 1000) →
  (∃ n, 0 ≤ n ∧ maxDuration - (clock w - startTime) = 1000 * n) →
  clock (smartLoop its targetSoil potNumbers startTime maxDuration i w).2 - startTime
    ≤ maxDuration.
Proof.
  intros Hideal.
  funelim (smartLoop its targetSoil potNumbers startTime maxDuration i w);
    cbn [fst snd]; intros (secs & Hsecs & Hrem);
    try match goal with
        | Hc : smartCheck ?t ?p ?s ?e ?w = _ |- _ =>
            pose proof (smartCheck_clock t p s e w) as Hclock;
            cbv zeta in Hclock; rewrite Hc in Hclock; cbn [fst snd] in Hclock
        end;
    try (pose proof (Hideal i) as Hi; unfold turn_time in Hi).
  - lia.
  - lia.
  - match goal with
    | IH : _ → _ → _ ≤ _ |- _ => apply IH; [done|]
    end.
    pose proof (sleep_spec 1000 (it_oversleep (its i)) w1) as (_ & Hs & _).
    exists (secs - 1). lia.
  - lia.
Qed.

Lemma smartLoop_true its targetSoil potNumbers startTime maxDuration i w :
  (smartLoop its targetSoil potNumbers startTime maxDuration i w).1 = Ok true →
  ∃ j d, payload (it_read (its j)) = Some d ∧
         ∀ pot, pot ∈ potNumbers →
                targetSoil ≤ parseIntOr0 (d !! ("soil_" +:+ toString pot)).
Proof.
  funelim (smartLoop its targetSoil potNumbers startTime maxDuration i w);
    cbn [fst snd]; try (intros; discriminate); try assumption.
  match goal with
  | Hc : smartCheck _ _ _ _ _ = (Ok true, _) |- _ =>
      pose proof (smartCheck_true _ _ _ _ _ _ Hc) as (_ & _ & d & Hd & Hall)
  end.
  intros _. exists i, d. split; [done|].
  intros pot Hpot. unfold allReached in Hall.
  rewrite forallb_forall in Hall. apply Z.leb_le, Hall. by apply list_elem_of_In.
Qed.

Lemma smartCheck_reached targetSoil potNumbers startTime e w d :
  ((clock w - startTime) `div` 1000) `rem` 5 = 0 →
  landed w (it_read e) = true →
  payload (it_read e) = Some d →
  allReached d targetSoil potNumbers = true →
  ∃ w1, smartCheck targetSoil potNumbers startTime e w = (Ok true, w1) ∧
        clock w1 = clock w + Z.of_N (latency (it_read e)).
Proof.
  unfold smartCheck, readFirebaseSmart, landed.
  intros Hfive Hlanded Hd Hall. unfold_M. simpl_world.
  unfold SKIP_SDK_THRESHOLD in Hlanded.
  rewrite Hfive. cbn [Z.eqb].
  destruct (3 <=? consecutiveFirebaseErrors w); simpl_world.
  - rewrite Hlanded. simpl_world. rewrite Hd, Hall. eexists. split; [done|]. done.
  - destruct (sdk_ok (it_read e)); simpl_world.
    + rewrite Hd, Hall. eexists. split; [done|]. done.
    + cbn [orb] in Hlanded. rewrite Hlanded. simpl_world. rewrite Hd, Hall.
      eexists. split; [done|]. done.
Qed.

Lemma allReached_spec d targetSoil potNumbers :
  allReached d targetSoil potNumbers = true ↔
  ∀ pot, pot ∈ potNumbers → targetSoil ≤ parseIntOr0 (d !! ("soil_" +:+ toString pot)).
Proof.
  unfold allReached. rewrite forallb_forall. split.
  - intros H pot Hpot. apply Z.leb_le, H. by apply list_elem_of_In.
  - intros H pot Hpot. apply Z.leb_le, H. by apply list_elem_of_In.
Qed.

Lemma smartLoop_turn its targetSoil potNumbers startTime maxDuration i w :
  clock w - startTime < maxDuration →
  smartLoop its targetSoil potNumbers startTime maxDuration i w =
  match smartCheck targetSoil potNumbers startTime (its i) w with
  | (Ok true, w1) => (Ok true, w1)
  | (Ok false, w1) =>
      smartLoop its targetSoil potNumbers startTime maxDuration (S i)
        (sleep 1000 (it_oversleep (its i)) w1).2
  | (Throw message, w1) => (Throw message, w1)
  end.
Proof.
  funelim (smartLoop its targetSoil potNumbers startTime maxDuration i w);
    intros Hrun; try lia;
    match goal with
    | Hc : smartCheck _ _ _ _ _ = _ |- _ => by rewrite Hc
    end.
Qed.

(** C4, as the code has it.  The monitoring loop of a smart job always
    comes to an end, and without an error.  It ends with the flag set
    only after a sensor read in which every pot of the job was at or
    above the target; it ends with the flag unset only once the elapsed
    time has reached [maxDuration] = duration * 1000 ms.  The deadline is
    looked at only at the head of the loop, so a turn that began before
    the deadline is finished first: the loop ends less than one turn (a
    sensor read and a sleep) after the deadline, and exactly at the
    deadline when reads take no time and the sleeps are exact.  Turn by
    turn: a turn that begins at or after the deadline ends the loop; a
    turn that begins before it checks the sensors when the whole seconds
    elapsed are a multiple of five, and the check shows the target
    exactly when the read gets through and every pot of the job reads
    at or above the target; a check that shows the target ends the loop
    at once, any other turn sleeps a second and goes on to the next. *)
Theorem smart_wait_ends_within_one_turn_of_deadline
  (its : nat → iterEnv) (targetSoil : Z) (potNumbers : list Z)
  (duration : Z) (w : world) :
  0 ≤ duration →
  let startTime := clock w in
  let maxDuration := duration * 1000 in
  let out := smartLoop its targetSoil potNumbers startTime maxDuration 0 w in
  ∃ allPotsReachedTarget,
    out.1 = Ok allPotsReachedTarget ∧
    (allPotsReachedTarget = true →
     ∃ j d, payload (it_read (its j)) = Some d ∧
            ∀ pot, pot ∈ potNumbers →
                   targetSoil ≤ parseIntOr0 (d !! ("soil_" +:+ toString pot))) ∧
    (allPotsReachedTarget = false → maxDuration ≤ clock out.2 - startTime) ∧
    (∀ L, (∀ j, turn_time (its j) ≤ L) → clock out.2 - startTime < maxDuration + L) ∧
    ((∀ j, turn_time (its j) = 1000) → clock out.2 - startTime ≤ maxDuration) ∧
    only_time_passes w out.2 ∧
    (∀ i w0,
       maxDuration ≤ clock w0 - startTime →
       smartLoop its targetSoil potNumbers startTime maxDuration i w0 = (Ok false, w0)) ∧
    (∀ i w0,
       clock w0 - startTime < maxDuration →
       let check := smartCheck targetSoil potNumbers startTime (its i) w0 in
       (check.1 = Ok true ↔
        ((clock w0 - startTime) `div` 1000) `rem` 5 = 0 ∧
        landed w0 (it_read (its i)) = true ∧
        ∃ d, payload (it_read (its i)) = Some d ∧
             ∀ pot, pot ∈ potNumbers →
                    targetSoil ≤ parseIntOr0 (d !! ("soil_" +:+ toString pot))) ∧
       (check.1 = Ok true →
        smartLoop its targetSoil potNumbers startTime maxDuration i w0 = (Ok true, check.2)) ∧
       (check.1 ≠ Ok true →
        smartLoop its targetSoil potNumbers startTime maxDuration i w0
        = smartLoop its targetSoil potNumbers startTime maxDuration (S i)
            (sleep 1000 (it_oversleep (its i)) check.2).2)).
Proof.
  intros Hd. cbv zeta.
  pose proof (smartLoop_spec its targetSoil potNumbers (clock w) (duration * 1000) 0 w)
    as [(b & Hb & Hfalse) Hframe].
  pose proof (smartLoop_deadline its targetSoil potNumbers (clock w) (duration * 1000) 0 w)
    as [Hdone Hrun].
  cbv zeta in *. exists b. split_and!; [done | | done | | | done | |].
  - intros ->. eapply smartLoop_true, Hb.
  - intros L HL. destruct (decide (duration = 0)) as [->|Hne].
    + rewrite Hdone by lia. cbn [snd].
      specialize (HL 0%nat). unfold turn_time in HL. lia.
    + apply Hrun; [lia | done].
  - intros Hideal. apply smartLoop_exact; [done|]. exists duration. lia.
  - intros i w0. apply smartLoop_deadline.
  - intros i w0 Hbefore.
    pose proof (smartLoop_turn its targetSoil potNumbers (clock w) (duration * 1000) i w0
                  Hbefore) as Hturn.
    pose proof (smartCheck_spec targetSoil potNumbers (clock w) (its i) w0) as [[c Hc] _].
    split_and!.
    + split.
      * intros Htrue.
        destruct (smartCheck targetSoil potNumbers (clock w) (its i) w0) as [r w1] eqn:Hcheck.
        cbn [fst] in Htrue. subst r.
        destruct (smartCheck_true _ _ _ _ _ _ Hcheck) as (Hfive & Hlanded & d & Hpayload & Hall).
        split_and!; [done | done |]. exists d. split; [done|]. by apply allReached_spec.
      * intros (Hfive & Hlanded & d & Hpayload & Hall).
        apply allReached_spec in Hall.
        destruct (smartCheck_reached targetSoil potNumbers (clock w) (its i) w0 d
                    Hfive Hlanded Hpayload Hall) as (w1 & -> & _). done.
    + intros Htrue. rewrite Hturn.
      destruct (smartCheck targetSoil potNumbers (clock w) (its i) w0) as [r w1].
      cbn [fst snd] in *. subst r. by injection Htrue as ->.
    + intros Hnot. rewrite Hturn.
      destruct (smartCheck targetSoil potNumbers (clock w) (its i) w0) as [r w1].
      cbn [fst snd] in *. subst r. by destruct c.
Qed.

Lemma smart_wait_ends_within_one_turn_of_deadline_witness :
  ∃ b, (smartLoop slow_dry_sensor 70 [1] 5 (1 * 1000) 0 (initial 5)).1 = Ok b ∧
       (b = false →
        1 * 1000 ≤ clock (smartLoop slow_dry_sensor 70 [1] 5 (1 * 1000) 0 (initial 5)).2 - 5).
Proof.
  destruct (smart_wait_ends_within_one_turn_of_deadline slow_dry_sensor 70 [1] 1 (initial 5))
    as (b & Hb & _ & Hfalse & _); [lia|].
  exists b. split; [exact Hb | exact Hfalse].
Defined.

(** C4 as stated fails as soon as a turn takes time: with a duration of
    one second and a sensor read of 300 ms, the loop that never reaches
    its target ends 1300 ms after it started. *)
Lemma smart_wait_overshoots_deadline :
  let out := smartLoop slow_dry_sensor 70 [1] 5 (1 * 1000) 0 (initial 5) in
  out.1 = Ok false ∧ clock out.2 - 5 = 1300 ∧ ¬ (clock out.2 - 5 ≤ 1 * 1000).
Proof.
  cbv zeta.
  assert (clock (smartLoop slow_dry_sensor 70 [1] 5 (1 * 1000) 0 (initial 5)).2 - 5 = 1300)
    as Hclock by (vm_compute; reflexivity).
  split_and!; [vm_compute; reflexivity | exact Hclock | rewrite Hclock; lia].
Qed.

(** ** Schedule evaluator *)

Lemma prefix_app (s t : string) : String.prefix s (s +:+ t) = true.
Proof.
  induction s as [|c s IH]; [by destruct t|].
  change (String.prefix (String c s) (String c (s +:+ t)) = true).
  cbn [String.prefix]. destruct (ascii_dec c c); [exact IH | done].
Qed.

Lemma includes_prefix (s sub : string) : String.prefix sub s = true → includes s sub = true.
Proof. intros H. destruct s; cbn [includes]; by rewrite H. Qed.

Lemma includes_app_r (a s sub : string) :
  includes s sub = true → includes (a +:+ s) sub = true.
Proof.
  intros H. induction a as [|c a IH]; [done|].
  change (includes (String c (a +:+ s)) sub = true).
  cbn [includes]. rewrite IH. apply orb_true_r.
Qed.

Lemma jobKey_includes_dateKey key dateKey currentTime :
  includes (jobKeyOf key dateKey currentTime) dateKey = true.
Proof.
  unfold jobKeyOf. do 2 apply includes_app_r.
  apply includes_prefix, prefix_app.
Qed.

Lemma wateringQueue_add_spec nm d id prio r w :
  let out := wateringQueue_add nm d id prio r w in
  (if add_ok r
   then out.1 = Ok tt ∧ queue out.2 = queue w ++ [mkJob nm d id prio (clock w)]
   else out.1 = Throw "queue add failed" ∧ queue out.2 = queue w) ∧
  clock out.2 = clock w + Z.of_N (add_latency r) ∧
  consecutiveFirebaseErrors out.2 = consecutiveFirebaseErrors w ∧
  restFallbackCount out.2 = restFallbackCount w ∧
  lastWateringTime out.2 = lastWateringTime w ∧
  lastScheduleCheck out.2 = lastScheduleCheck w ∧
  aktuator out.2 = aktuator w ∧
  requests out.2 = requests w.
Proof. unfold wateringQueue_add. run_M; split_and!; done. Qed.

Lemma schedule_step_refl dateKey currentTime w : schedule_step dateKey currentTime w w.
Proof. unfold schedule_step. split_and!; [lia | done | done | by left]. Qed.

Ltac run_add w :=
  match goal with
  | |- context [wateringQueue_add ?n ?d ?id ?p ?r w] =>
      let res := fresh "res" in
      let w1 := fresh "w1" in
      pose proof (wateringQueue_add_spec n d id p r w)
        as (Hq & Hclock & _ & _ & Hlwt & Hl & Hak & _);
      cbv zeta in Hq, Hclock, Hlwt, Hl, Hak;
      destruct (wateringQueue_add n d id p r w) as [res w1]; cbn [fst snd] in *
  end.

Lemma checkSchedule_spec e k currentTime dateKey scheduleKey w :
  let out := checkSchedule e k currentTime dateKey scheduleKey w in
  out.1 = Ok tt ∧ schedule_step dateKey currentTime w out.2.
Proof.
  cbv zeta. unfold checkSchedule.
  destruct (node_lookup (k_nodes k) scheduleKey) as [schedule|];
    [|split; [done | apply schedule_step_refl]].
  repeat (split_if; [split; [done | apply schedule_step_refl]|]).
  cbv [mbind M_bind mret M_ret try_catch gets modify]. cbn [fst snd].
  destruct (notFired (lastScheduleCheck w) _) eqn:Hfresh;
    [|split; [done | apply schedule_step_refl]].
  run_add w.
  destruct (add_ok _); destruct Hq as [-> Hq]; (split; [done|]);
    unfold schedule_step; simpl_world; (split_and!; [lia | done | done |]).
  - right. eexists scheduleKey, _.
    split_and!; [| | | |exact Hq|by rewrite Hl]; (done || by left).
  - left. done.
Qed.

Lemma checkLegacy_spec e n waktu_n durasi_n currentTime dateKey w :
  let out := checkLegacy e n waktu_n durasi_n currentTime dateKey w in
  out.1 = Ok tt ∧ schedule_step dateKey currentTime w out.2.
Proof.
  cbv zeta. unfold checkLegacy. cbv zeta.
  split_if; [|split; [done | apply schedule_step_refl]].
  cbv [mbind M_bind mret M_ret try_catch gets modify]. cbn [fst snd].
  destruct (notFired (lastScheduleCheck w) _) eqn:Hfresh;
    [|split; [done | apply schedule_step_refl]].
  run_add w.
  destruct (add_ok _); destruct Hq as [-> Hq]; (split; [done|]);
    unfold schedule_step; simpl_world; (split_and!; [lia | done | done |]).
  - right. eexists ("legacy_jadwal_" +:+ n), _.
    split_and!; [| | | |exact Hq|by rewrite Hl]; (done || (right; by eexists)).
  - left. done.
Qed.

Lemma schedule_step_covers dateKey currentTime w w' :
  schedule_step dateKey currentTime w w' →
  ledger_covers_queue dateKey w → ledger_covers_queue dateKey w'.
Proof.
  intros (_ & _ & _ & [[Hq Hl]|(key & jb & Hid & Hkey & _ & Hfresh & Hq & Hl)]) [Hnd Hcov];
    unfold ledger_covers_queue; rewrite Hq, Hl; [done|].
  assert (jobId jb ∉ jobId <$> queue w) as Hnew.
  { intros (j & Hj & Hin)%list_elem_of_fmap. destruct (Hcov j Hin) as [Hfired _].
    unfold notFired in Hfresh. rewrite Hj, Hfired in Hfresh. done. }
  split.
  - rewrite fmap_app. apply NoDup_app. split_and!; [done | | apply NoDup_singleton].
    intros id Hid1 ->%list_elem_of_singleton. done.
  - intros j [Hj| ->%list_elem_of_singleton]%elem_of_app.
    + destruct (Hcov j Hj) as [Hf Hi]. split; [|done].
      destruct (decide (jobId j = jobId jb)) as [<-|Hne];
        [apply lookup_insert_eq | by rewrite lookup_insert_ne].
    + split; [apply lookup_insert_eq | eauto].
Qed.

Lemma schedule_steps_covers dateKey currentTime w w' :
  rtc (schedule_step dateKey currentTime) w w' →
  ledger_covers_queue dateKey w → ledger_covers_queue dateKey w'.
Proof. induction 1; eauto using schedule_step_covers. Qed.

Lemma cleanup_covers dateKey w :
  ledger_covers_queue dateKey w →
  ledger_covers_queue dateKey (upd_lastScheduleCheck (cleanupLedger dateKey) w).
Proof.
  intros [Hnd Hcov]. split; [done|]. simpl_world.
  intros j Hj. destruct (Hcov j Hj) as [Hf (key & ct & Hid & Hkey)].
  split; [|eauto]. unfold cleanupLedger.
  apply map_lookup_filter_Some. split; [done|].
  cbn. rewrite Hid. apply jobKey_includes_dateKey.
Qed.

Lemma for_of_schedules e k currentTime dateKey keys w :
  let out := for_of keys (checkSchedule e k currentTime dateKey) w in
  out.1 = Ok tt ∧ rtc (schedule_step dateKey currentTime) w out.2.
Proof.
  cbv zeta. revert w. induction keys as [|key keys IH]; intros w; [done|].
  cbn [for_of]. cbv [mbind M_bind].
  pose proof (checkSchedule_spec e k currentTime dateKey key w) as [Hr Hs].
  cbv zeta in Hr, Hs.
  destruct (checkSchedule e k currentTime dateKey key w) as [r w1]; cbn [fst snd] in *.
  subst r. destruct (IH w1) as [Hr1 Hs1].
  split; [done | by eapply rtc_l].
Qed.

(** Matching never throws; it is a sequence of enqueue steps of the
    current minute, followed by the cleanup of the ledger unless the
    time mode is off. *)
Lemma matchSchedules_spec e kontrolConfig w :
  let out := matchSchedules e kontrolConfig w in
  out.1 = Ok tt ∧
  ∃ w1, rtc (schedule_step (dateKeyOf (now e)) (currentTimeOf (now e))) w w1 ∧
        (out.2 = w1 ∨
         out.2 = upd_lastScheduleCheck (cleanupLedger (dateKeyOf (now e))) w1).
Proof.
  cbv zeta. unfold matchSchedules. cbv zeta.
  destruct kontrolConfig as [k|]; [|split; [done | exists w; by split; [|left]]].
  destruct (negb (k_waktu k)); [split; [done | exists w; by split; [|left]]|].
  cbv [mbind M_bind mret M_ret modify].
  match goal with
  | |- context [for_of ?l ?f w] =>
      pose proof (for_of_schedules e k (currentTimeOf (now e)) (dateKeyOf (now e)) l w)
        as [Hr0 Hs0];
      cbv zeta in Hr0, Hs0; destruct (for_of l f w) as [r0 w0]; cbn [fst snd] in *
  end.
  subst r0.
  pose proof (checkLegacy_spec e "1" (k_waktu_1 k) (k_durasi_1 k)
                (currentTimeOf (now e)) (dateKeyOf (now e)) w0) as [Hr1 Hs1].
  cbv zeta in Hr1, Hs1.
  destruct (checkLegacy e "1" _ _ _ _ w0) as [r1 w1]; cbn [fst snd] in *. subst r1.
  pose proof (checkLegacy_spec e "2" (k_waktu_2 k) (k_durasi_2 k)
                (currentTimeOf (now e)) (dateKeyOf (now e)) w1) as [Hr2 Hs2].
  cbv zeta in Hr2, Hs2.
  destruct (checkLegacy e "2" _ _ _ _ w1) as [r2 w2]; cbn [fst snd] in *. subst r2.
  split; [done|]. exists w2. split; [|by right].
  eapply rtc_trans; [exact Hs0|]. eapply rtc_l; [exact Hs1|]. by apply rtc_once.
Qed.

Lemma fetchKontrolSmart_checkCounter r w :
  checkCounter (fetchKontrolSmart r w).2 = checkCounter w.
Proof. unfold fetchKontrolSmart. run_M; reflexivity. Qed.

Lemma for_of_logSchedule k keys w :
  for_of keys (logSchedule k) w =
  if existsb (unprintable k) keys
  then (Throw "potAktif.join is not a function", w)
  else (Ok tt, w).
Proof.
  induction keys as [|key keys IH]; [done|].
  cbn [for_of existsb]. cbv [mbind M_bind]. unfold logSchedule at 1, unprintable at 1.
  destruct (node_lookup (k_nodes k) key) as [schedule|]; [|exact IH].
  cbv zeta. destruct (isArray (orEmpty (pot_aktif schedule))); [exact IH | done].
Qed.

Lemma logDetails_spec e kontrolConfig w :
  logDetails e kontrolConfig w =
  if detailLogThrows e kontrolConfig (checkCounter w)
  then (Throw "potAktif.join is not a function", w)
  else (Ok tt, w).
Proof.
  unfold logDetails, detailLogThrows. cbv [mbind M_bind gets].
  destruct (detailTick (checkCounter w) (now e)); [|done]. cbn [andb].
  destruct kontrolConfig as [k|]; [|done]. cbv zeta.
  destruct (k_waktu k); [|done]. cbn [andb].
  destruct (List.filter _ (keys k)) as [|key l] eqn:Hkeys; [done|].
  cbn [length Nat.ltb Nat.leb]. apply for_of_logSchedule.
Qed.

(** A schedule check counts itself, fetches the configuration, writes
    the detail log and matches the schedules; an error of the fetch or
    of the log ends the check, and the check returns normally. *)
Lemma checkScheduledWatering_unfold e w :
  checkScheduledWatering e w =
  match fetchKontrolSmart (kontrol_reply e) (upd_checkCounter (λ n, n + 1) w) with
  | (Ok kontrolConfig, w1) =>
      if detailLogThrows e kontrolConfig (checkCounter w + 1) then (Ok tt, w1)
      else matchSchedules e kontrolConfig w1
  | (Throw _, w1) => (Ok tt, w1)
  end.
Proof.
  unfold checkScheduledWatering. cbv [mbind M_bind try_catch mret M_ret modify].
  cbn [snd].
  pose proof (fetchKontrolSmart_checkCounter (kontrol_reply e)
                (upd_checkCounter (λ n, n + 1) w)) as Hcc. simpl_world_in Hcc.
  destruct (fetchKontrolSmart (kontrol_reply e) _) as [[k|message] w1]; [|done].
  cbn [snd] in Hcc.
  rewrite logDetails_spec, Hcc. destruct (detailLogThrows e k _); [done|].
  pose proof (matchSchedules_spec e k w1) as [Hr _]. cbv zeta in Hr.
  destruct (matchSchedules e k w1) as [r w2]; cbn [fst snd] in *. by subst r.
Qed.

(** A schedule check never throws, whatever the store and the queue do. *)
Lemma checkScheduledWatering_ok e w : (checkScheduledWatering e w).1 = Ok tt.
Proof.
  rewrite checkScheduledWatering_unfold.
  destruct (fetchKontrolSmart (kontrol_reply e) _) as [[k|message] w1]; [|done].
  destruct (detailLogThrows e k _); [done|].
  apply matchSchedules_spec.
Qed.

Lemma checkScheduledWatering_covers e w :
  ledger_covers_queue (dateKeyOf (now e)) w →
  ledger_covers_queue (dateKeyOf (now e)) (checkScheduledWatering e w).2.
Proof.
  intros Hcov. rewrite checkScheduledWatering_unfold.
  pose proof (fetchKontrolSmart_frame (kontrol_reply e) (upd_checkCounter (λ n, n + 1) w))
    as (_ & _ & Hl & _ & Hq & _).
  cbv zeta in Hl, Hq. simpl_world_in Hl. simpl_world_in Hq.
  destruct (fetchKontrolSmart (kontrol_reply e) _) as [r w1]; cbn [fst snd] in *.
  assert (ledger_covers_queue (dateKeyOf (now e)) w1) as Hcov1.
  { unfold ledger_covers_queue. by rewrite Hl, Hq. }
  destruct r as [k|message]; [|done].
  destruct (detailLogThrows e k _); [done|].
  destruct (matchSchedules_spec e k w1) as (_ & w2 & Hsteps & [-> | ->]).
  - eauto using schedule_steps_covers.
  - eauto using cleanup_covers, schedule_steps_covers.
Qed.

Lemma scheduleChecks_covers dateKey es w :
  Forall (λ e, dateKeyOf (now e) = dateKey) es →
  ledger_covers_queue dateKey w → ledger_covers_queue dateKey (scheduleChecks w es).
Proof.
  revert w. induction es as [|e es IH]; intros w Hes Hcov; [done|].
  apply Forall_cons in Hes as [<- Hes].
  cbn [scheduleChecks foldl]. apply IH; [done|].
  by apply checkScheduledWatering_covers.
Qed.

Lemma checkSchedule_fired e k currentTime dateKey scheduleKey w :
  lastScheduleCheck w !! jobKeyOf scheduleKey dateKey currentTime = Some true →
  checkSchedule e k currentTime dateKey scheduleKey w = (Ok tt, w).
Proof.
  intros Hfired. unfold checkSchedule.
  destruct (node_lookup (k_nodes k) scheduleKey) as [schedule|]; [|done].
  repeat (split_if; [done|]).
  cbv [mbind M_bind mret M_ret try_catch gets modify]. cbn [fst snd].
  unfold notFired. by rewrite Hfired.
Qed.

Lemma at_most_one_with_id (id : string) (q : list job) :
  NoDup (jobId <$> q) → (length (List.filter (λ j, String.eqb (jobId j) id) q) ≤ 1)%nat.
Proof.
  induction q as [|j q IH]; cbn [fmap list_fmap List.filter length]; [lia|].
  intros [Hnotin Hnd]%NoDup_cons. specialize (IH Hnd).
  destruct (String.eqb_spec (jobId j) id) as [<-|Hne]; [|done].
  cbn [length].
  assert (List.filter (λ j0, String.eqb (jobId j0) (jobId j)) q = []) as ->; [|done].
  clear IH Hnd. induction q as [|j' q IH]; [done|]. cbn [List.filter].
  apply not_elem_of_cons in Hnotin as [Hne Hnotin].
  destruct (String.eqb_spec (jobId j') (jobId j)); [congruence|]. by apply IH.
Qed.

(** C2.  Over any number of schedule checks made on one day, whatever
    the configuration, the store and the queue do at each of them: every
    job the scheduler enqueued carries an id built from an entry name
    (or a legacy slot), the date key and a time of day; an id that is in
    the ledger is skipped; and no id is enqueued twice, so for every
    (name, date, time of day) at most one job is enqueued. *)
Theorem one_job_per_schedule_per_day (dateKey : string) (w : world) (es : list schedEnv) :
  queue w = [] →
  Forall (λ e, dateKeyOf (now e) = dateKey) es →
  let w' := scheduleChecks w es in
  (∀ j, j ∈ queue w' →
        ∃ key currentTime,
          jobId j = key +:+ "_" +:+ dateKey +:+ "_" +:+ replace currentTime ":" "_" ∧
          (key = name j ∨ ∃ n, key = "legacy_jadwal_" +:+ n)) ∧
  (∀ e k currentTime scheduleKey w0,
     lastScheduleCheck w0 !! jobKeyOf scheduleKey dateKey currentTime = Some true →
     checkSchedule e k currentTime dateKey scheduleKey w0 = (Ok tt, w0)) ∧
  NoDup (jobId <$> queue w') ∧
  (∀ scheduleKey currentTime,
     length (List.filter
               (λ j, String.eqb (jobId j) (jobKeyOf scheduleKey dateKey currentTime))
               (queue w')) ≤ 1)%nat.
Proof.
  intros Hempty Hes. cbv zeta.
  assert (ledger_covers_queue dateKey (scheduleChecks w es)) as [Hnd Hcov].
  { apply scheduleChecks_covers; [done|].
    unfold ledger_covers_queue. rewrite Hempty. split; [constructor|].
    intros j []%elem_of_nil. }
  split_and!.
  - intros j Hj. by destruct (Hcov j Hj) as [_ ?].
  - intros e k currentTime scheduleKey w0. apply checkSchedule_fired.
  - done.
  - intros scheduleKey currentTime. by apply at_most_one_with_id.
Qed.

Lemma one_job_per_schedule_per_day_witness :
  NoDup (jobId <$> queue (scheduleChecks (initial 0) [tick_0800; tick_0800; tick_0800])).
Proof.
  refine (proj1 (proj2 (proj2
    (one_job_per_schedule_per_day "2026-01-05" (initial 0)
       [tick_0800; tick_0800; tick_0800] _ _)))).
  - reflexivity.
  - repeat constructor.
Defined.

(** The scenario of the specification: the first check at 08:00
    enqueues one job for pots 1, 2, 3 and 60 seconds, the second check
    in the same minute enqueues nothing. *)
Lemma second_tick_in_the_minute_enqueues_nothing :
  let w1 := (checkScheduledWatering tick_0800 (initial 0)).2 in
  let w2 := (checkScheduledWatering tick_0800 w1).2 in
  (λ j, (jobId j, potNumbers (data j), duration (data j))) <$> queue w1
    = [("jadwal_1_2026-01-05_08_00", [1; 2; 3], 60)] ∧
  queue w2 = queue w1.
Proof. cbv zeta. split; vm_compute; reflexivity. Qed.

Lemma grows_refl w : grows w w.
Proof. split; [exists []; by rewrite app_nil_r | done]. Qed.

Lemma grows_trans w1 w2 w3 : grows w1 w2 → grows w2 w3 → grows w1 w3.
Proof.
  intros [[l1 Hq1] Hl1] [[l2 Hq2] Hl2]. split; [|auto].
  exists (l1 ++ l2). by rewrite Hq2, Hq1, app_assoc.
Qed.

Lemma schedule_step_grows dateKey currentTime w w' :
  schedule_step dateKey currentTime w w' → grows w w'.
Proof.
  intros (_ & _ & _ & [[Hq Hl]|(key & jb & _ & _ & _ & _ & Hq & Hl)]); rewrite ?Hl.
  - split; [exists []; by rewrite Hq, app_nil_r | by rewrite Hl].
  - split; [by exists [jb]|]. intros id Hid. rewrite Hl.
    destruct (decide (jobId jb = id)) as [<-|Hne];
      [apply lookup_insert_eq | by rewrite lookup_insert_ne].
Qed.

Lemma schedule_steps_grow dateKey currentTime w w' :
  rtc (schedule_step dateKey currentTime) w w' → grows w w'.
Proof.
  induction 1; [apply grows_refl|].
  eapply grows_trans; [by eapply schedule_step_grows | done].
Qed.

Lemma newJobs_grows w w1 w2 jb :
  grows w w1 → jb ∈ newJobs w1 w2 → (∃ l, queue w2 = queue w1 ++ l) → jb ∈ newJobs w w2.
Proof.
  intros [[l1 Hq1] _] Hjb [l2 Hq2]. unfold newJobs in *.
  rewrite Hq2, drop_app_length in Hjb.
  rewrite Hq2, Hq1, <- app_assoc, drop_app_length. set_solver.
Qed.

Lemma newJobs_grows_l w w1 w2 jb :
  jb ∈ newJobs w w1 → grows w1 w2 → (∃ l, queue w1 = queue w ++ l) → jb ∈ newJobs w w2.
Proof.
  intros Hjb [[l2 Hq2] _] [l1 Hq1]. unfold newJobs in *.
  rewrite Hq1, drop_app_length in Hjb.
  rewrite Hq2, Hq1, <- app_assoc, drop_app_length. set_solver.
Qed.

(** A schedule check whose configuration read fails on both transports
    returns normally, enqueues nothing and leaves the ledger as it was:
    only the counters and the clock move. *)
Lemma failed_read_is_skipped (w : world) (e : schedEnv) :
  sdk_ok (kontrol_reply e) = false →
  rest_ok (kontrol_reply e) = false →
  (checkScheduledWatering e w).1 = Ok tt ∧
  queue (checkScheduledWatering e w).2 = queue w ∧
  lastScheduleCheck (checkScheduledWatering e w).2 = lastScheduleCheck w.
Proof.
  intros Hsdk Hrest. split; [apply checkScheduledWatering_ok|].
  rewrite checkScheduledWatering_unfold.
  pose proof (fetchKontrolSmart_result (kontrol_reply e) (upd_checkCounter (λ n, n + 1) w))
    as Hr.
  pose proof (fetchKontrolSmart_frame (kontrol_reply e) (upd_checkCounter (λ n, n + 1) w))
    as (_ & _ & Hl & _ & Hq & _).
  cbv zeta in Hl, Hq. rewrite Hsdk, Hrest in Hr.
  simpl_world_in Hl. simpl_world_in Hq.
  destruct (fetchKontrolSmart (kontrol_reply e) _) as [r w1]; cbn [fst snd] in *.
  destruct (SKIP_SDK_THRESHOLD <=? _); by subst r.
Qed.

(** C8.  The first half of the claim holds for every check, see
    [failed_read_is_skipped].  The second half does not: a check whose
    read succeeds writes its detail log before it matches (in every
    minute that is a multiple of five and on every third check), and
    the line of an entry is built with [potAktif.join], which throws when
    [pot_aktif] is no array.  The loop over the schedules guards that
    case with [Array.isArray] and skips the entry; the log does not, and
    its exception ends the check.  Here the store is unreachable at the
    first check of 08:00; at the next check the read succeeds and
    returns a configuration in which [jadwal_1] is due and [jadwal_2]
    holds an object under [pot_aktif]: the check returns normally but
    enqueues and marks nothing, although the matching, run on the same
    configuration and state, enqueues the job of [jadwal_1]. *)
Theorem malformed_entry_stops_matching_after_recovery :
  (checkScheduledWatering tick_0800_store_down (initial 0)).1 = Ok tt ∧
  queue after_failed_read = [] ∧
  (fetchKontrolSmart (kontrol_reply tick_0800_gap)
     (upd_checkCounter (λ n, n + 1) after_failed_read)).1 = Ok (Some jadwal_with_gap) ∧
  (∃ schedule,
     node_lookup (k_nodes jadwal_with_gap) "jadwal_1" = Some schedule ∧
     scheduleDue schedule (currentTimeOf (now tick_0800_gap)) = true ∧
     notFired (lastScheduleCheck after_failed_read)
       (jobKeyOf "jadwal_1" (dateKeyOf (now tick_0800_gap))
          (currentTimeOf (now tick_0800_gap))) = true) ∧
  (checkScheduledWatering tick_0800_gap after_failed_read).1 = Ok tt ∧
  queue (checkScheduledWatering tick_0800_gap after_failed_read).2 = [] ∧
  lastScheduleCheck (checkScheduledWatering tick_0800_gap after_failed_read).2
    !! "jadwal_1_2026-01-05_08_00" = None ∧
  (λ j, (jobId j, potNumbers (data j))) <$>
    queue (matchSchedules tick_0800_gap (Some jadwal_with_gap)
             (upd_checkCounter (λ n, n + 1) after_failed_read)).2
  = [("jadwal_1_2026-01-05_08_00", [1; 2; 3])].
Proof.
  split_and!; try (vm_compute; reflexivity).
  eexists. split_and!; [reflexivity | vm_compute; reflexivity..].
Qed.

(** ** Threshold evaluator *)

(** Which pots the loop over [potAktif] marks, and with which reading. *)
Lemma elem_of_potDetailsOf sd lwt t batasBawah batasAtas potAktif pot v :
  (pot, v) ∈ potDetailsOf sd lwt t batasBawah batasAtas potAktif ↔
  pot ∈ potAktif ∧ 1 ≤ pot ≤ 5 ∧
  v = parseIntOr0 (sd !! ("soil_" +:+ toString pot)) ∧
  v < batasAtas ∧ v < batasBawah ∧
  coolingDown (lwt !! ("pot_" +:+ toString pot)) t = false.
Proof.
  induction potAktif as [|p rest IH]; cbn [potDetailsOf].
  { split; [intros []%elem_of_nil | intros ([]%elem_of_nil & _)]. }
  cbv zeta.
  destruct (Z.ltb_spec p 1), (Z.ltb_spec 5 p); cbn [orb];
    try (rewrite IH, elem_of_cons; split;
         [intros (? & ?); split; [by right | done]
         |intros ([->|?] & ? & ?); [lia | done]]).
  destruct (Z.leb_spec batasAtas (parseIntOr0 (sd !! ("soil_" +:+ toString p)))).
  { rewrite IH, elem_of_cons. split;
      [intros (? & ?); split; [by right | done]
      |intros ([->|?] & ? & -> & ? & ?); [lia | done]]. }
  destruct (Z.ltb_spec (parseIntOr0 (sd !! ("soil_" +:+ toString p))) batasBawah).
  2: { rewrite IH, elem_of_cons. split;
         [intros (? & ?); split; [by right | done]
         |intros ([->|?] & ? & -> & ? & ? & ?); [lia | done]]. }
  destruct (coolingDown (lwt !! ("pot_" +:+ toString p)) t) eqn:Hcool.
  { rewrite IH, elem_of_cons. split;
      [intros (? & ?); split; [by right | done]
      |intros ([->|?] & ? & -> & ? & ? & ?); [congruence | done]]. }
  rewrite !elem_of_cons, IH. split.
  - intros [[= -> ->]|(? & ?)]; [split_and!; (done || lia || by left)|].
    split; [by right | done].
  - intros ([->|?] & ? & -> & ?); [by left | right; done].
Qed.

Lemma elem_of_potsNeedWatering sd lwt t batasBawah batasAtas potAktif pot :
  pot ∈ (potDetailsOf sd lwt t batasBawah batasAtas potAktif).*1 ↔
  pot ∈ potAktif ∧ 1 ≤ pot ≤ 5 ∧
  parseIntOr0 (sd !! ("soil_" +:+ toString pot)) < batasAtas ∧
  parseIntOr0 (sd !! ("soil_" +:+ toString pot)) < batasBawah ∧
  coolingDown (lwt !! ("pot_" +:+ toString pot)) t = false.
Proof.
  rewrite list_elem_of_fmap. split.
  - intros ([p v] & -> & H%elem_of_potDetailsOf). cbn. destruct H as (? & ? & -> & ?).
    done.
  - intros (? & ? & ? & ? & ?).
    exists (pot, parseIntOr0 (sd !! ("soil_" +:+ toString pot))).
    split; [done|]. by apply elem_of_potDetailsOf.
Qed.

Lemma stamp_lookup t pots (m : gmap string Z) k :
  stamp t pots m !! k = Some t ∨ stamp t pots m !! k = m !! k.
Proof.
  unfold stamp. revert m. induction pots as [|p pots IH]; intros m; cbn [foldl]; [by right|].
  destruct (IH (<["pot_" +:+ toString p := t]> m)) as [?|Heq]; [by left|].
  rewrite Heq. destruct (decide ("pot_" +:+ toString p = k)) as [->|?].
  - left. apply lookup_insert_eq.
  - right. by apply lookup_insert_ne.
Qed.

Lemma stamp_lookup_in t pots (m : gmap string Z) pot :
  pot ∈ pots → stamp t pots m !! ("pot_" +:+ toString pot) = Some t.
Proof.
  unfold stamp. revert m. induction pots as [|p pots IH]; intros m; cbn [foldl].
  { intros []%elem_of_nil. }
  intros [->|Hin]%elem_of_cons; [|by apply IH].
  destruct (stamp_lookup t pots (<["pot_" +:+ toString p := t]> m)
              ("pot_" +:+ toString p)) as [?|Heq]; [done|].
  unfold stamp in Heq. rewrite Heq. apply lookup_insert_eq.
Qed.

Lemma potsOf_orEmpty (v : potsValue) : potsOf (orEmpty v) = potsOf v.
Proof. by destruct v. Qed.

(** An entry that is absent, inactive, or has an array of pots none of
    which is to be watered: nothing happens. *)
Lemma checkThreshold_idle e sd k thresholdKey w :
  match node_lookup (k_nodes k) thresholdKey with
  | None => True
  | Some threshold =>
      default false (aktif threshold) = false ∨
      (isArray (orEmpty (pot_aktif threshold)) = true ∧
       potDetailsOf sd (lastWateringTime w) (clock w)
         (orElse (batas_bawah threshold) 30) (orElse (batas_atas threshold) 70)
         (potsOf (pot_aktif threshold)) = [])
  end →
  checkThreshold e sd k thresholdKey w = (Ok tt, w).
Proof.
  unfold checkThreshold.
  destruct (node_lookup (k_nodes k) thresholdKey) as [threshold|]; [|done].
  intros [Hoff|[Harr Hnone]]; [by rewrite Hoff|].
  destruct (negb (default _ _)); [done|].
  cbv zeta. rewrite Harr, potsOf_orEmpty. cbn [negb].
  cbv [mbind M_bind mret M_ret gets Date_now]. rewrite Hnone. done.
Qed.

(** An active entry whose [pot_aktif] cannot be iterated: the loop over
    the pots throws before anything is done. *)
Lemma checkThreshold_not_iterable e sd k thresholdKey threshold w :
  node_lookup (k_nodes k) thresholdKey = Some threshold →
  default false (aktif threshold) = true →
  isArray (orEmpty (pot_aktif threshold)) = false →
  checkThreshold e sd k thresholdKey w = (Throw "potAktif is not iterable", w).
Proof.
  intros Hnode Hactive Harr. unfold checkThreshold.
  rewrite Hnode, Hactive. cbv zeta. by rewrite Harr.
Qed.

Lemma potsOf_not_array (v : potsValue) : isArray (orEmpty v) = false → potsOf v = [].
Proof. by destruct v. Qed.

(** An active entry with pots to water: one [add]; if the queue takes
    it, the job is in the queue and the pots are stamped; if not, the
    error leaves the handler with nothing enqueued and nothing stamped. *)
Lemma checkThreshold_fires e sd k thresholdKey threshold w :
  node_lookup (k_nodes k) thresholdKey = Some threshold →
  default false (aktif threshold) = true →
  let potDetails :=
    potDetailsOf sd (lastWateringTime w) (clock w)
      (orElse (batas_bawah threshold) 30) (orElse (batas_atas threshold) 70)
      (potsOf (pot_aktif threshold)) in
  potDetails ≠ [] →
  let id := thresholdKey +:+ "-" +:+ toString (clock w) in
  let jb := mkJob thresholdKey (thresholdJobData thresholdKey id threshold potDetails)
              id (Some 1) (clock w) in
  checkThreshold e sd k thresholdKey w =
  if add_ok (queue_reply e id)
  then (Ok tt, after_threshold_job jb (add_latency (queue_reply e id)) w)
  else (Throw "queue add failed",
        upd_clock (λ t, t + Z.of_N (add_latency (queue_reply e id))) w).
Proof.
  intros Hnode Hactive. cbv zeta. intros Hsome.
  unfold checkThreshold. rewrite Hnode, Hactive. cbn [negb]. cbv zeta.
  destruct (isArray (orEmpty (pot_aktif threshold))) eqn:Harr; cbn [negb].
  2: { apply potsOf_not_array in Harr. rewrite Harr in Hsome.
       by destruct (lastWateringTime w). }
  rewrite potsOf_orEmpty.
  cbv [mbind M_bind mret M_ret gets Date_now].
  destruct (potDetailsOf _ _ _ _ _ _) as [|d ds] eqn:Hd; [done|].
  cbn [fmap list_fmap length Nat.ltb Nat.leb].
  unfold wateringQueue_add. cbv [mbind M_bind mret M_ret gets Date_now await modify throw].
  destruct (add_ok _); [|done].
  rewrite for_of_stamp by done. unfold after_threshold_job. by destruct w.
Qed.

Lemma newJobs_after_threshold_job jb lat w :
  newJobs w (after_threshold_job jb lat w) = [jb].
Proof.
  unfold newJobs, after_threshold_job. simpl_world. by rewrite drop_app_length.
Qed.

Lemma newJobs_same w w' : queue w' = queue w → newJobs w w' = [].
Proof. unfold newJobs. intros ->. apply drop_all. Qed.

(** C5.  For an active entry with effective bounds [batasBawah]
    ([batas_bawah || 30]) and [batasAtas] ([batas_atas || 70]): a pot
    whose reading is at or above [batasAtas] is not marked and is in no
    job that this evaluation of the entry adds to the queue, whatever its
    relation to [batasBawah]; and every pot that is marked is one of the
    entry's pots 1..5 whose reading is strictly below [batasBawah] and
    that is not cooling down. *)
Theorem wet_pots_are_skipped (e : sensorEnv) (sd : gmap string reading) (k : kontrol)
  (thresholdKey : string) (threshold : entry) (w : world) (pot : Z) :
  node_lookup (k_nodes k) thresholdKey = Some threshold →
  default false (aktif threshold) = true →
  let batasBawah := orElse (batas_bawah threshold) 30 in
  let batasAtas := orElse (batas_atas threshold) 70 in
  let soilValue := parseIntOr0 (sd !! ("soil_" +:+ toString pot)) in
  let potsNeedWatering :=
    (potDetailsOf sd (lastWateringTime w) (clock w) batasBawah batasAtas
       (potsOf (pot_aktif threshold))).*1 in
  let w' := (checkThreshold e sd k thresholdKey w).2 in
  (batasAtas ≤ soilValue →
   (pot ∉ potsNeedWatering) ∧
   ∀ jb, jb ∈ newJobs w w' → pot ∉ potNumbers (data jb)) ∧
  (pot ∈ potsNeedWatering →
   pot ∈ potsOf (pot_aktif threshold) ∧ 1 ≤ pot ≤ 5 ∧
   soilValue < batasBawah ∧
   coolingDown (lastWateringTime w !! ("pot_" +:+ toString pot)) (clock w) = false) ∧
  (∀ jb, jb ∈ newJobs w w' → potNumbers (data jb) = potsNeedWatering).
Proof.
  intros Hnode Hactive. cbv zeta.
  assert (∀ jb, jb ∈ newJobs w (checkThreshold e sd k thresholdKey w).2 →
          potNumbers (data jb)
          = (potDetailsOf sd (lastWateringTime w) (clock w)
               (orElse (batas_bawah threshold) 30) (orElse (batas_atas threshold) 70)
               (potsOf (pot_aktif threshold))).*1) as Hnew.
  { destruct (potDetailsOf sd (lastWateringTime w) (clock w) _ _ _) as [|d ds] eqn:Hd.
    - destruct (isArray (orEmpty (pot_aktif threshold))) eqn:Harr;
        [rewrite checkThreshold_idle by (rewrite Hnode, Hd; by right)
        |rewrite (checkThreshold_not_iterable e sd k thresholdKey threshold w
                    Hnode Hactive Harr)];
        rewrite newJobs_same by done; intros jb []%elem_of_nil.
    - rewrite (checkThreshold_fires e sd k thresholdKey threshold w Hnode Hactive)
        by (rewrite Hd; done).
      destruct (add_ok _); cbn [snd].
      + rewrite newJobs_after_threshold_job, Hd.
        by intros jb ->%list_elem_of_singleton.
      + rewrite newJobs_same by done. intros jb []%elem_of_nil. }
  split_and!.
  - intros Hwet.
    assert (pot ∉ (potDetailsOf sd (lastWateringTime w) (clock w)
                     (orElse (batas_bawah threshold) 30) (orElse (batas_atas threshold) 70)
                     (potsOf (pot_aktif threshold))).*1) as Hnot.
    { rewrite elem_of_potsNeedWatering. intros (_ & _ & ? & _). lia. }
    split; [done|]. intros jb Hjb. by rewrite (Hnew jb Hjb).
  - rewrite elem_of_potsNeedWatering. tauto.
  - exact Hnew.
Qed.

Lemma wet_pots_are_skipped_witness :
  2 ∉ (potDetailsOf pot2_wet ∅ 1000 30 70 [1; 2]).*1.
Proof.
  pose proof (wet_pots_are_skipped (sensor_tick pot2_wet) pot2_wet kontrol_threshold
                "threshold_1" threshold_30_70 (initial 1000) 2 eq_refl eq_refl)
    as [Hwet _].
  cbv zeta in Hwet. apply Hwet. vm_compute. discriminate.
Defined.

(** C5 as stated fails for an entry whose lower bound is 0: the bound
    the evaluator compares with is [batas_bawah || 30], so pot 1 at 10%
    is marked and watered although 10 is not below the entry's lower
    bound. *)
Lemma pot_above_a_zero_lower_bound_is_watered :
  node_lookup (k_nodes kontrol_zero_bound) "threshold_1" = Some threshold_0_70 ∧
  batas_bawah threshold_0_70 = Some 0 ∧
  parseIntOr0 (pot1_at_10 !! ("soil_" +:+ toString 1)) = 10 ∧
  ¬ (10 < 0) ∧
  (λ j, potNumbers (data j)) <$>
    newJobs (initial 1000)
      (checkThreshold (sensor_tick pot1_at_10) pot1_at_10 kontrol_zero_bound
         "threshold_1" (initial 1000)).2
  = [[1]].
Proof.
  split_and!; [reflexivity | reflexivity | vm_compute; reflexivity | lia
              | vm_compute; reflexivity].
Qed.

Lemma checkThreshold_enqueues e sd k thresholdKey threshold w :
  node_lookup (k_nodes k) thresholdKey = Some threshold →
  default false (aktif threshold) = true →
  let potsNeedWatering :=
    (potDetailsOf sd (lastWateringTime w) (clock w)
       (orElse (batas_bawah threshold) 30) (orElse (batas_atas threshold) 70)
       (potsOf (pot_aktif threshold))).*1 in
  potsNeedWatering ≠ [] →
  add_ok (queue_reply e (thresholdKey +:+ "-" +:+ toString (clock w))) = true →
  ∃ jb, newJobs w (checkThreshold e sd k thresholdKey w).2 = [jb] ∧
        potNumbers (data jb) = potsNeedWatering.
Proof.
  intros Hnode Hactive. cbv zeta. intros Hsome Hadd.
  rewrite (checkThreshold_fires e sd k thresholdKey threshold w Hnode Hactive)
    by (intros Hnil; by rewrite Hnil in Hsome).
  rewrite Hadd. cbn [snd]. rewrite newJobs_after_threshold_job. by eexists.
Qed.

(** C6.  When an active entry has at least one pot that needs water
    and the queue accepts the job, the evaluation of that entry adds
    exactly one job to the queue.  Its [potNumbers] are all the pots of
    the entry that need water, in the order of [pot_aktif]; it carries
    the entry's smart-mode flag, both effective bounds and the effective
    duration.  Whatever the queue answers, the evaluation of one entry
    never adds more than one job. *)
Theorem one_job_per_threshold_entry (e : sensorEnv) (sd : gmap string reading) (k : kontrol)
  (thresholdKey : string) (threshold : entry) (w : world) :
  node_lookup (k_nodes k) thresholdKey = Some threshold →
  default false (aktif threshold) = true →
  let batasBawah := orElse (batas_bawah threshold) 30 in
  let batasAtas := orElse (batas_atas threshold) 70 in
  let potDetails :=
    potDetailsOf sd (lastWateringTime w) (clock w) batasBawah batasAtas
      (potsOf (pot_aktif threshold)) in
  let potsNeedWatering := potDetails.*1 in
  let out := checkThreshold e sd k thresholdKey w in
  potsNeedWatering ≠ [] →
  (length (newJobs w out.2) ≤ 1)%nat ∧
  (add_ok (queue_reply e (thresholdKey +:+ "-" +:+ toString (clock w))) = true →
   out.1 = Ok tt ∧
   ∃ jb,
     newJobs w out.2 = [jb] ∧
     name jb = thresholdKey ∧
     type (data jb) = "sensor_threshold" ∧
     potNumbers (data jb) = potsNeedWatering ∧
     (∀ pot, pot ∈ potNumbers (data jb) ↔
             pot ∈ potsOf (pot_aktif threshold) ∧ 1 ≤ pot ≤ 5 ∧
             parseIntOr0 (sd !! ("soil_" +:+ toString pot)) < batasAtas ∧
             parseIntOr0 (sd !! ("soil_" +:+ toString pot)) < batasBawah ∧
             coolingDown (lastWateringTime w !! ("pot_" +:+ toString pot)) (clock w)
               = false) ∧
     smartMode (data jb) = isTrue (smart_mode threshold) ∧
     sensorData (data jb)
       = Some {| batasBawah := batasBawah;
                 batasAtas := batasAtas;
                 mode := if isTrue (smart_mode threshold) then "smart" else "fixed";
                 potValues := potDetails |} ∧
     duration (data jb) = orElse (durasi threshold) 600 ∧
     pompaAir (data jb) = isTrue (pompa_air threshold) ∧
     pompaPupuk (data jb) = isTrue (pompa_pupuk threshold)).
Proof.
  intros Hnode Hactive. cbv zeta. intros Hsome.
  rewrite (checkThreshold_fires e sd k thresholdKey threshold w Hnode Hactive)
    by (intros Hnil; by rewrite Hnil in Hsome).
  destruct (add_ok _); cbn [fst snd].
  - rewrite newJobs_after_threshold_job. split; [done|]. intros _. split; [done|].
    eexists. split; [done|]. cbn.
    split_and!; try done. intros pot. apply elem_of_potsNeedWatering.
  - rewrite newJobs_same by done. split; [cbn; lia | done].
Qed.

Lemma one_job_per_threshold_entry_witness :
  ∃ jb, newJobs (initial 1000)
          (checkThreshold (sensor_tick both_dry) both_dry kontrol_threshold
             "threshold_1" (initial 1000)).2 = [jb] ∧
        potNumbers (data jb) = [1; 2] ∧ smartMode (data jb) = true ∧
        duration (data jb) = 600.
Proof.
  destruct (one_job_per_threshold_entry (sensor_tick both_dry) both_dry kontrol_threshold
              "threshold_1" threshold_30_70 (initial 1000) eq_refl eq_refl)
    as [_ Hjob]; [vm_compute; discriminate|].
  destruct (Hjob eq_refl) as (_ & jb & Hnew & _ & _ & Hpots & _ & Hsmart & _ & Hdur & _).
  exists jb. split; [exact Hnew|]. split; [exact Hpots|]. split; [exact Hsmart | exact Hdur].
Defined.

(** C6 as stated fails for an entry whose lower bound is 0: the job
    does not carry that bound but the default that the evaluator
    compared with, [batas_bawah || 30]. *)
Lemma job_of_entry_with_zero_bound_carries_the_default :
  node_lookup (k_nodes kontrol_zero_bound) "threshold_1" = Some threshold_0_70 ∧
  batas_bawah threshold_0_70 = Some 0 ∧
  (λ j, batasBawah <$> sensorData (data j)) <$>
    newJobs (initial 1000)
      (checkThreshold (sensor_tick pot1_at_10) pot1_at_10 kontrol_zero_bound
         "threshold_1" (initial 1000)).2
  = [Some 30].
Proof.
  split_and!; [reflexivity | reflexivity | vm_compute; reflexivity].
Qed.

(** Which raw readings [parseInt] turns into [NaN]: a missing key,
    [null], a boolean, and a string that does not start (after white
    space and a sign) with a digit. *)
Lemma parseInt_NaN (v : option reading) :
  parseInt v = None ↔
  v = None ∨ v = Some RNull ∨ (∃ b, v = Some (RBool b)) ∨
  (∃ s, v = Some (RStr s) ∧ parseInt_string s = None).
Proof.
  destruct v as [[z|s|b|]|]; cbn [parseInt]; split; intros H;
    try done; try (destruct H as [H|[H|[[? H]|(? & H & ?)]]]; congruence); eauto 10.
Qed.

(** C10.  A pot of an active entry whose raw reading is missing or is
    not a number is read as 0.  With a positive lower bound, and an
    upper bound above 0 as every entry with lowerBound < upperBound has,
    the pot is marked as needing water unless it is cooling down, and is
    one of the pots of the job that the entry's evaluation adds to the
    queue when the queue accepts it. *)
Theorem unreadable_sensor_counts_as_dry (e : sensorEnv) (sd : gmap string reading)
  (k : kontrol) (thresholdKey : string) (threshold : entry) (w : world) (pot : Z) :
  node_lookup (k_nodes k) thresholdKey = Some threshold →
  default false (aktif threshold) = true →
  pot ∈ potsOf (pot_aktif threshold) →
  1 ≤ pot ≤ 5 →
  parseInt (sd !! ("soil_" +:+ toString pot)) = None →
  0 < orElse (batas_bawah threshold) 30 →
  0 < orElse (batas_atas threshold) 70 →
  coolingDown (lastWateringTime w !! ("pot_" +:+ toString pot)) (clock w) = false →
  let out := checkThreshold e sd k thresholdKey w in
  parseIntOr0 (sd !! ("soil_" +:+ toString pot)) = 0 ∧
  pot ∈ (potDetailsOf sd (lastWateringTime w) (clock w)
           (orElse (batas_bawah threshold) 30) (orElse (batas_atas threshold) 70)
           (potsOf (pot_aktif threshold))).*1 ∧
  (add_ok (queue_reply e (thresholdKey +:+ "-" +:+ toString (clock w))) = true →
   ∃ jb, newJobs w out.2 = [jb] ∧ pot ∈ potNumbers (data jb)).
Proof.
  intros Hnode Hactive Hpot Hrange Hnan Hlo Hhi Hcool. cbv zeta.
  assert (parseIntOr0 (sd !! ("soil_" +:+ toString pot)) = 0) as Hzero
    by (unfold parseIntOr0; by rewrite Hnan).
  assert (pot ∈ (potDetailsOf sd (lastWateringTime w) (clock w)
                   (orElse (batas_bawah threshold) 30) (orElse (batas_atas threshold) 70)
                   (potsOf (pot_aktif threshold))).*1) as Hin.
  { apply elem_of_potsNeedWatering. rewrite Hzero. done. }
  split_and!; [done | done |]. intros Hadd.
  destruct (checkThreshold_enqueues e sd k thresholdKey threshold w Hnode Hactive)
    as (jb & Hnew & Hpots); [by intros Hnil; rewrite Hnil in Hin; apply elem_of_nil in Hin
                            | done |].
  exists jb. split; [done|]. by rewrite Hpots.
Qed.

Lemma unreadable_sensor_counts_as_dry_witness :
  parseInt (pot1_unreadable !! "soil_1") = None ∧
  1 ∈ (potDetailsOf pot1_unreadable ∅ 1000 30 70 [1; 2]).*1.
Proof.
  split; [reflexivity|].
  refine (proj1 (proj2 (unreadable_sensor_counts_as_dry (sensor_tick pot1_unreadable)
            pot1_unreadable kontrol_threshold "threshold_1" threshold_30_70
            (initial 1000) 1 eq_refl eq_refl _ _ eq_refl _ _ eq_refl))).
  - apply list_elem_of_In. left. reflexivity.
  - lia.
  - reflexivity.
  - reflexivity.
Defined.

(** ** The cooldown invariant *)

Section Keeps.
Context (I : world → Prop).

Lemma keeps_ret {A} (a : A) : keeps I (mret a).
Proof. by intros w Hw. Qed.



Lemma keeps_bind {A B} (m : M A) (k : A → M B) :
  keeps I m → (∀ a, keeps I (k a)) → keeps I (m ≫= k).
Proof.
  intros Hm Hk w Hw. specialize (Hm w Hw). cbv [mbind M_bind].
  destruct (m w) as [[a|message] w1]; [by apply Hk | done].
Qed.

Lemma keeps_try_catch {A} (body : M A) (handler : string → M A) :
  keeps I body → (∀ message, keeps I (handler message)) → keeps I (try_catch body handler).
Proof.
  intros Hm Hh w Hw. specialize (Hm w Hw). unfold try_catch.
  destruct (body w) as [[a|message] w1]; [done | by apply Hh].
Qed.

Lemma keeps_for_of {A} (l : list A) (body : A → M unit) :
  (∀ x, keeps I (body x)) → keeps I (for_of l body).
Proof.
  intros Hbody. induction l as [|x l IH]; [apply keeps_ret|].
  cbn [for_of]. apply keeps_bind; [apply Hbody | intros _; exact IH].
Qed.
End Keeps.
















(** *** Overlapping sensor checks *)

(** The split of the loop body at its [await] is the loop body. *)
Lemma checkThreshold_split e sd k thresholdKey w :
  checkThreshold e sd k thresholdKey w =
  (pending ← evalThreshold sd k thresholdKey;
   match pending with
   | None => mret tt
   | Some pending => finishThreshold e thresholdKey pending
   end) w.
Proof.
  unfold checkThreshold, evalThreshold, finishThreshold, wateringQueue_add, add_settles.
  destruct (node_lookup (k_nodes k) thresholdKey) as [threshold|]; [|done].
  destruct (negb (default false (aktif threshold))); [done|]. cbv zeta.
  destruct (negb (isArray (orEmpty (pot_aktif threshold)))); [done|].
  cbv [mbind M_bind mret M_ret gets Date_now].
  destruct (0 <? length _)%nat; done.
Qed.

Lemma evalThreshold_world sd k thresholdKey w : (evalThreshold sd k thresholdKey w).2 = w.
Proof.
  unfold evalThreshold.
  destruct (node_lookup (k_nodes k) thresholdKey) as [threshold|]; [|done].
  destruct (negb (default false (aktif threshold))); [done|]. cbv zeta.
  destruct (negb (isArray (orEmpty (pot_aktif threshold)))); [done|].
  cbv [mbind M_bind mret M_ret gets Date_now].
  destruct (0 <? length _)%nat; done.
Qed.

Lemma alone_S n t w :
  alone (S n) t w = alone n (resume t w).1 (resume t w).2.
Proof. unfold alone. cbn. by destruct (resume t w). Qed.

Lemma bind_apply {A B} (m : M A) (f : A → M B) w :
  (m ≫= f) w =
  match m w with
  | (Ok a, w') => f a w'
  | (Throw message, w') => (Throw message, w')
  end.
Proof. reflexivity. Qed.

Lemma resume_bind {A} (m : M A) (f : A → M thread) w :
  resume (Suspended (m ≫= f)) w =
  match m w with
  | (Ok a, w') => resume (Suspended (f a)) w'
  | (Throw _, w') => (Finished, w')
  end.
Proof. cbn [resume]. cbv [mbind M_bind]. by destruct (m w) as [[a|message] w']. Qed.

(** A loop over the thresholds that nothing else interrupts is the loop
    of the handler. *)
Lemma thresholds_thread_alone e sd k allThresholds w :
  ∃ n, alone n (resume (Suspended (thresholds_thread e sd k allThresholds)) w).1
               (resume (Suspended (thresholds_thread e sd k allThresholds)) w).2
       = ([Finished], (for_of allThresholds (checkThreshold e sd k) w).2).
Proof.
  revert w. induction allThresholds as [|thresholdKey rest IH]; intros w.
  { by exists 0%nat. }
  cbn [thresholds_thread for_of]. rewrite resume_bind, bind_apply.
  rewrite checkThreshold_split, bind_apply.
  destruct (evalThreshold sd k thresholdKey w) as [[[pending|]|message] w1].
  - cbn [resume]. cbv [mret M_ret]. cbn [fst snd].
    destruct (finishThreshold e thresholdKey pending w1) as [[[]|message] w2] eqn:Hfinish.
    + destruct (IH w2) as [n Hn]. exists (S n).
      rewrite alone_S, resume_bind, Hfinish. exact Hn.
    + exists 1%nat. rewrite alone_S, resume_bind, Hfinish. reflexivity.
  - apply IH.
  - by exists 0%nat.
Qed.

(** A sensor check that nothing else interrupts is the handler. *)
Lemma sensorCheck_thread_alone e w :
  ∃ n, alone n (sensorCheck_thread e) w = ([Finished], (checkSensorThresholds e w).2).
Proof.
  unfold checkSensorThresholds, sensorCheck_thread. cbv [try_catch].
  rewrite bind_apply.
  destruct (readFirebaseSmart "data" (data_reply e) w) as [[[sd|]|message] w1] eqn:Hread.
  2: { exists 1%nat. rewrite alone_S, resume_bind, Hread. done. }
  2: { exists 1%nat. rewrite alone_S, resume_bind, Hread. done. }
  rewrite bind_apply.
  destruct (fetchKontrolSmart (config_reply e) w1) as [[[k|]|message] w2] eqn:Hfetch.
  2: { exists 2%nat. rewrite alone_S, resume_bind, Hread. cbn [resume mret M_ret fst snd].
       rewrite alone_S, resume_bind, Hfetch. done. }
  2: { exists 2%nat. rewrite alone_S, resume_bind, Hread. cbn [resume mret M_ret fst snd].
       rewrite alone_S, resume_bind, Hfetch. done. }
  destruct (negb (k_otomatis k)) eqn:Hmode.
  { exists 2%nat. rewrite alone_S, resume_bind, Hread. cbn [resume mret M_ret fst snd].
    rewrite alone_S, resume_bind, Hfetch, Hmode. done. }
  cbv zeta.
  destruct (length (List.filter (λ key, startsWith key "threshold_") (keys k)) =? 0)%nat
    eqn:Hnone.
  { exists 2%nat. rewrite alone_S, resume_bind, Hread. cbn [resume mret M_ret fst snd].
    rewrite alone_S, resume_bind, Hfetch, Hmode. cbv zeta. rewrite Hnone. done. }
  destruct (thresholds_thread_alone e sd k
              (List.filter (λ key, startsWith key "threshold_") (keys k)) w2) as [n Hn].
  exists (S (S n)). rewrite alone_S, resume_bind, Hread. cbn [resume mret M_ret fst snd].
  rewrite alone_S, resume_bind, Hfetch, Hmode. cbv zeta. rewrite Hnone.
  rewrite Hn.
  by destruct (for_of _ (checkThreshold e sd k) w2) as [[[]|message] w3].
Qed.





(** * Further properties of the worker *)

(** ** State client: when a call succeeds *)

Lemma landed_iff {A} (w : world) (r : reply A) :
  landed w r = true ↔
  rest_ok r = true ∨ (consecutiveFirebaseErrors w < SKIP_SDK_THRESHOLD ∧ sdk_ok r = true).
Proof.
  unfold landed.
  destruct (Z.leb_spec SKIP_SDK_THRESHOLD (consecutiveFirebaseErrors w)),
    (sdk_ok r), (rest_ok r); cbn; split; intros; try done; auto; try lia;
    destruct_or?; destruct_and?; (done || lia).
Qed.

Lemma setFirebaseSmart_result path r w :
  if landed w r then (setFirebaseSmart path r w).1 = Ok true
  else ∃ message, (setFirebaseSmart path r w).1 = Throw message.
Proof. unfold setFirebaseSmart, landed. run_M; (done || by eexists). Qed.

(** X1.  Every operation of the state client succeeds exactly when a
    transport it is allowed to use works: the REST call, or the SDK call
    while the SDK is not skipped.  A successful read or fetch returns the
    document of the answer, a successful write returns [true]; otherwise
    the operation throws. *)
Theorem store_call_succeeds_iff_a_usable_transport_works (w : world) :
  (∀ A (r : reply A),
     landed w r = true ↔
     rest_ok r = true ∨ (consecutiveFirebaseErrors w < 3 ∧ sdk_ok r = true)) ∧
  (∀ r, if landed w r then (fetchKontrolSmart r w).1 = Ok (payload r)
        else ∃ message, (fetchKontrolSmart r w).1 = Throw message) ∧
  (∀ A path (r : reply A),
     if landed w r then (readFirebaseSmart path r w).1 = Ok (payload r)
     else ∃ message, (readFirebaseSmart path r w).1 = Throw message) ∧
  (∀ path updates r,
     if landed w r then (updateFirebaseSmart path updates r w).1 = Ok true
     else ∃ message, (updateFirebaseSmart path updates r w).1 = Throw message) ∧
  (∀ path r,
     if landed w r then (setFirebaseSmart path r w).1 = Ok true
     else ∃ message, (setFirebaseSmart path r w).1 = Throw message).
Proof.
  split_and!.
  - intros A r. apply landed_iff.
  - intros r. rewrite fetchKontrolSmart_result. unfold landed.
    destruct (_ <=? _), (sdk_ok r), (rest_ok r); cbn; (done || by eexists).
  - intros A path r. destruct (readFirebaseSmart_spec path r w) as [Hr _].
    rewrite Hr. destruct (landed w r); (done || by eexists).
  - intros path updates r. apply updateFirebaseSmart_spec.
  - intros path r. apply setFirebaseSmart_result.
Qed.

(** ** Watering executor: outcome, cooldown stamps, fixed wait *)

(** X4.  A job completes exactly when its on-write and its off-write get
    through.  Nothing else can make it fail: not a sensor read that
    fails during the monitoring loop, not a history record that cannot be
    written. *)
Theorem job_completes_iff_both_writes_get_through (jb : job) (e : jobEnv) (w : world) :
  ((wateringWorker jb e w).1
     = Ok (mkJobResult true (duration (data jb)) (potNumbers (data jb))) ↔
   landed w (on_reply e) = true ∧ landed w (off_reply e) = true) ∧
  ((∃ message, (wateringWorker jb e w).1 = Throw message) ↔
   landed w (on_reply e) = false ∨ landed w (off_reply e) = false).
Proof.
  pose proof (wateringWorker_spec jb e w) as H. cbv zeta in H.
  destruct (landed w (on_reply e)), (landed w (off_reply e)); cbn [andb] in H.
  1: destruct H as (Hr & _); rewrite Hr.
  2-4: destruct H as ([message Hm] & _); rewrite Hm.
  all: split; split; try done.
  all: try (intros [? ?]; discriminate).
  all: try (intros [?|?]; discriminate).
  all: try (intros _; by eexists).
  all: intros _; (by left) || (by right).
Qed.

(** What a job does to the module-level state: it never touches the
    queue or the trigger ledger; when it completes, every pot of the job
    is stamped in [lastWateringTime] with the time at which the job
    ended; when it fails, [lastWateringTime] is as before. *)
Lemma wateringWorker_state jb e w :
  let out := wateringWorker jb e w in
  queue out.2 = queue w ∧
  lastScheduleCheck out.2 = lastScheduleCheck w ∧
  clock w ≤ clock out.2 ∧
  lastWateringTime out.2
    = if landed w (on_reply e) && landed w (off_reply e)
      then stamp (clock out.2) (potNumbers (data jb)) (lastWateringTime w)
      else lastWateringTime w.
Proof.
  cbv zeta. unfold wateringWorker.
  cbv [mbind M_bind mret M_ret try_catch throw Date_now gets].
  pose proof (updateFirebaseSmart_spec "aktuator" (onUpdates (data jb)) (on_reply e) w)
    as (Hr1 & _ & _ & Hc1 & Hce1 & _ & Hl1 & Hs1 & Hq1).
  cbv zeta in Hr1, Hc1, Hce1, Hl1, Hs1, Hq1.
  destruct (updateFirebaseSmart "aktuator" (onUpdates (data jb)) (on_reply e) w)
    as [r1 w1]; cbn [fst snd] in *.
  set (wait := match (if smartMode (data jb) then _ else None) with
               | Some _ => _
               | None => _
               end).
  assert (Hwait : ∃ w2, wait w1 = (Ok tt, w2) ∧ only_time_passes w1 w2).
  { subst wait. destruct (if smartMode (data jb) then _ else _) as [targetSoil|].
    - pose proof (smartLoop_spec (iteration e) targetSoil (potNumbers (data jb))
                    (clock w1) (duration (data jb) * 1000) 0 w1) as [(b & Hb & _) Hw].
      cbv zeta in Hb, Hw.
      destruct (smartLoop _ _ _ _ _ _ _) as [rr w2]; cbn [fst snd] in *.
      subst rr. by exists w2.
    - pose proof (fixedLoop_spec (iteration e)
                    (clock w1 + duration (data jb) * 1000) 0 w1) as (Hb & _ & Hw).
      cbv zeta in Hb, Hw.
      destruct (fixedLoop _ _ _ _) as [rr w2]; cbn [fst snd] in *.
      subst rr. by exists w2. }
  destruct Hwait as (w2 & Hwait & Hw2).
  destruct Hw2 as (Hc2 & Hce2 & _ & Hl2 & Hs2 & _ & Hq2 & _).
  assert (Hsafety : ∀ w3,
    let out := updateFirebaseSmart "aktuator" allOff (safety_reply e) w3 in
    queue out.2 = queue w3 ∧ lastScheduleCheck out.2 = lastScheduleCheck w3 ∧
    clock w3 ≤ clock out.2 ∧ lastWateringTime out.2 = lastWateringTime w3).
  { intros w3.
    pose proof (updateFirebaseSmart_spec "aktuator" allOff (safety_reply e) w3)
      as (_ & _ & _ & ? & _ & _ & ? & ? & ?). done. }
  destruct (landed w (on_reply e)); cbn [andb].
  - subst r1. rewrite Hwait.
    pose proof (updateFirebaseSmart_spec "aktuator" (offUpdates (onUpdates (data jb)))
                  (off_reply e) w2) as (Hr3 & _ & _ & Hc3 & _ & _ & Hl3 & Hs3 & Hq3).
    cbv zeta in Hr3, Hc3, Hl3, Hs3, Hq3.
    replace (landed w2 (off_reply e)) with (landed w (off_reply e)) in Hr3
      by (unfold landed; by rewrite Hce2, Hce1).
    destruct (updateFirebaseSmart "aktuator" (offUpdates (onUpdates (data jb)))
                (off_reply e) w2) as [r3 w3]; cbn [fst snd] in *.
    destruct (landed w (off_reply e)).
    + subst r3.
      pose proof (logHistory_spec (type (data jb)) (potNumbers (data jb))
                    (duration (data jb)) (history_read e) (history_set e) w3)
        as [Hr4 Hw4].
      destruct (logHistory _ _ _ _ _ w3) as [r4 w4]; cbn [fst snd] in *.
      subst r4. rewrite for_of_stamp by done. simpl_world.
      destruct Hw4 as (Hc4 & _ & _ & Hl4 & Hs4 & _ & Hq4 & _).
      split_and!; [congruence | congruence | lia | congruence].
    + destruct Hr3 as [message ->].
      destruct (Hsafety w3) as (Hq4 & Hs4 & Hc4 & Hl4).
      destruct (updateFirebaseSmart "aktuator" allOff (safety_reply e) w3)
        as [[b|m] w4]; cbn [fst snd] in *.
      all: split_and!; [congruence | congruence | lia | congruence].
  - destruct Hr1 as [message ->].
    destruct (Hsafety w1) as (Hq4 & Hs4 & Hc4 & Hl4).
    destruct (updateFirebaseSmart "aktuator" allOff (safety_reply e) w1)
      as [[b|m] w4]; cbn [fst snd] in *.
    all: split_and!; [congruence | congruence | lia | congruence].
Qed.

Lemma stamp_lookup_other t pots (m : gmap string Z) k :
  (∀ pot, pot ∈ pots → k ≠ "pot_" +:+ toString pot) →
  stamp t pots m !! k = m !! k.
Proof.
  unfold stamp. revert m. induction pots as [|p pots IH]; intros m Hk; cbn [foldl]; [done|].
  rewrite IH by (intros pot Hpot; apply Hk; by apply list_elem_of_further).
  apply lookup_insert_ne. intros Heq. by apply (Hk p); [apply list_elem_of_here|].
Qed.

(** X5.  A job never enqueues anything and never touches the trigger
    ledger.  When it completes, every pot of the job, whatever its
    number, has the time at which the job ended as its last watering
    time, and the entry of every key that is not [pot_N] for a pot [N]
    of the job is as it was; when it fails, no last watering time
    changes. *)
Theorem job_stamps_its_pots_only_on_success (jb : job) (e : jobEnv) (w : world) :
  let out := wateringWorker jb e w in
  queue out.2 = queue w ∧
  lastScheduleCheck out.2 = lastScheduleCheck w ∧
  (∀ res, out.1 = Ok res →
     (∀ pot, pot ∈ potNumbers (data jb) →
             lastWateringTime out.2 !! ("pot_" +:+ toString pot) = Some (clock out.2)) ∧
     (∀ k, (∀ pot, pot ∈ potNumbers (data jb) → k ≠ "pot_" +:+ toString pot) →
           lastWateringTime out.2 !! k = lastWateringTime w !! k)) ∧
  (∀ message, out.1 = Throw message → lastWateringTime out.2 = lastWateringTime w).
Proof.
  cbv zeta.
  destruct (wateringWorker_state jb e w) as (Hq & Hs & _ & Hl). cbv zeta in Hl.
  pose proof (wateringWorker_spec jb e w) as H. cbv zeta in H.
  destruct (landed w (on_reply e) && landed w (off_reply e)).
  - destruct H as (Hr & _). split_and!; [done | done | | intros ?; congruence].
    intros res _. rewrite Hl. split.
    + intros pot Hpot. by apply stamp_lookup_in.
    + intros k Hk. by apply stamp_lookup_other.
  - destruct H as ([m Hm] & _). split_and!; [done | done | intros ?; congruence | done].
Qed.

(** X6.  The cooldown of the threshold evaluator also starts when a job ends:
    after a completed job, of whatever kind, none of its pots is marked
    by an evaluation made less than 120000 ms after the end of the job,
    however dry it reads. *)
Theorem completed_job_starts_cooldown (jb : job) (e : jobEnv) (w : world) (res : jobResult)
  (sd : gmap string reading) (t batasBawah batasAtas : Z) (potAktif : list Z) (pot : Z) :
  0 < clock w →
  (wateringWorker jb e w).1 = Ok res →
  pot ∈ potNumbers (data jb) →
  t - clock (wateringWorker jb e w).2 < sensorDebounce →
  pot ∉ (potDetailsOf sd (lastWateringTime (wateringWorker jb e w).2) t
           batasBawah batasAtas potAktif).*1.
Proof.
  intros Hpos Hres Hpot Hrecent.
  destruct (wateringWorker_state jb e w) as (_ & _ & Hc & Hl). cbv zeta in Hl.
  pose proof (wateringWorker_spec jb e w) as H. cbv zeta in H.
  destruct (landed w (on_reply e) && landed w (off_reply e));
    [|destruct H as ([m Hm] & _); congruence].
  rewrite elem_of_potsNeedWatering. intros (_ & _ & _ & _ & Hcool).
  rewrite Hl, (stamp_lookup_in _ _ _ _ Hpot) in Hcool. unfold coolingDown in Hcool.
  destruct (Z.eqb_spec (clock (wateringWorker jb e w).2) 0); [lia|].
  cbn [negb andb] in Hcool. apply Z.ltb_ge in Hcool. lia.
Qed.

Lemma fixedLoop_bounds its endTime i w :
  let out := fixedLoop its endTime i w in
  (endTime ≤ clock w → out = (Ok tt, w)) ∧
  (clock w < endTime →
   ∀ L, (∀ j, 1000 + Z.of_N (it_oversleep (its j)) ≤ L) → clock out.2 < endTime + L).
Proof.
  funelim (fixedLoop its endTime i w); cbv zeta; cbn [fst snd].
  - match goal with
    | IH : (_ → fixedLoop _ _ _ _ = _) ∧ _ |- _ => destruct IH as [IHdone IHrun]
    end.
    split; [lia|]. intros _ L HL.
    pose proof (sleep_spec 1000 (it_oversleep (its i)) w) as (_ & Hs & _).
    pose proof (HL i) as Hi.
    destruct (Z.le_gt_cases endTime (clock (sleep 1000 (it_oversleep (its i)) w).2))
      as [Hge|Hlt].
    + rewrite (IHdone Hge). cbn [snd]. lia.
    + by apply IHrun.
  - split; [done | lia].
Qed.

Lemma fixedLoop_exact its endTime i w :
  (∀ j, it_oversleep (its j) = 0%N) →
  (∃ n, 0 ≤ n ∧ endTime - clock w = 1000 * n) →
  clock (fixedLoop its endTime i w).2 = endTime.
Proof.
  intros Hexact.
  funelim (fixedLoop its endTime i w); cbn [fst snd]; intros (secs & Hsecs & Hrem).
  - match goal with
    | IH : _ → _ → clock _ = _ |- _ => apply IH; [done|]
    end.
    pose proof (sleep_spec 1000 (it_oversleep (its i)) w) as (_ & Hs & _).
    rewrite Hs, Hexact. exists (secs - 1). lia.
  - lia.
Qed.

(** X7.  The wait of a fixed-mode job of [duration] seconds, started at
    [startTime]: with a duration of 0 or less there is no wait at all;
    otherwise it lasts at least [duration * 1000] ms and less than one
    sleep longer, and exactly [duration * 1000] ms when the sleeps are
    exact.  Nothing but the clock changes during the wait. *)
Theorem fixed_wait_lasts_the_duration (its : nat → iterEnv) (duration : Z) (w : world) :
  let startTime := clock w in
  let endTime := startTime + duration * 1000 in
  let out := fixedLoop its endTime 0 w in
  out.1 = Ok tt ∧
  only_time_passes w out.2 ∧
  (duration ≤ 0 → out.2 = w) ∧
  (0 < duration →
   duration * 1000 ≤ clock out.2 - startTime ∧
   (∀ L, (∀ j, 1000 + Z.of_N (it_oversleep (its j)) ≤ L) →
         clock out.2 - startTime < duration * 1000 + L) ∧
   ((∀ j, it_oversleep (its j) = 0%N) → clock out.2 - startTime = duration * 1000)).
Proof.
  cbv zeta.
  destruct (fixedLoop_spec its (clock w + duration * 1000) 0 w) as (Hr & Hge & Hframe).
  destruct (fixedLoop_bounds its (clock w + duration * 1000) 0 w) as [Hdone Hrun].
  cbv zeta in *. split_and!; [done | done | |].
  - intros Hd. by rewrite Hdone by lia.
  - intros Hd. split_and!; [lia | |].
    + intros L HL. specialize (Hrun ltac:(lia) L HL). lia.
    + intros Hexact.
      rewrite (fixedLoop_exact its (clock w + duration * 1000) 0 w Hexact); [lia|].
      exists duration. lia.
Qed.

(** ** Schedule evaluator: when an entry fires, retries, the ledger *)

Lemma checkSchedule_eq e k currentTime dateKey scheduleKey w :
  checkSchedule e k currentTime dateKey scheduleKey w =
  match node_lookup (k_nodes k) scheduleKey with
  | None => (Ok tt, w)
  | Some schedule =>
      let jobKey := jobKeyOf scheduleKey dateKey currentTime in
      if scheduleDue schedule currentTime && notFired (lastScheduleCheck w) jobKey then
        if add_ok (add_reply e jobKey)
        then (Ok tt,
              after_schedule_job
                (mkJob scheduleKey (scheduleJobData scheduleKey jobKey schedule)
                   jobKey None (clock w))
                (add_latency (add_reply e jobKey)) w)
        else (Ok tt, upd_clock (λ t, t + Z.of_N (add_latency (add_reply e jobKey))) w)
      else (Ok tt, w)
  end.
Proof.
  unfold checkSchedule, scheduleDue, scheduleJobData.
  destruct (node_lookup (k_nodes k) scheduleKey) as [schedule|]; [|done].
  cbv zeta. destruct (notFalse (aktif schedule)); cbn [negb andb]; [|done].
  destruct (String.eqb (default "" (waktu schedule)) ""); cbn [negb andb orb]; [done|].
  destruct (String.eqb (default "" (waktu schedule)) currentTime); cbn [negb andb]; [|done].
  destruct (pot_aktif schedule) as [|l|];
    cbn [orEmpty isArray potsOf negb orb andb length Nat.eqb]; [done| |done].
  destruct (length l =? 0)%nat; cbn [negb andb]; [done|].
  unfold wateringQueue_add.
  cbv [mbind M_bind mret M_ret try_catch gets modify Date_now await throw].
  destruct (notFired (lastScheduleCheck w) _); [|done].
  destruct (add_ok _); [|done].
  unfold after_schedule_job. by destruct w.
Qed.

Lemma checkLegacy_eq e n waktu_n durasi_n currentTime dateKey w :
  checkLegacy e n waktu_n durasi_n currentTime dateKey w =
  let scheduleKey := jobKeyOf ("legacy_jadwal_" +:+ n) dateKey currentTime in
  if negb (String.eqb (default "" waktu_n) "") &&
     String.eqb (default "" waktu_n) currentTime &&
     notFired (lastScheduleCheck w) scheduleKey then
    if add_ok (add_reply e scheduleKey)
    then (Ok tt,
          after_schedule_job
            (mkJob ("schedule-" +:+ n) (legacyJobData n scheduleKey durasi_n)
               scheduleKey None (clock w))
            (add_latency (add_reply e scheduleKey)) w)
    else (Ok tt, upd_clock (λ t, t + Z.of_N (add_latency (add_reply e scheduleKey))) w)
  else (Ok tt, w).
Proof.
  unfold checkLegacy. cbv zeta.
  destruct (negb (String.eqb (default "" waktu_n) "") &&
            String.eqb (default "" waktu_n) currentTime); cbn [andb]; [|done].
  unfold wateringQueue_add.
  cbv [mbind M_bind mret M_ret try_catch gets modify Date_now await throw].
  destruct (notFired (lastScheduleCheck w) _); [|done].
  destruct (add_ok _); [|done].
  unfold after_schedule_job, legacyJobData. by destruct w.
Qed.

Lemma newJobs_after_schedule_job jb lat w : newJobs w (after_schedule_job jb lat w) = [jb].
Proof.
  unfold newJobs, after_schedule_job. simpl_world. by rewrite drop_app_length.
Qed.

(** X8.  The loop body of the schedule evaluator adds a job for an entry
    only if the entry is an object that is not switched off
    ([aktif] absent counts as on), whose time is the current time, that
    has at least one pot, and whose job key of this minute is not in the
    ledger; and it does add one whenever all that holds and the queue
    accepts it.  The job has the pots of the entry, the duration
    [durasi || 60], the water pump unless [pompa_air] is [false], the
    fertilizer pump only if [pompa_pupuk] is set, no smart mode, and
    the job key as its id, which is in the ledger afterwards. *)
Theorem schedule_entry_fires_exactly_when_due (e : schedEnv) (k : kontrol)
  (currentTime dateKey scheduleKey : string) (w : world) :
  let out := checkSchedule e k currentTime dateKey scheduleKey w in
  let jobKey := jobKeyOf scheduleKey dateKey currentTime in
  out.1 = Ok tt ∧
  (∀ jb, jb ∈ newJobs w out.2 →
     ∃ schedule,
       node_lookup (k_nodes k) scheduleKey = Some schedule ∧
       aktif schedule ≠ Some false ∧
       waktu schedule = Some currentTime ∧
       potNumbers (data jb) = potsOf (pot_aktif schedule) ∧
       potNumbers (data jb) ≠ [] ∧
       duration (data jb) = orElse (durasi schedule) 60 ∧
       pompaAir (data jb) = notFalse (pompa_air schedule) ∧
       pompaPupuk (data jb) = default false (pompa_pupuk schedule) ∧
       smartMode (data jb) = false ∧
       name jb = scheduleKey ∧ jobId jb = jobKey ∧
       lastScheduleCheck w !! jobKey ≠ Some true ∧
       lastScheduleCheck out.2 !! jobKey = Some true) ∧
  (∀ schedule,
     node_lookup (k_nodes k) scheduleKey = Some schedule →
     scheduleDue schedule currentTime = true →
     notFired (lastScheduleCheck w) jobKey = true →
     add_ok (add_reply e jobKey) = true →
     ∃ jb, newJobs w out.2 = [jb]).
Proof.
  cbv zeta. rewrite checkSchedule_eq.
  destruct (node_lookup (k_nodes k) scheduleKey) as [schedule|];
    [|cbn [fst snd]; rewrite newJobs_same by done;
      split_and!; [done | intros jb []%elem_of_nil | done]].
  cbv zeta.
  destruct (scheduleDue schedule currentTime) eqn:Hdue; cbn [andb].
  2: { cbn [fst snd]. rewrite newJobs_same by done.
       split_and!; [done | intros jb []%elem_of_nil | intros ? [= <-]; congruence]. }
  destruct (notFired (lastScheduleCheck w) _) eqn:Hfresh.
  2: { cbn [fst snd]. rewrite newJobs_same by done.
       split_and!; [done | intros jb []%elem_of_nil | intros ? _ _; done]. }
  destruct (add_ok _) eqn:Hadd; cbn [fst snd].
  2: { rewrite newJobs_same by done.
       split_and!; [done | intros jb []%elem_of_nil | intros ? _ _ _; done]. }
  rewrite newJobs_after_schedule_job. split_and!; [done | | by eexists].
  intros jb ->%list_elem_of_singleton. exists schedule.
  unfold scheduleDue in Hdue. repeat apply andb_prop in Hdue as [Hdue ?].
  cbn [data potNumbers duration pompaAir pompaPupuk smartMode name jobId scheduleJobData].
  split_and!; try done.
  - destruct (aktif schedule) as [[]|]; done.
  - destruct (waktu schedule) as [s|]; cbn in *; [|done].
    f_equal. by apply String.eqb_eq.
  - destruct (potsOf (pot_aktif schedule)); done.
  - unfold notFired in Hfresh. intros Heq. by rewrite Heq in Hfresh.
  - unfold after_schedule_job. simpl_world. apply lookup_insert_eq.
Qed.

(** X9.  When the queue refuses the job of a due entry, the error is caught,
    the job key is not put into the ledger, and nothing is enqueued; so
    the next check of the same minute that finds the queue working
    enqueues the job. *)
Theorem refused_schedule_job_is_retried (e1 e2 : schedEnv) (k : kontrol)
  (currentTime dateKey scheduleKey : string) (schedule : entry) (w : world) :
  node_lookup (k_nodes k) scheduleKey = Some schedule →
  scheduleDue schedule currentTime = true →
  notFired (lastScheduleCheck w) (jobKeyOf scheduleKey dateKey currentTime) = true →
  add_ok (add_reply e1 (jobKeyOf scheduleKey dateKey currentTime)) = false →
  add_ok (add_reply e2 (jobKeyOf scheduleKey dateKey currentTime)) = true →
  let out1 := checkSchedule e1 k currentTime dateKey scheduleKey w in
  let out2 := checkSchedule e2 k currentTime dateKey scheduleKey out1.2 in
  out1.1 = Ok tt ∧
  queue out1.2 = queue w ∧
  lastScheduleCheck out1.2 = lastScheduleCheck w ∧
  ∃ jb, queue out2.2 = queue w ++ [jb] ∧
        jobId jb = jobKeyOf scheduleKey dateKey currentTime ∧
        potNumbers (data jb) = potsOf (pot_aktif schedule).
Proof.
  intros Hnode Hdue Hfresh Hadd1 Hadd2. cbv zeta.
  rewrite (checkSchedule_eq e1), Hnode. cbv zeta. rewrite Hdue, Hfresh, Hadd1.
  cbn [andb fst snd]. split_and!; [done..|].
  rewrite (checkSchedule_eq e2), Hnode. cbv zeta. simpl_world.
  rewrite Hdue, Hfresh, Hadd2. cbn [andb snd].
  eexists. unfold after_schedule_job. simpl_world. done.
Qed.

(** X10.  The legacy slots: a slot whose time is set and equal to the current
    time, and whose key of this minute is not in the ledger, gets one
    job for all five pots with both pumps on and the duration
    [durasi_n || 60]; no other job is ever built for a slot. *)
Theorem legacy_slot_waters_all_pots (e : schedEnv) (n : string) (waktu_n : option string)
  (durasi_n : option Z) (currentTime dateKey : string) (w : world) :
  let out := checkLegacy e n waktu_n durasi_n currentTime dateKey w in
  let scheduleKey := jobKeyOf ("legacy_jadwal_" +:+ n) dateKey currentTime in
  out.1 = Ok tt ∧
  (∀ jb, jb ∈ newJobs w out.2 →
     waktu_n = Some currentTime ∧
     potNumbers (data jb) = [1; 2; 3; 4; 5] ∧
     pompaAir (data jb) = true ∧ pompaPupuk (data jb) = true ∧
     duration (data jb) = orElse durasi_n 60 ∧
     jobId jb = scheduleKey ∧
     lastScheduleCheck w !! scheduleKey ≠ Some true ∧
     lastScheduleCheck out.2 !! scheduleKey = Some true) ∧
  (waktu_n = Some currentTime → currentTime ≠ "" →
   notFired (lastScheduleCheck w) scheduleKey = true →
   add_ok (add_reply e scheduleKey) = true →
   ∃ jb, newJobs w out.2 = [jb]).
Proof.
  cbv zeta. rewrite checkLegacy_eq. cbv zeta.
  destruct (String.eqb (default "" waktu_n) "") eqn:Hset; cbn [negb andb].
  { cbn [fst snd]. rewrite newJobs_same by done.
    split_and!; [done | intros jb []%elem_of_nil |].
    intros -> Hne. cbn in Hset. apply String.eqb_eq in Hset. done. }
  destruct (String.eqb (default "" waktu_n) currentTime) eqn:Hnow; cbn [andb].
  2: { cbn [fst snd]. rewrite newJobs_same by done.
       split_and!; [done | intros jb []%elem_of_nil |].
       intros -> _. cbn in Hnow. by rewrite String.eqb_refl in Hnow. }
  destruct (notFired (lastScheduleCheck w) _) eqn:Hfresh.
  2: { cbn [fst snd]. rewrite newJobs_same by done.
       split_and!; [done | intros jb []%elem_of_nil | intros _ _; done]. }
  destruct (add_ok _) eqn:Hadd; cbn [fst snd].
  2: { rewrite newJobs_same by done.
       split_and!; [done | intros jb []%elem_of_nil | intros _ _ _; done]. }
  rewrite newJobs_after_schedule_job. split_and!; [done | | by eexists].
  intros jb ->%list_elem_of_singleton.
  cbn [data potNumbers duration pompaAir pompaPupuk jobId legacyJobData].
  split_and!; try done.
  - destruct waktu_n as [s|]; cbn in *; [|done]. f_equal. by apply String.eqb_eq.
  - unfold notFired in Hfresh. intros Heq. by rewrite Heq in Hfresh.
  - unfold after_schedule_job. simpl_world. apply lookup_insert_eq.
Qed.

Lemma length_append (s1 s2 : string) :
  String.length (s1 +:+ s2) = (String.length s1 + String.length s2)%nat.
Proof.
  induction s1 as [|c s1 IH]; [done|].
  change (String.length (String c s1 +:+ s2)) with (S (String.length (s1 +:+ s2))).
  by rewrite IH.
Qed.

Lemma append_cancel_r (s1 s2 s : string) : s1 +:+ s = s2 +:+ s → s1 = s2.
Proof.
  revert s2. induction s1 as [|c1 s1 IH]; intros [|c2 s2] Heq.
  - done.
  - apply (f_equal String.length) in Heq. rewrite !length_append in Heq. cbn in Heq. lia.
  - apply (f_equal String.length) in Heq. rewrite !length_append in Heq. cbn in Heq. lia.
  - change (String c1 (s1 +:+ s) = String c2 (s2 +:+ s)) in Heq.
    injection Heq as -> Heq. f_equal. by apply IH.
Qed.

Lemma jobKeyOf_inj key1 key2 dateKey currentTime :
  jobKeyOf key1 dateKey currentTime = jobKeyOf key2 dateKey currentTime → key1 = key2.
Proof. unfold jobKeyOf. apply append_cancel_r. Qed.

Lemma notFired_insert_ne ledger jobKey jobKey' :
  jobKey ≠ jobKey' →
  notFired (<[jobKey := true]> ledger) jobKey' = notFired ledger jobKey'.
Proof. intros Hne. unfold notFired. by rewrite lookup_insert_ne. Qed.

Lemma legacy_key_is_no_schedule_key key n :
  startsWith key "jadwal_" = true → key ≠ "legacy_jadwal_" +:+ n.
Proof. intros Hkey ->. cbn in Hkey. done. Qed.

(** X11.  The job keys tell the entries of one minute apart: evaluating one
    schedule entry, or a legacy slot, never puts the key of another
    entry into the ledger, so two entries set for the same minute do not
    block each other. *)
Theorem entries_of_one_minute_do_not_block_each_other (e : schedEnv) (k : kontrol)
  (currentTime dateKey key1 key2 n : string) (waktu_n : option string)
  (durasi_n : option Z) (w : world) :
  key1 ≠ key2 →
  startsWith key2 "jadwal_" = true →
  notFired (lastScheduleCheck (checkSchedule e k currentTime dateKey key1 w).2)
    (jobKeyOf key2 dateKey currentTime) =
  notFired (lastScheduleCheck w) (jobKeyOf key2 dateKey currentTime) ∧
  notFired (lastScheduleCheck (checkLegacy e n waktu_n durasi_n currentTime dateKey w).2)
    (jobKeyOf key2 dateKey currentTime) =
  notFired (lastScheduleCheck w) (jobKeyOf key2 dateKey currentTime).
Proof.
  intros Hne Hkey. split.
  - rewrite checkSchedule_eq.
    destruct (node_lookup (k_nodes k) key1) as [schedule|]; [|done]. cbv zeta.
    destruct (_ && _); [|done]. destruct (add_ok _); [|done].
    unfold after_schedule_job. simpl_world.
    apply notFired_insert_ne. intros Heq%jobKeyOf_inj. done.
  - rewrite checkLegacy_eq. cbv zeta.
    destruct (_ && _); [|done]. destruct (add_ok _); [|done].
    unfold after_schedule_job. simpl_world.
    apply notFired_insert_ne. intros Heq%jobKeyOf_inj.
    by eapply legacy_key_is_no_schedule_key.
Qed.

Lemma entries_of_one_minute_do_not_block_each_other_witness :
  notFired (lastScheduleCheck
              (checkSchedule tick_0800 jadwal_0800 "08:00" "2024-01-15" "jadwal_1"
                 (initial 0)).2)
    (jobKeyOf "jadwal_2" "2024-01-15" "08:00") =
  notFired (lastScheduleCheck (initial 0)) (jobKeyOf "jadwal_2" "2024-01-15" "08:00") ∧
  notFired (lastScheduleCheck
              (checkLegacy tick_0800 "1" (Some "08:00") None "08:00" "2024-01-15"
                 (initial 0)).2)
    (jobKeyOf "jadwal_2" "2024-01-15" "08:00") =
  notFired (lastScheduleCheck (initial 0)) (jobKeyOf "jadwal_2" "2024-01-15" "08:00").
Proof.
  apply (entries_of_one_minute_do_not_block_each_other tick_0800 jadwal_0800
           "08:00" "2024-01-15" "jadwal_1" "jadwal_2" "1" (Some "08:00") None (initial 0)).
  - discriminate.
  - reflexivity.
Defined.

Lemma notFired_false ledger jobKey :
  notFired ledger jobKey = false → ledger !! jobKey = Some true.
Proof. unfold notFired. by destruct (ledger !! jobKey) as [[]|]. Qed.

(** The loop over the schedules reaches every entry: one that is due
    and whose job the queue accepts is marked in the ledger afterwards,
    and if it was not marked before, its job has been enqueued in this
    loop. *)
Lemma for_of_schedules_fires e k currentTime dateKey keys key schedule w :
  key ∈ keys →
  node_lookup (k_nodes k) key = Some schedule →
  scheduleDue schedule currentTime = true →
  add_ok (add_reply e (jobKeyOf key dateKey currentTime)) = true →
  let out := for_of keys (checkSchedule e k currentTime dateKey) w in
  lastScheduleCheck out.2 !! jobKeyOf key dateKey currentTime = Some true ∧
  (notFired (lastScheduleCheck w) (jobKeyOf key dateKey currentTime) = true →
   ∃ jb, jb ∈ newJobs w out.2 ∧
         jobId jb = jobKeyOf key dateKey currentTime ∧ name jb = key ∧
         data jb = scheduleJobData key (jobKeyOf key dateKey currentTime) schedule).
Proof.
  intros Hin Hnode Hdue Hadd. cbv zeta. revert w.
  induction keys as [|key' keys IH]; intros w; [by apply elem_of_nil in Hin|].
  cbn [for_of]. cbv [mbind M_bind].
  pose proof (checkSchedule_spec e k currentTime dateKey key' w) as [Hr Hstep].
  cbv zeta in Hr, Hstep. apply schedule_step_grows in Hstep.
  pose proof (checkSchedule_eq e k currentTime dateKey key' w) as Heq.
  destruct (checkSchedule e k currentTime dateKey key' w) as [r w1]; cbn [fst snd] in *.
  subst r.
  pose proof (for_of_schedules e k currentTime dateKey keys w1) as [_ Hrest].
  cbv zeta in Hrest. apply schedule_steps_grow in Hrest.
  destruct (decide (key' = key)) as [->|Hne].
  - rewrite Hnode in Heq. cbv zeta in Heq. rewrite Hdue, Hadd in Heq. cbn [andb] in Heq.
    destruct (notFired (lastScheduleCheck w) _) eqn:Hfresh.
    + injection Heq as ->. split.
      * apply Hrest. unfold after_schedule_job. simpl_world. apply lookup_insert_eq.
      * intros _.
        exists (mkJob key (scheduleJobData key (jobKeyOf key dateKey currentTime) schedule)
                  (jobKeyOf key dateKey currentTime) None (clock w)).
        split; [|done].
        eapply newJobs_grows_l; [|exact Hrest|by eexists].
        rewrite newJobs_after_schedule_job. apply list_elem_of_here.
    + split; [|done]. apply Hrest. injection Heq as ->. by apply notFired_false.
  - apply elem_of_cons in Hin as [->|Hin]; [done|].
    destruct (IH Hin w1) as [Hmarked Hjob]. split; [done|].
    intros Hfresh.
    assert (notFired (lastScheduleCheck w1) (jobKeyOf key dateKey currentTime) = true)
      as Hfresh1.
    { apply (f_equal snd) in Heq. cbn [snd] in Heq. rewrite Heq.
      destruct (node_lookup (k_nodes k) key') as [schedule'|]; [|done].
      cbv zeta.
      destruct (scheduleDue schedule' currentTime &&
                notFired (lastScheduleCheck w) (jobKeyOf key' dateKey currentTime));
        [|done].
      destruct (add_ok (add_reply e (jobKeyOf key' dateKey currentTime))); cbn [snd];
        [|done].
      unfold after_schedule_job. simpl_world. cbn [jobId].
      rewrite notFired_insert_ne; [done|]. intros Hk%jobKeyOf_inj. done. }
    destruct (Hjob Hfresh1) as (jb & Hjb & Hid).
    exists jb. split; [|done].
    eapply newJobs_grows; [exact Hstep | exact Hjb | apply Hrest].
Qed.

(** The same for the matching as a whole: the legacy slots and the
    cleanup of the ledger take nothing back. *)
Lemma matchSchedules_fires e k key schedule w :
  k_waktu k = true →
  key ∈ keys k → startsWith key "jadwal_" = true →
  node_lookup (k_nodes k) key = Some schedule →
  scheduleDue schedule (currentTimeOf (now e)) = true →
  add_ok (add_reply e (jobKeyOf key (dateKeyOf (now e)) (currentTimeOf (now e)))) = true →
  let jobKey := jobKeyOf key (dateKeyOf (now e)) (currentTimeOf (now e)) in
  let out := matchSchedules e (Some k) w in
  lastScheduleCheck out.2 !! jobKey = Some true ∧
  (notFired (lastScheduleCheck w) jobKey = true →
   ∃ jb, jb ∈ newJobs w out.2 ∧ jobId jb = jobKey ∧ name jb = key ∧
         data jb = scheduleJobData key jobKey schedule).
Proof.
  intros Hon Hin Hkey Hnode Hdue Hadd. cbv zeta.
  unfold matchSchedules. cbv zeta. rewrite Hon. cbn [negb].
  cbv [mbind M_bind mret M_ret modify].
  assert (key ∈ List.filter (λ key, startsWith key "jadwal_") (keys k)) as Hin'.
  { apply list_elem_of_In, filter_In. split; [by apply list_elem_of_In | done]. }
  pose proof (for_of_schedules_fires e k (currentTimeOf (now e)) (dateKeyOf (now e))
                _ key schedule w Hin' Hnode Hdue Hadd) as [Hmarked Hjob].
  cbv zeta in Hmarked, Hjob.
  pose proof (for_of_schedules e k (currentTimeOf (now e)) (dateKeyOf (now e))
                (List.filter (λ key, startsWith key "jadwal_") (keys k)) w) as [Hr0 Hs0].
  cbv zeta in Hr0, Hs0. apply schedule_steps_grow in Hs0.
  destruct (for_of _ (checkSchedule e k _ _) w) as [r0 w0]; cbn [fst snd] in *. subst r0.
  pose proof (checkLegacy_spec e "1" (k_waktu_1 k) (k_durasi_1 k)
                (currentTimeOf (now e)) (dateKeyOf (now e)) w0) as [Hr1 Hs1].
  cbv zeta in Hr1, Hs1. apply schedule_step_grows in Hs1.
  destruct (checkLegacy e "1" _ _ _ _ w0) as [r1 w1]; cbn [fst snd] in *. subst r1.
  pose proof (checkLegacy_spec e "2" (k_waktu_2 k) (k_durasi_2 k)
                (currentTimeOf (now e)) (dateKeyOf (now e)) w1) as [Hr2 Hs2].
  cbv zeta in Hr2, Hs2. apply schedule_step_grows in Hs2.
  destruct (checkLegacy e "2" _ _ _ _ w1) as [r2 w2]; cbn [fst snd] in *. subst r2.
  pose proof (grows_trans _ _ _ Hs1 Hs2) as Hs12.
  simpl_world. split.
  - unfold cleanupLedger. apply map_lookup_filter_Some. split.
    + apply Hs12, Hmarked.
    + cbn. apply jobKey_includes_dateKey.
  - intros Hfresh. destruct (Hjob Hfresh) as (jb & Hjb & Hid).
    exists jb. split; [|done].
    unfold newJobs. simpl_world.
    apply (newJobs_grows_l w w0 w2 jb Hjb Hs12). apply Hs0.
Qed.

Lemma detailLogThrows_printable e k checkCounter :
  existsb (unprintable k) (List.filter (λ key, startsWith key "jadwal_") (keys k)) = false →
  detailLogThrows e (Some k) checkCounter = false.
Proof.
  intros H. unfold detailLogThrows. rewrite H.
  by destruct (detailTick _ _), (k_waktu k).
Qed.

(** X23.  After a check whose read failed on both transports, the next
    check whose read succeeds matches the schedules as if nothing had
    happened, provided its detail log can be built (every schedule entry
    that is an object has an array, or nothing, under [pot_aktif]): for
    every entry that is due, was not marked before the failure and whose
    job the queue accepts, the job of the entry, with its pots, duration
    and pumps, is enqueued by that check under the key of the minute,
    and the key is marked. *)
Theorem recovered_check_fires_every_due_entry (w : world) (e1 e2 : schedEnv)
  (k : kontrol) (key : string) (schedule : entry) :
  sdk_ok (kontrol_reply e1) = false →
  rest_ok (kontrol_reply e1) = false →
  landed (checkScheduledWatering e1 w).2 (kontrol_reply e2) = true →
  payload (kontrol_reply e2) = Some k →
  k_waktu k = true →
  existsb (unprintable k) (List.filter (λ key, startsWith key "jadwal_") (keys k)) = false →
  key ∈ keys k →
  startsWith key "jadwal_" = true →
  node_lookup (k_nodes k) key = Some schedule →
  scheduleDue schedule (currentTimeOf (now e2)) = true →
  add_ok (add_reply e2 (jobKeyOf key (dateKeyOf (now e2)) (currentTimeOf (now e2)))) = true →
  notFired (lastScheduleCheck w)
    (jobKeyOf key (dateKeyOf (now e2)) (currentTimeOf (now e2))) = true →
  (checkScheduledWatering e2 (checkScheduledWatering e1 w).2).1 = Ok tt ∧
  lastScheduleCheck (checkScheduledWatering e2 (checkScheduledWatering e1 w).2).2
    !! jobKeyOf key (dateKeyOf (now e2)) (currentTimeOf (now e2)) = Some true ∧
  ∃ jb,
    jb ∈ newJobs w (checkScheduledWatering e2 (checkScheduledWatering e1 w).2).2 ∧
    jobId jb = jobKeyOf key (dateKeyOf (now e2)) (currentTimeOf (now e2)) ∧
    name jb = key ∧
    data jb = scheduleJobData key
                (jobKeyOf key (dateKeyOf (now e2)) (currentTimeOf (now e2))) schedule.
Proof.
  intros Hsdk Hrest Hlanded Hpayload Hon Hprint Hin Hkey Hnode Hdue Hadd Hfresh.
  destruct (failed_read_is_skipped w e1 Hsdk Hrest) as (_ & Hq1 & Hl1).
  split; [apply checkScheduledWatering_ok|].
  set (w1 := (checkScheduledWatering e1 w).2) in *.
  rewrite checkScheduledWatering_unfold.
  pose proof (fetchKontrolSmart_landed (kontrol_reply e2)
                (upd_checkCounter (λ n, n + 1) w1)) as Hres.
  change (landed (upd_checkCounter (λ n, n + 1) w1) (kontrol_reply e2))
    with (landed w1 (kontrol_reply e2)) in Hres.
  rewrite Hlanded, Hpayload in Hres.
  pose proof (fetchKontrolSmart_frame (kontrol_reply e2) (upd_checkCounter (λ n, n + 1) w1))
    as (_ & _ & Hl2 & _ & Hq2 & _).
  cbv zeta in Hl2, Hq2. simpl_world_in Hl2. simpl_world_in Hq2.
  destruct (fetchKontrolSmart (kontrol_reply e2) _) as [r w2]; cbn [fst snd] in *.
  subst r. rewrite (detailLogThrows_printable e2 k _ Hprint).
  destruct (matchSchedules_fires e2 k key schedule w2 Hon Hin Hkey Hnode Hdue Hadd)
    as [Hmarked Hjob]. cbv zeta in Hmarked, Hjob.
  split; [done|].
  rewrite Hl2, Hl1 in Hjob. destruct (Hjob Hfresh) as (jb & Hjb & Hid).
  exists jb. split; [|done].
  unfold newJobs in *. by rewrite Hq2, Hq1 in Hjb.
Qed.

Lemma recovered_check_fires_every_due_entry_witness :
  (checkScheduledWatering tick_0800
     (checkScheduledWatering tick_0800_store_down (initial 0)).2).1 = Ok tt ∧
  lastScheduleCheck
    (checkScheduledWatering tick_0800
       (checkScheduledWatering tick_0800_store_down (initial 0)).2).2
    !! jobKeyOf "jadwal_1" (dateKeyOf (now tick_0800)) (currentTimeOf (now tick_0800))
  = Some true ∧
  ∃ jb,
    jb ∈ newJobs (initial 0)
           (checkScheduledWatering tick_0800
              (checkScheduledWatering tick_0800_store_down (initial 0)).2).2 ∧
    jobId jb = jobKeyOf "jadwal_1" (dateKeyOf (now tick_0800)) (currentTimeOf (now tick_0800)) ∧
    name jb = "jadwal_1" ∧
    data jb = scheduleJobData "jadwal_1"
                (jobKeyOf "jadwal_1" (dateKeyOf (now tick_0800))
                   (currentTimeOf (now tick_0800)))
                (mkEntry (Some true) (Some "08:00") (Some 60) (PotArray [1; 2; 3])
                   None None None None None).
Proof.
  apply (recovered_check_fires_every_due_entry (initial 0) tick_0800_store_down tick_0800
           jadwal_0800 "jadwal_1").
  - reflexivity.
  - reflexivity.
  - reflexivity.
  - reflexivity.
  - reflexivity.
  - reflexivity.
  - apply list_elem_of_here.
  - reflexivity.
  - reflexivity.
  - vm_compute. reflexivity.
  - reflexivity.
  - reflexivity.
Defined.

Lemma completed_job_starts_cooldown_witness :
  1 ∉ (potDetailsOf pot1_dry
         (lastWateringTime (wateringWorker job_pots_1_2 store_always_up (initial 5)).2)
         2000 30 70 [1; 2]).*1.
Proof.
  eapply (completed_job_starts_cooldown job_pots_1_2 store_always_up (initial 5)).
  - reflexivity.
  - vm_compute. reflexivity.
  - apply list_elem_of_here.
  - vm_compute. reflexivity.
Defined.

Lemma refused_schedule_job_is_retried_witness :
  (checkSchedule tick_0800_queue_down jadwal_0800 "08:00" "2026-01-05" "jadwal_1"
     (initial 0)).1 = Ok tt ∧
  queue (checkSchedule tick_0800_queue_down jadwal_0800 "08:00" "2026-01-05" "jadwal_1"
           (initial 0)).2 = queue (initial 0) ∧
  lastScheduleCheck
    (checkSchedule tick_0800_queue_down jadwal_0800 "08:00" "2026-01-05" "jadwal_1"
       (initial 0)).2 = lastScheduleCheck (initial 0) ∧
  ∃ jb,
    queue (checkSchedule tick_0800 jadwal_0800 "08:00" "2026-01-05" "jadwal_1"
             (checkSchedule tick_0800_queue_down jadwal_0800 "08:00" "2026-01-05"
                "jadwal_1" (initial 0)).2).2 = queue (initial 0) ++ [jb] ∧
    jobId jb = jobKeyOf "jadwal_1" "2026-01-05" "08:00" ∧
    potNumbers (data jb) = potsOf (PotArray [1; 2; 3]).
Proof.
  apply (refused_schedule_job_is_retried tick_0800_queue_down tick_0800 jadwal_0800
           "08:00" "2026-01-05" "jadwal_1"
           (mkEntry (Some true) (Some "08:00") (Some 60) (PotArray [1; 2; 3])
              None None None None None) (initial 0)).
  - reflexivity.
  - reflexivity.
  - reflexivity.
  - reflexivity.
  - reflexivity.
Defined.

Lemma schedule_step_ledger dateKey currentTime w w' :
  schedule_step dateKey currentTime w w' →
  (∀ key, lastScheduleCheck w !! key = Some true →
          lastScheduleCheck w' !! key = Some true) ∧
  (∀ key, is_Some (lastScheduleCheck w' !! key) →
          is_Some (lastScheduleCheck w !! key) ∨ includes key dateKey = true).
Proof.
  intros (_ & _ & _ & [[_ Hl]|(key & jb & Hid & _ & _ & _ & _ & Hl)]); rewrite Hl.
  - split; auto.
  - split; intros key'.
    + intros Hin. destruct (decide (jobId jb = key')) as [<-|Hne];
        [apply lookup_insert_eq | by rewrite lookup_insert_ne].
    + destruct (decide (jobId jb = key')) as [<-|Hne].
      * intros _. right. rewrite Hid. apply jobKey_includes_dateKey.
      * rewrite lookup_insert_ne by done. auto.
Qed.

Lemma schedule_steps_ledger dateKey currentTime w w' :
  rtc (schedule_step dateKey currentTime) w w' →
  (∀ key, lastScheduleCheck w !! key = Some true →
          lastScheduleCheck w' !! key = Some true) ∧
  (∀ key, is_Some (lastScheduleCheck w' !! key) →
          is_Some (lastScheduleCheck w !! key) ∨ includes key dateKey = true).
Proof.
  induction 1 as [|w w1 w2 Hstep _ [IH1 IH2]]; [split; auto|].
  destruct (schedule_step_ledger _ _ _ _ Hstep) as [H1 H2].
  split; [auto|]. intros key Hkey. destruct (IH2 key Hkey); auto.
Qed.

Lemma matchSchedules_enabled e k w :
  k_waktu k = true →
  ∃ w1, rtc (schedule_step (dateKeyOf (now e)) (currentTimeOf (now e))) w w1 ∧
        (matchSchedules e (Some k) w).2
        = upd_lastScheduleCheck (cleanupLedger (dateKeyOf (now e))) w1.
Proof.
  intros Hon. unfold matchSchedules. cbv zeta. rewrite Hon. cbn [negb].
  cbv [mbind M_bind mret M_ret modify].
  match goal with
  | |- context [for_of ?l ?f w] =>
      pose proof (for_of_schedules e k (currentTimeOf (now e)) (dateKeyOf (now e)) l w)
        as [Hr0 Hs0];
      cbv zeta in Hr0, Hs0; destruct (for_of l f w) as [r0 w0]; cbn [fst snd] in *
  end.
  subst r0.
  pose proof (checkLegacy_spec e "1" (k_waktu_1 k) (k_durasi_1 k)
                (currentTimeOf (now e)) (dateKeyOf (now e)) w0) as [Hr1 Hs1].
  cbv zeta in Hr1, Hs1.
  destruct (checkLegacy e "1" _ _ _ _ w0) as [r1 w1]; cbn [fst snd] in *. subst r1.
  pose proof (checkLegacy_spec e "2" (k_waktu_2 k) (k_durasi_2 k)
                (currentTimeOf (now e)) (dateKeyOf (now e)) w1) as [Hr2 Hs2].
  cbv zeta in Hr2, Hs2.
  destruct (checkLegacy e "2" _ _ _ _ w1) as [r2 w2]; cbn [fst snd] in *. subst r2.
  exists w2. split; [|done].
  eapply rtc_trans; [exact Hs0|]. eapply rtc_l; [exact Hs1|]. by apply rtc_once.
Qed.

(** X12.  The ledger of fired schedules is pruned at the end of every
    check that gets as far as the matching (the time mode is on and the
    detail log of the check does not throw): afterwards every key in it
    contains the date key of the day of the check, so the ledger holds at
    most the keys of one day; and a key of that day that was marked
    before the check is still marked, so nothing that fired today can
    fire again.  A check that does not get that far (no store, no
    configuration, time mode off, or a detail log that throws on an
    entry whose [pot_aktif] is no array) changes neither the queue nor
    the ledger: in particular it does not prune. *)
Theorem ledger_keeps_only_the_keys_of_today (e : schedEnv) (w : world) :
  let out := checkScheduledWatering e w in
  let dateKey := dateKeyOf (now e) in
  (reachesMatching e w = true →
   (∀ key, is_Some (lastScheduleCheck out.2 !! key) → includes key dateKey = true) ∧
   (∀ key, lastScheduleCheck w !! key = Some true → includes key dateKey = true →
           lastScheduleCheck out.2 !! key = Some true)) ∧
  (reachesMatching e w = false →
   queue out.2 = queue w ∧ lastScheduleCheck out.2 = lastScheduleCheck w).
Proof.
  cbv zeta. rewrite checkScheduledWatering_unfold. unfold reachesMatching, timeModeOn.
  pose proof (fetchKontrolSmart_landed (kontrol_reply e) (upd_checkCounter (λ n, n + 1) w))
    as Hres.
  pose proof (fetchKontrolSmart_frame (kontrol_reply e) (upd_checkCounter (λ n, n + 1) w))
    as (_ & _ & Hl & _ & Hq & _).
  cbv zeta in Hl, Hq. simpl_world_in Hl. simpl_world_in Hq.
  change (landed (upd_checkCounter (λ n, n + 1) w) (kontrol_reply e))
    with (landed w (kontrol_reply e)) in Hres.
  destruct (fetchKontrolSmart (kontrol_reply e) _) as [r w0]; cbn [fst snd] in *.
  destruct (landed w (kontrol_reply e)); subst r; cbv beta iota; cbn [andb fst snd];
    [|split; [done | by rewrite Hl, Hq]].
  destruct (payload (kontrol_reply e)) as [k|];
    [|split; [done | by destruct (detailLogThrows _ _ _);
                       cbn [matchSchedules mret M_ret snd]; rewrite Hl, Hq]].
  destruct (k_waktu k) eqn:Hon; cbn [andb].
  - destruct (detailLogThrows e (Some k) (checkCounter w + 1)); cbn [negb snd];
      [split; [done | by rewrite Hl, Hq]|].
    split; [intros _ | done].
    destruct (matchSchedules_enabled e k w0 Hon) as (w1 & Hsteps & ->).
    destruct (schedule_steps_ledger _ _ _ _ Hsteps) as [Hkeep Hnew].
    simpl_world. unfold cleanupLedger. split.
    + intros key [v Hv]. apply map_lookup_filter_Some in Hv as [_ Hv]. exact Hv.
    + intros key Hfired Htoday. apply map_lookup_filter_Some. split; [|done].
      apply Hkeep. by rewrite Hl.
  - split; [done | intros _].
    destruct (detailLogThrows _ _ _); [cbn [snd]; by rewrite Hl, Hq|].
    unfold matchSchedules. cbv zeta. rewrite Hon. cbn [negb mret M_ret snd].
    by rewrite Hl, Hq.
Qed.

(** ** Threshold jobs as the executor sees them *)

Lemma mosvet_of_pot_is_no_pump pot :
  1 ≤ pot ≤ 5 → mosvet (pot + 2) ≠ "mosvet_1" ∧ mosvet (pot + 2) ≠ "mosvet_2".
Proof.
  intros Hr.
  assert (pot = 1 ∨ pot = 2 ∨ pot = 3 ∨ pot = 4 ∨ pot = 5) as Hpot by lia.
  clear Hr. destruct Hpot as [->|[->|[->|[->| ->]]]]; vm_compute; split; discriminate.
Qed.

Lemma orElse_nonzero x d : d ≠ 0 → orElse x d ≠ 0.
Proof.
  intros Hd. unfold orElse. destruct x as [z|]; [|done].
  destruct (Z.eqb_spec z 0); done.
Qed.

(** X14.  The job that the threshold evaluator builds fits the executor: each
    of its pots has a valve that the on-update opens; the water pump is
    switched on only if [pompa_air] is [true] in the entry, the
    fertilizer pump only if [pompa_pupuk] is [true], so an entry that
    sets neither opens valves with no pump running; and an entry with
    [smart_mode] set always gets the monitored wait, with the upper
    bound of the entry ([batas_atas || 70]) as its target. *)
Theorem threshold_job_opens_the_valve_of_each_pot (thresholdKey id : string)
  (threshold : entry) (sd : gmap string reading) (lwt : gmap string Z)
  (t : Z) (potAktif : list Z) :
  let d := thresholdJobData thresholdKey id threshold
             (potDetailsOf sd lwt t (orElse (batas_bawah threshold) 30)
                (orElse (batas_atas threshold) 70) potAktif) in
  (∀ pot, pot ∈ potNumbers d → onUpdates d !! mosvet (pot + 2) = Some true) ∧
  (onUpdates d !! "mosvet_1" = Some true ↔ pompa_air threshold = Some true) ∧
  (onUpdates d !! "mosvet_2" = Some true ↔ pompa_pupuk threshold = Some true) ∧
  (if smartMode d then target_of (sensorData d) else None)
  = (if isTrue (smart_mode threshold) then Some (orElse (batas_atas threshold) 70)
     else None).
Proof.
  cbv zeta. split_and!.
  - intros pot Hpot. apply onUpdates_lookup. right. right. exists pot.
    split; [done|]. split; [|done].
    cbn [potNumbers thresholdJobData] in Hpot.
    apply elem_of_potsNeedWatering in Hpot. tauto.
  - split.
    + intros Hon. assert ("mosvet_1" ∈ dom (onUpdates
        (thresholdJobData thresholdKey id threshold
           (potDetailsOf sd lwt t (orElse (batas_bawah threshold) 30)
              (orElse (batas_atas threshold) 70) potAktif)))) as Hin
        by (apply elem_of_dom; by eexists).
      apply elem_of_dom_onUpdates in Hin as [[_ H]|[[[=] _]|(pot & _ & Hr & Heq)]].
      * cbn [pompaAir thresholdJobData] in H. unfold isTrue in H.
        by destruct (pompa_air threshold) as [[]|].
      * destruct (mosvet_of_pot_is_no_pump pot Hr). done.
    + intros Hp. apply onUpdates_lookup. left.
      cbn [pompaAir thresholdJobData]. by rewrite Hp.
  - split.
    + intros Hon. assert ("mosvet_2" ∈ dom (onUpdates
        (thresholdJobData thresholdKey id threshold
           (potDetailsOf sd lwt t (orElse (batas_bawah threshold) 30)
              (orElse (batas_atas threshold) 70) potAktif)))) as Hin
        by (apply elem_of_dom; by eexists).
      apply elem_of_dom_onUpdates in Hin as [[[=] _]|[[_ H]|(pot & _ & Hr & Heq)]].
      * cbn [pompaPupuk thresholdJobData] in H. unfold isTrue in H.
        by destruct (pompa_pupuk threshold) as [[]|].
      * destruct (mosvet_of_pot_is_no_pump pot Hr). done.
    + intros Hp. apply onUpdates_lookup. right. left.
      cbn [pompaPupuk thresholdJobData]. by rewrite Hp.
  - cbn [smartMode sensorData thresholdJobData]. destruct (isTrue _); [|done].
    unfold target_of. cbn [batasAtas].
    destruct (Z.eqb_spec (orElse (batas_atas threshold) 70) 0) as [Hz|]; [|done].
    by apply orElse_nonzero in Hz.
Qed.

(** ** Sensor check: errors and idle runs *)

Lemma checkSensorThresholds_ok e w : (checkSensorThresholds e w).1 = Ok tt.
Proof.
  unfold checkSensorThresholds, try_catch.
  match goal with
  | |- context [match ?m with _ => _ end] => destruct m as [[[]|message] w1]
  end; done.
Qed.

Lemma readFirebaseSmart_keeps_untouched {A} w0 path (r : reply A) :
  keeps (untouched w0) (readFirebaseSmart path r).
Proof.
  intros w [Hq Hl].
  destruct (readFirebaseSmart_spec path r w) as (_ & _ & _ & _ & Hl1 & _ & _ & Hq1 & _).
  split; congruence.
Qed.

Lemma fetchKontrolSmart_keeps_untouched w0 r : keeps (untouched w0) (fetchKontrolSmart r).
Proof.
  intros w [Hq Hl].
  destruct (fetchKontrolSmart_frame r w) as (_ & Hl1 & _ & _ & Hq1 & _).
  cbv zeta in Hl1, Hq1. split; congruence.
Qed.

Lemma checkThreshold_queue_down w0 e sd k thresholdKey :
  (∀ id, add_ok (queue_reply e id) = false) →
  keeps (untouched w0) (checkThreshold e sd k thresholdKey).
Proof.
  intros Hdown w Hw.
  destruct (node_lookup (k_nodes k) thresholdKey) as [threshold|] eqn:Hnode;
    [|rewrite checkThreshold_idle; [done | by rewrite Hnode]].
  destruct (default false (aktif threshold)) eqn:Hactive;
    [|rewrite checkThreshold_idle; [done | rewrite Hnode; by left]].
  destruct (isArray (orEmpty (pot_aktif threshold))) eqn:Harr;
    [|by rewrite (checkThreshold_not_iterable e sd k thresholdKey threshold w
                    Hnode Hactive Harr)].
  destruct (potDetailsOf sd (lastWateringTime w) (clock w)
              (orElse (batas_bawah threshold) 30) (orElse (batas_atas threshold) 70)
              (potsOf (pot_aktif threshold))) as [|p ps] eqn:Hpots;
    [rewrite checkThreshold_idle; [done | rewrite Hnode; by right]|].
  rewrite (checkThreshold_fires e sd k thresholdKey threshold w Hnode Hactive)
    by (rewrite Hpots; done).
  rewrite Hdown. exact Hw.
Qed.

(** X15.  A sensor check never throws.  When the sensor data cannot be read
    or is empty, the check ends at once: the configuration is not
    fetched, so the transport counters stay as they are, and nothing
    but the clock changes.  When the configuration is missing or the
    sensor mode ([otomatis]) is off, nothing is enqueued and no pot is
    stamped. *)
Theorem sensor_check_never_throws (e : sensorEnv) (w : world) :
  let out := checkSensorThresholds e w in
  out.1 = Ok tt ∧
  ((landed w (data_reply e) = false ∨ payload (data_reply e) = None) →
   only_time_passes w out.2) ∧
  ((∀ k, payload (config_reply e) = Some k → k_otomatis k = false) →
   queue out.2 = queue w ∧ lastWateringTime out.2 = lastWateringTime w ∧
   aktuator out.2 = aktuator w).
Proof.
  cbv zeta. split; [apply checkSensorThresholds_ok|].
  unfold checkSensorThresholds. cbv [mbind M_bind try_catch mret M_ret].
  destruct (readFirebaseSmart_spec "data" (data_reply e) w) as [Hr Hw].
  destruct (readFirebaseSmart "data" (data_reply e) w) as [r w1]; cbn [fst snd] in *.
  pose proof Hw as (_ & _ & _ & Hl1 & _ & Ha1 & Hq1 & _).
  split.
  - intros Hnone. destruct (landed w (data_reply e)); subst r; [|done].
    destruct Hnone as [[=]| ->]. done.
  - intros Hoff.
    destruct r as [[sd|]|message]; [|done..].
    pose proof (fetchKontrolSmart_landed (config_reply e) w1) as Hres.
    destruct (fetchKontrolSmart_frame (config_reply e) w1) as (_ & Hl2 & _ & Ha2 & Hq2 & _).
    cbv zeta in Hl2, Ha2, Hq2.
    destruct (fetchKontrolSmart (config_reply e) w1) as [r2 w2]; cbn [fst snd] in *.
    assert (queue w2 = queue w ∧ lastWateringTime w2 = lastWateringTime w ∧
            aktuator w2 = aktuator w) as Hsame by (split_and!; congruence).
    destruct (landed w1 (config_reply e)); subst r2; [|done].
    destruct (payload (config_reply e)) as [k|] eqn:Hk; [|done].
    rewrite (Hoff k eq_refl). done.
Qed.

(** X16.  When the queue refuses the jobs, a sensor check swallows the error:
    it returns normally, enqueues nothing and stamps no pot, so no
    cooldown starts and the next check finds the same pots due. *)
Theorem sensor_check_with_queue_down_stamps_nothing (e : sensorEnv) (w : world) :
  (∀ id, add_ok (queue_reply e id) = false) →
  (checkSensorThresholds e w).1 = Ok tt ∧
  queue (checkSensorThresholds e w).2 = queue w ∧
  lastWateringTime (checkSensorThresholds e w).2 = lastWateringTime w.
Proof.
  intros Hdown. split; [apply checkSensorThresholds_ok|].
  assert (keeps (untouched w) (checkSensorThresholds e)) as Hkeeps.
  { unfold checkSensorThresholds.
    apply keeps_try_catch; [|intros; apply keeps_ret].
    apply keeps_bind; [apply readFirebaseSmart_keeps_untouched|].
    intros [sd|]; [|apply keeps_ret].
    apply keeps_bind; [apply fetchKontrolSmart_keeps_untouched|].
    intros [k|]; [|apply keeps_ret].
    destruct (negb (k_otomatis k)); [apply keeps_ret|].
    cbv zeta. destruct (_ =? _)%nat; [apply keeps_ret|].
    apply keeps_for_of. intros thresholdKey. by apply checkThreshold_queue_down. }
  apply Hkeeps. done.
Qed.

Lemma sensor_check_with_queue_down_stamps_nothing_witness :
  (checkSensorThresholds (sensor_tick_queue_down pot1_dry) (initial 1000)).1 = Ok tt ∧
  queue (checkSensorThresholds (sensor_tick_queue_down pot1_dry) (initial 1000)).2
    = queue (initial 1000) ∧
  lastWateringTime (checkSensorThresholds (sensor_tick_queue_down pot1_dry) (initial 1000)).2
    = lastWateringTime (initial 1000).
Proof.
  apply (sensor_check_with_queue_down_stamps_nothing (sensor_tick_queue_down pot1_dry)
           (initial 1000)).
  intros id. reflexivity.
Defined.

(** ** Check of the actuator node *)

Lemma falseAt_lookup missing k :
  falseAt missing !! k = if bool_decide (k ∈ missing) then Some false else None.
Proof.
  unfold falseAt.
  assert (∀ u : gmap string bool,
            foldl (λ updates key, <[key := false]> updates) u missing !! k
            = if bool_decide (k ∈ missing) then Some false else u !! k) as H.
  { induction missing as [|key missing IH]; intros u; cbn [foldl]; [done|].
    rewrite IH. destruct (decide (k = key)) as [->|Hne].
    - rewrite lookup_insert_eq.
      rewrite (bool_decide_eq_true_2 (key ∈ key :: missing)) by apply list_elem_of_here.
      by destruct (bool_decide _).
    - rewrite lookup_insert_ne by done.
      destruct (decide (k ∈ missing)) as [Hin|Hout].
      + rewrite !bool_decide_eq_true_2; [done | by apply list_elem_of_further | done].
      + rewrite !bool_decide_eq_false_2; [done | | done].
        intros [?|?]%elem_of_cons; done. }
  rewrite H. by destruct (bool_decide _).
Qed.

Lemma elem_of_missingOf aktuatorData k :
  k ∈ missingOf aktuatorData ↔ k ∈ required ∧ k ∉ dom aktuatorData.
Proof.
  unfold missingOf. rewrite !list_elem_of_In, filter_In.
  rewrite negb_true_iff, bool_decide_eq_false. done.
Qed.

Lemma missingOf_nil aktuatorData :
  (0 <? length (missingOf aktuatorData))%nat = false → missingOf aktuatorData = [].
Proof. destruct (missingOf aktuatorData); [done | discriminate]. Qed.

Lemma checkAktuatorNode_ok e w : (checkAktuatorNode e w).1 = Ok tt.
Proof.
  unfold checkAktuatorNode, try_catch.
  match goal with
  | |- context [match ?m with _ => _ end] => destruct m as [[[]|message] w1]
  end; done.
Qed.

Lemma checkAktuatorNode_aktuator e w :
  aktuator (checkAktuatorNode e w).2 =
  if landed w (node_read e) then
    match payload (node_read e) with
    | None => if landed w (node_set e) then allOff else aktuator w
    | Some aktuatorData =>
        if landed w (node_update e)
        then falseAt (missingOf aktuatorData) ∪ aktuator w
        else aktuator w
    end
  else aktuator w.
Proof.
  unfold checkAktuatorNode. cbv [mbind M_bind try_catch mret M_ret modify].
  destruct (readFirebaseSmart_spec "aktuator" (node_read e) w) as [Hr Hw].
  destruct (readFirebaseSmart "aktuator" (node_read e) w) as [r w1]; cbn [fst snd] in *.
  destruct Hw as (_ & Hce & _ & _ & _ & Ha1 & _).
  assert (∀ A (r : reply A), landed w1 r = landed w r) as Hlanded
    by (intros A r'; unfold landed; by rewrite Hce).
  destruct (landed w (node_read e)); subst r; [|done].
  destruct (payload (node_read e)) as [aktuatorData|].
  - destruct (0 <? length (missingOf aktuatorData))%nat eqn:Hmissing.
    + destruct (updateFirebaseSmart_spec "aktuator" (falseAt (missingOf aktuatorData))
                  (node_update e) w1) as (Hr2 & _ & Ha2 & _).
      cbv zeta in Hr2, Ha2. rewrite Hlanded in Hr2, Ha2.
      destruct (updateFirebaseSmart _ _ _ w1) as [r2 w2]; cbn [fst snd] in *.
      destruct (landed w (node_update e)); cbn [andb] in Ha2.
      * subst r2. cbn [snd]. by rewrite Ha2, Ha1.
      * destruct Hr2 as [message ->]. cbn [snd]. by rewrite Ha2, Ha1.
    + cbn [snd]. rewrite (missingOf_nil _ Hmissing). cbn [falseAt foldl].
      rewrite (left_id_L ∅ (∪)). by destruct (landed w (node_update e)).
  - pose proof (setFirebaseSmart_result "aktuator" (node_set e) w1) as Hr2.
    pose proof (setFirebaseSmart_spec "aktuator" (node_set e) w1) as (_ & _ & _ & _ & _ & Ha2 & _).
    rewrite Hlanded in Hr2.
    destruct (setFirebaseSmart "aktuator" (node_set e) w1) as [r2 w2]; cbn [fst snd] in *.
    destruct (landed w (node_set e)).
    + subst r2. cbn [snd]. by destruct w2.
    + destruct Hr2 as [message ->]. cbn [snd]. by rewrite Ha2, Ha1.
Qed.

(** X17.  The check of the actuator node never throws and never switches a
    channel on: whatever the store answers, a channel that is on
    afterwards was on before. *)
Theorem node_check_switches_nothing_on (e : nodeEnv) (w : world) (k : string) :
  let out := checkAktuatorNode e w in
  out.1 = Ok tt ∧
  (aktuator out.2 !! k = Some true → aktuator w !! k = Some true).
Proof.
  cbv zeta. split; [apply checkAktuatorNode_ok|].
  rewrite checkAktuatorNode_aktuator.
  destruct (landed w (node_read e)); [|done].
  destruct (payload (node_read e)) as [aktuatorData|].
  - destruct (landed w (node_update e)); [|done].
    intros [Hm|[_ Hw]]%lookup_union_Some_raw; [|done].
    rewrite falseAt_lookup in Hm. by destruct (bool_decide _).
  - destruct (landed w (node_set e)); [|done].
    intros Hon. assert (k ∈ dom allOff) as Hin by (apply elem_of_dom; by eexists).
    rewrite (allOff_lookup _ Hin) in Hon. done.
Qed.

(** X18.  When the store answers the read with what it holds and takes the
    write, the node has all eight channels afterwards, whatever it held
    before; the channels that existed keep their value and the added
    ones are off. *)
Theorem node_check_completes_the_node (e : nodeEnv) (w : world) (k : string) :
  landed w (node_read e) = true →
  payload (node_read e) = nodeValue w →
  landed w (node_set e) = true →
  landed w (node_update e) = true →
  (k ∈ required → is_Some (aktuator (checkAktuatorNode e w).2 !! k)) ∧
  (∀ b, aktuator w !! k = Some b → aktuator (checkAktuatorNode e w).2 !! k = Some b) ∧
  (aktuator w !! k = None → k ∈ required →
   aktuator (checkAktuatorNode e w).2 !! k = Some false) ∧
  (aktuator w !! k = None → k ∉ required →
   aktuator (checkAktuatorNode e w).2 !! k = None).
Proof.
  intros Hread Hpayload Hset Hupdate.
  rewrite checkAktuatorNode_aktuator, Hread, Hpayload, Hset, Hupdate.
  assert (dom allOff = list_to_set required) as Hdom by apply dom_allOff.
  unfold nodeValue. destruct (decide (aktuator w = ∅)) as [Hempty|Hsome].
  - rewrite Hempty. split_and!.
    + intros Hk. exists false. apply allOff_lookup. rewrite Hdom. set_solver.
    + intros b. by rewrite lookup_empty.
    + intros _ Hk. apply allOff_lookup. rewrite Hdom. set_solver.
    + intros _ Hk. apply not_elem_of_dom. rewrite Hdom. set_solver.
  - assert (falseAt (missingOf (aktuator w)) !! k
            = if bool_decide (k ∈ required ∧ k ∉ dom (aktuator w))
              then Some false else None) as Hm.
    { rewrite falseAt_lookup. apply (f_equal (λ b : bool, if b then Some false else None)).
      apply bool_decide_ext, elem_of_missingOf. }
    split_and!.
    + intros Hk. destruct (aktuator w !! k) as [b|] eqn:Hb.
      * exists b. apply lookup_union_Some_raw. right. split; [|done].
        rewrite Hm, bool_decide_eq_false_2; [done|].
        intros [_ Hout]. apply Hout, elem_of_dom. by eexists.
      * exists false. apply lookup_union_Some_raw. left.
        rewrite Hm, bool_decide_eq_true_2; [done|].
        split; [done | by apply not_elem_of_dom].
    + intros b Hb. apply lookup_union_Some_raw. right. split; [|done].
      rewrite Hm, bool_decide_eq_false_2; [done|].
      intros [_ Hout]. apply Hout, elem_of_dom. by eexists.
    + intros Hb Hk. apply lookup_union_Some_raw. left.
      rewrite Hm, bool_decide_eq_true_2; [done|].
      split; [done | by apply not_elem_of_dom].
    + intros Hb Hk. apply lookup_union_None. split; [|done].
      rewrite Hm, bool_decide_eq_false_2; [done|]. intros [? _]. done.
Qed.

Lemma node_check_completes_the_node_witness :
  ("mosvet_3" ∈ required →
   is_Some (aktuator (checkAktuatorNode (node_up pump_on_only) pump_on_only).2
              !! "mosvet_3")) ∧
  (∀ b, aktuator pump_on_only !! "mosvet_3" = Some b →
        aktuator (checkAktuatorNode (node_up pump_on_only) pump_on_only).2 !! "mosvet_3"
        = Some b) ∧
  (aktuator pump_on_only !! "mosvet_3" = None → "mosvet_3" ∈ required →
   aktuator (checkAktuatorNode (node_up pump_on_only) pump_on_only).2 !! "mosvet_3"
   = Some false) ∧
  (aktuator pump_on_only !! "mosvet_3" = None → "mosvet_3" ∉ required →
   aktuator (checkAktuatorNode (node_up pump_on_only) pump_on_only).2 !! "mosvet_3"
   = None).
Proof.
  apply (node_check_completes_the_node (node_up pump_on_only) pump_on_only "mosvet_3").
  - reflexivity.
  - reflexivity.
  - reflexivity.
  - reflexivity.
Defined.

(** ** Executor: the monitored wait and its target *)

Lemma smartLoop_first_read its targetSoil potNumbers startTime maxDuration i w :
  clock w - startTime < maxDuration →
  ((clock w - startTime) `div` 1000) `rem` 5 = 0 →
  landed w (it_read (its i)) = true →
  (∃ d, payload (it_read (its i)) = Some d ∧ allReached d targetSoil potNumbers = true) →
  (smartLoop its targetSoil potNumbers startTime maxDuration i w).1 = Ok true ∧
  clock (smartLoop its targetSoil potNumbers startTime maxDuration i w).2
  = clock w + Z.of_N (latency (it_read (its i))).
Proof.
  funelim (smartLoop its targetSoil potNumbers startTime maxDuration i w);
    cbn [fst snd]; intros Hrun Hfive Hlanded (d & Hd & Hall);
    try lia;
    match goal with
    | Hc : smartCheck ?t ?p ?s ?e ?w = _ |- _ =>
        destruct (smartCheck_reached t p s e w d Hfive Hlanded Hd Hall) as (w1' & Hw1 & Hclock);
        rewrite Hc in Hw1
    end;
    simplify_eq; done.
Qed.

(** X19.  The monitored wait of a smart job reads the sensors on its first
    turn, before any sleep: when that read gets through and shows every
    pot of the job at or above the target, the wait is over as soon as
    the read has returned. *)
Theorem smart_wait_is_over_at_once_when_target_is_met (its : nat → iterEnv)
  (targetSoil : Z) (potNumbers : list Z) (maxDuration : Z) (w : world)
  (d : gmap string reading) :
  0 < maxDuration →
  landed w (it_read (its 0%nat)) = true →
  payload (it_read (its 0%nat)) = Some d →
  (∀ pot, pot ∈ potNumbers →
          targetSoil ≤ parseIntOr0 (d !! ("soil_" +:+ toString pot))) →
  (smartLoop its targetSoil potNumbers (clock w) maxDuration 0 w).1 = Ok true ∧
  clock (smartLoop its targetSoil potNumbers (clock w) maxDuration 0 w).2
  = clock w + Z.of_N (latency (it_read (its 0%nat))).
Proof.
  intros Hpos Hlanded Hd Hall.
  apply smartLoop_first_read; [lia | | done |].
  - by rewrite Z.sub_diag.
  - exists d. split; [done|]. by apply allReached_spec.
Qed.

Lemma smart_wait_is_over_at_once_when_target_is_met_witness :
  (smartLoop wet_sensor 70 [1] (clock (initial 5)) 600000 0 (initial 5)).1 = Ok true ∧
  clock (smartLoop wet_sensor 70 [1] (clock (initial 5)) 600000 0 (initial 5)).2
  = clock (initial 5) + Z.of_N (latency (it_read (wet_sensor 0%nat))).
Proof.
  apply (smart_wait_is_over_at_once_when_target_is_met wet_sensor 70 [1] 600000
           (initial 5) {["soil_1" := RNum 75]}).
  - lia.
  - reflexivity.
  - reflexivity.
  - intros pot ->%list_elem_of_singleton. vm_compute. discriminate.
Defined.

(** X20.  The monitored wait ends before its deadline only on a reading that
    shows every pot at the target: as long as every reading that comes
    back has a pot below the target (a pot without a usable reading
    counts as 0), the wait runs until the full duration has passed, and
    reports that the target was not reached. *)
Theorem smart_wait_runs_to_the_deadline_without_target (its : nat → iterEnv)
  (targetSoil : Z) (potNumbers : list Z) (startTime maxDuration : Z) (i : nat)
  (w : world) :
  (∀ j d, payload (it_read (its j)) = Some d →
          ∃ pot, pot ∈ potNumbers ∧
                 parseIntOr0 (d !! ("soil_" +:+ toString pot)) < targetSoil) →
  (smartLoop its targetSoil potNumbers startTime maxDuration i w).1 = Ok false ∧
  maxDuration ≤ clock (smartLoop its targetSoil potNumbers startTime maxDuration i w).2
                - startTime.
Proof.
  intros Hdry.
  destruct (smartLoop_spec its targetSoil potNumbers startTime maxDuration i w)
    as [(b & Hb & Hfalse) _]. cbv zeta in Hb, Hfalse.
  destruct b.
  - exfalso. destruct (smartLoop_true _ _ _ _ _ _ _ Hb) as (j & d & Hd & Hall).
    destruct (Hdry j d Hd) as (pot & Hpot & Hlow). specialize (Hall pot Hpot). lia.
  - split; [done | by apply Hfalse].
Qed.

Lemma smart_wait_runs_to_the_deadline_without_target_witness :
  (smartLoop slow_dry_sensor 70 [1] 5 1000 0 (initial 5)).1 = Ok false ∧
  1000 ≤ clock (smartLoop slow_dry_sensor 70 [1] 5 1000 0 (initial 5)).2 - 5.
Proof.
  apply (smart_wait_runs_to_the_deadline_without_target slow_dry_sensor 70 [1] 5 1000 0
           (initial 5)).
  intros j d [= <-]. exists 1. split; [apply list_elem_of_here | vm_compute; reflexivity].
Defined.

(** ** The checks only enqueue *)

Lemma checkSchedule_keeps_frame w0 e k currentTime dateKey scheduleKey :
  keeps (schedule_frame w0) (checkSchedule e k currentTime dateKey scheduleKey).
Proof.
  intros w Hw. rewrite checkSchedule_eq.
  destruct (node_lookup (k_nodes k) scheduleKey) as [schedule|]; [|done]. cbv zeta.
  destruct (_ && _); [|done]. destruct (add_ok _); [|done].
  unfold after_schedule_job, schedule_frame. simpl_world. exact Hw.
Qed.

Lemma checkLegacy_keeps_frame w0 e n waktu_n durasi_n currentTime dateKey :
  keeps (schedule_frame w0) (checkLegacy e n waktu_n durasi_n currentTime dateKey).
Proof.
  intros w Hw. rewrite checkLegacy_eq. cbv zeta.
  destruct (_ && _); [|done]. destruct (add_ok _); [|done].
  unfold after_schedule_job, schedule_frame. simpl_world. exact Hw.
Qed.

Lemma fetchKontrolSmart_keeps_frames w0 r :
  keeps (schedule_frame w0) (fetchKontrolSmart r) ∧
  keeps (sensor_frame w0) (fetchKontrolSmart r).
Proof.
  split; intros w (H1 & H2 & H3);
    destruct (fetchKontrolSmart_frame r w) as (_ & Hl & Hs & Ha & _ & Hr);
    cbv zeta in Hl, Hs, Ha, Hr; split_and!; congruence.
Qed.

Lemma checkThreshold_keeps_frame w0 e sd k thresholdKey :
  keeps (sensor_frame w0) (checkThreshold e sd k thresholdKey).
Proof.
  intros w Hw.
  destruct (node_lookup (k_nodes k) thresholdKey) as [threshold|] eqn:Hnode;
    [|by rewrite checkThreshold_idle by (by rewrite Hnode)].
  destruct (default false (aktif threshold)) eqn:Hactive;
    [|by rewrite checkThreshold_idle by (rewrite Hnode; by left)].
  destruct (isArray (orEmpty (pot_aktif threshold))) eqn:Harr;
    [|by rewrite (checkThreshold_not_iterable e sd k thresholdKey threshold w
                    Hnode Hactive Harr)].
  destruct (potDetailsOf sd (lastWateringTime w) (clock w)
              (orElse (batas_bawah threshold) 30) (orElse (batas_atas threshold) 70)
              (potsOf (pot_aktif threshold))) as [|d ds] eqn:Hd;
    [by rewrite checkThreshold_idle by (rewrite Hnode; by right)|].
  rewrite (checkThreshold_fires e sd k thresholdKey threshold w Hnode Hactive)
    by (by rewrite Hd).
  destruct (add_ok _); cbn [snd]; unfold after_threshold_job, sensor_frame; simpl_world;
    exact Hw.
Qed.

(** X22.  The two periodic checks only enqueue: neither asks for a write to
    the actuator node nor changes it, so channels are switched by jobs
    alone.  A schedule check also leaves the record of watering times as
    it is (a scheduled job starts no cooldown before it has run), and a
    sensor check leaves the ledger of fired schedules as it is. *)
Theorem checks_never_drive_the_actuators (es : schedEnv) (et : sensorEnv) (w : world) :
  (aktuator (checkScheduledWatering es w).2 = aktuator w ∧
   requests (checkScheduledWatering es w).2 = requests w ∧
   lastWateringTime (checkScheduledWatering es w).2 = lastWateringTime w) ∧
  (aktuator (checkSensorThresholds et w).2 = aktuator w ∧
   requests (checkSensorThresholds et w).2 = requests w ∧
   lastScheduleCheck (checkSensorThresholds et w).2 = lastScheduleCheck w).
Proof.
  split.
  - assert (keeps (schedule_frame w) (checkScheduledWatering es)) as Hkeeps; [|by apply Hkeeps].
    unfold checkScheduledWatering.
    apply keeps_bind; [intros w1 Hw1; exact Hw1 | intros _].
    apply keeps_try_catch; [|intros; apply keeps_ret].
    apply keeps_bind; [apply fetchKontrolSmart_keeps_frames|].
    intros kontrolConfig. apply keeps_bind.
    { intros w1 Hw1. rewrite logDetails_spec. by destruct (detailLogThrows _ _ _). }
    intros _. destruct kontrolConfig as [k|]; unfold matchSchedules; cbv zeta;
      [|apply keeps_ret].
    destruct (negb (k_waktu k)); [apply keeps_ret|].
    apply keeps_bind; [apply keeps_for_of; intros; apply checkSchedule_keeps_frame|].
    intros _. apply keeps_bind; [apply checkLegacy_keeps_frame|].
    intros _. apply keeps_bind; [apply checkLegacy_keeps_frame|].
    intros _ w1 Hw1. exact Hw1.
  - assert (keeps (sensor_frame w) (checkSensorThresholds et)) as Hkeeps; [|by apply Hkeeps].
    unfold checkSensorThresholds.
    apply keeps_try_catch; [|intros; apply keeps_ret].
    apply keeps_bind.
    { intros w1 (H1 & H2 & H3).
      destruct (readFirebaseSmart_spec "data" (data_reply et) w1)
        as (_ & _ & _ & _ & _ & Hs & Ha & _ & Hr).
      split_and!; congruence. }
    intros [sd|]; [|apply keeps_ret].
    apply keeps_bind; [apply fetchKontrolSmart_keeps_frames|].
    intros [k|]; [|apply keeps_ret].
    destruct (negb (k_otomatis k)); [apply keeps_ret|].
    cbv zeta. destruct (_ =? _)%nat; [apply keeps_ret|].
    apply keeps_for_of. intros thresholdKey. apply checkThreshold_keeps_frame.
Qed.
